(** * NexFlow: flow execution and scheduling engine

    A shallow embedding of the TypeScript sources of the engine
    ([src/lib/cron.ts], [src/lib/template.ts], [src/lib/stepExecutor.ts],
    [src/lib/utils.ts], [src/lib/scheduler.ts], [src/schemas/FlowConfig.ts],
    [src/durable/NexFlowManager.ts]) together with the properties the
    design document states about them, and with further properties of the
    code: of the interpreter, of the requests of the store and of the
    scheduler.

    Modelling conventions.
    - JavaScript strings are Rocq [string]s (sequences of 8-bit characters);
      case mapping and white space are the ASCII ones.
    - JavaScript numbers are exact decimals [m * 10 ^ e] extended with
      [NaN] and the two infinities.  The engine parses, compares and prints
      numbers; the one place where it computes with them, the product of
      [parseDuration], is rounded to binary64.  Elsewhere the model leaves
      out the rounding of literals to binary64.
    - Objects used as dictionaries ([results], [flows], [history]) are
      [gmap]s over their own properties.  A read [obj[key]] that finds no
      own property goes on along the prototype chain: the members that
      values inherit, and the built-in objects and functions reached
      through them, are operations of [Builtins].
    - Effects (clock, network, timers, random ids, the JSON parser, the cron
      library) are the operations of a [Runtime]; code that uses them
      threads a world state, code that can throw returns a [completion]. *)

From Stdlib Require Import ZArith String Ascii List Lia DecimalString.
From stdpp Require Import gmap strings list.
From Equations Require Import Equations.

Local Open Scope Z_scope.

(* ===================================================================== *)
(** * Strings *)
(* ===================================================================== *)

Module Str.

Definition is_digit (c : ascii) : bool :=
  let n := nat_of_ascii c in (48 <=? n)%nat && (n <=? 57)%nat.

Definition is_lower (c : ascii) : bool :=
  let n := nat_of_ascii c in (97 <=? n)%nat && (n <=? 122)%nat.

Definition is_upper (c : ascii) : bool :=
  let n := nat_of_ascii c in (65 <=? n)%nat && (n <=? 90)%nat.

(** White space as [String.prototype.trim] sees it, restricted to the
    8-bit characters: TAB, LF, VT, FF, CR and SPACE. *)
Definition is_space (c : ascii) : bool :=
  let n := nat_of_ascii c in
  ((9 <=? n)%nat && (n <=? 13)%nat) || (n =? 32)%nat.

Definition to_lower_char (c : ascii) : ascii :=
  if is_upper c then ascii_of_nat (nat_of_ascii c + 32) else c.

Fixpoint map (f : ascii -> ascii) (s : string) : string :=
  match s with
  | EmptyString => EmptyString
  | String c r => String (f c) (map f r)
  end.

(** [String.prototype.toLowerCase]. *)
Definition toLowerCase (s : string) : string := map to_lower_char s.

Fixpoint rev_onto (s acc : string) : string :=
  match s with
  | EmptyString => acc
  | String c r => rev_onto r (String c acc)
  end.

Definition rev (s : string) : string := rev_onto s EmptyString.

Fixpoint drop_while (p : ascii -> bool) (s : string) : string :=
  match s with
  | EmptyString => EmptyString
  | String c r => if p c then drop_while p r else s
  end.

Fixpoint take_while (p : ascii -> bool) (s : string) : string :=
  match s with
  | EmptyString => EmptyString
  | String c r => if p c then String c (take_while p r) else EmptyString
  end.

(** Removes the longest suffix of characters that satisfy [p]. *)
Fixpoint drop_while_end (p : ascii -> bool) (s : string) : string :=
  match s with
  | EmptyString => EmptyString
  | String c r =>
      match drop_while_end p r with
      | EmptyString => if p c then EmptyString else String c EmptyString
      | r' => String c r'
      end
  end.

(** [String.prototype.trim]. *)
Definition trim (s : string) : string :=
  drop_while_end is_space (drop_while is_space s).

Fixpoint forallb (p : ascii -> bool) (s : string) : bool :=
  match s with
  | EmptyString => true
  | String c r => p c && forallb p r
  end.

Fixpoint repeat (c : ascii) (n : nat) : string :=
  match n with
  | O => EmptyString
  | S k => String c (repeat c k)
  end.

Fixpoint take (n : nat) (s : string) : string :=
  match n, s with
  | S k, String c r => String c (take k r)
  | _, _ => EmptyString
  end.

Fixpoint drop (n : nat) (s : string) : string :=
  match n, s with
  | S k, String _ r => drop k r
  | _, _ => s
  end.

(** [s.split(sep)] for a one-character separator: always at least one
    piece. *)
Fixpoint split (sep : ascii) (s : string) : list string :=
  match s with
  | EmptyString => [EmptyString]
  | String c r =>
      if Ascii.eqb c sep then EmptyString :: split sep r
      else match split sep r with
           | p :: ps => String c p :: ps
           | [] => [String c EmptyString]
           end
  end.

(** [xs.join(sep)]. *)
Definition join (sep : string) (xs : list string) : string :=
  String.concat sep xs.

(** Truthiness of a string: every string but the empty one. *)
Definition truthy (s : string) : bool :=
  match s with EmptyString => false | _ => true end.

(** Decimal rendering of a natural number. *)
Definition of_N (n : N) : string := NilZero.string_of_uint (N.to_uint n).
Definition of_nat (n : nat) : string := of_N (N.of_nat n).

Definition digit_val (c : ascii) : Z := Z.of_nat (nat_of_ascii c) - 48.

(** Value of a string of decimal digits, most significant first. *)
Definition digits_val (s : string) : Z :=
  let fix go (s : string) (acc : Z) : Z :=
    match s with
    | EmptyString => acc
    | String c r => go r (10 * acc + digit_val c)
    end in
  go s 0.

End Str.

(* ===================================================================== *)
(** * JavaScript values *)
(* ===================================================================== *)

Module JS.

(** ** Numbers *)

(** [Dec m e] is the number [m * 10 ^ e]. *)
Inductive number :=
| NaN
| PosInf
| NegInf
| Dec (m e : Z).

Definition of_Z (z : Z) : number := Dec z 0.

Definition isNaN (x : number) : bool :=
  match x with NaN => true | _ => false end.

Definition dec_compare (m1 e1 m2 e2 : Z) : comparison :=
  let e := Z.min e1 e2 in
  Z.compare (m1 * 10 ^ (e1 - e)) (m2 * 10 ^ (e2 - e)).

(** [x < y] on numbers; false as soon as one side is [NaN]. *)
Definition num_ltb (x y : number) : bool :=
  match x, y with
  | NaN, _ | _, NaN => false
  | PosInf, _ => false
  | _, NegInf => false
  | NegInf, _ => true
  | _, PosInf => true
  | Dec m1 e1, Dec m2 e2 =>
      match dec_compare m1 e1 m2 e2 with Lt => true | _ => false end
  end.

(** [x === y] on numbers. *)
Definition num_eqb (x y : number) : bool :=
  match x, y with
  | PosInf, PosInf | NegInf, NegInf => true
  | Dec m1 e1, Dec m2 e2 =>
      match dec_compare m1 e1 m2 e2 with Eq => true | _ => false end
  | _, _ => false
  end.

Definition num_gtb (x y : number) : bool := num_ltb y x.

(** [x <= y] is "not [y < x]", except that it is false on [NaN]. *)
Definition num_leb (x y : number) : bool :=
  negb (isNaN x) && negb (isNaN y) && negb (num_ltb y x).

Definition num_geb (x y : number) : bool := num_leb y x.

(** Truthiness of a number: everything but zero and [NaN]. *)
Definition num_truthy (x : number) : bool :=
  match x with
  | NaN => false
  | Dec m _ => negb (m =? 0)
  | _ => true
  end.

(** *** Rounding to binary64 *)

(** The number nearest to the integer [z] among those of binary64, ties
    going to the even significand: the integers below [2 ^ 53] in
    magnitude are kept, a larger one keeps its 53 leading bits, and what
    rounds to [2 ^ 1024] or beyond is infinite. *)
Definition binary64_of_Z (z : Z) : number :=
  let a := Z.abs z in
  if a <? 2 ^ 53 then Dec z 0
  else
    let k := Z.log2 a - 52 in
    let q := a / 2 ^ k in
    let r := a mod 2 ^ k in
    let half := 2 ^ (k - 1) in
    let q := if (half <? r) || ((r =? half) && Z.odd q) then q + 1 else q in
    let m := q * 2 ^ k in
    if 2 ^ 1024 <=? m then (if z <? 0 then NegInf else PosInf)
    else Dec (Z.sgn z * m) 0.

(** [z * k] as the engine computes it for a positive integer [k]: the
    integer and the product are both rounded. *)
Definition binary64_product (z k : Z) : number :=
  match binary64_of_Z z with
  | Dec m _ => binary64_of_Z (m * k)
  | other => other
  end.

(** *** [Number::toString] *)

(** Removes the trailing zeros of a digit string and counts them. *)
Definition strip_trailing_zeros (ds : string) : string * nat :=
  let r := Str.rev ds in
  let z := Str.take_while (Ascii.eqb "0") r in
  (Str.rev (Str.drop (String.length z) r), String.length z).

Definition sign_prefix (z : Z) : string := if z <? 0 then "-" else "+".

(** The digits [ds] (no trailing zero, [k] of them) and the position [n] of
    the decimal point describe [0.ds * 10 ^ n]. *)
Definition render_positive (a e : Z) : string :=
  let '(ds, z) := strip_trailing_zeros (Str.of_N (Z.to_N a)) in
  let k := Z.of_nat (String.length ds) in
  let n := k + e + Z.of_nat z in
  if (k <=? n) && (n <=? 21) then
    ds +:+ Str.repeat "0" (Z.to_nat (n - k))
  else if (0 <? n) && (n <=? 21) then
    Str.take (Z.to_nat n) ds +:+ "." +:+ Str.drop (Z.to_nat n) ds
  else if (-6 <? n) && (n <=? 0) then
    "0." +:+ Str.repeat "0" (Z.to_nat (- n)) +:+ ds
  else
    let x := n - 1 in
    let ex := "e" +:+ sign_prefix x +:+ Str.of_N (Z.to_N (Z.abs x)) in
    if k =? 1 then ds +:+ ex
    else Str.take 1 ds +:+ "." +:+ Str.drop 1 ds +:+ ex.

Definition num_to_string (x : number) : string :=
  match x with
  | NaN => "NaN"
  | PosInf => "Infinity"
  | NegInf => "-Infinity"
  | Dec m e =>
      if m =? 0 then "0"
      else (if m <? 0 then "-" else "") +:+ render_positive (Z.abs m) e
  end.

(** *** [StringToNumber] *)

Definition is_hex_digit (c : ascii) : bool :=
  let n := nat_of_ascii c in
  Str.is_digit c
  || ((97 <=? n)%nat && (n <=? 102)%nat)
  || ((65 <=? n)%nat && (n <=? 70)%nat).

Definition hex_digit_val (c : ascii) : Z :=
  let n := Z.of_nat (nat_of_ascii c) in
  if Str.is_digit c then n - 48
  else if 97 <=? n then n - 87
  else n - 55.

Definition radix_val (radix : Z) (s : string) : Z :=
  let fix go (s : string) (acc : Z) : Z :=
    match s with
    | EmptyString => acc
    | String c r => go r (radix * acc + hex_digit_val c)
    end in
  go s 0.

(** [0x..], [0o..] and [0b..] literals: at least one digit, all of them
    digits of the radix. *)
Definition parse_radix (radix : Z) (s : string) : number :=
  if Str.truthy s
     && Str.forallb (fun c => is_hex_digit c && (hex_digit_val c <? radix)) s
  then Dec (radix_val radix s) 0
  else NaN.

Definition split_sign (s : string) : Z * string :=
  match s with
  | String "+" r => (1, r)
  | String "-" r => (-1, r)
  | _ => (1, s)
  end.

(** [StrDecimalLiteral] after its sign: digits, an optional fraction, an
    optional exponent, and at least one digit before the exponent. *)
Definition parse_unsigned_decimal (sign : Z) (u : string) : number :=
  let ip := Str.take_while Str.is_digit u in
  let r1 := Str.drop_while Str.is_digit u in
  let '(fp, r2) :=
    match r1 with
    | String "." r => (Str.take_while Str.is_digit r,
                       Str.drop_while Str.is_digit r)
    | _ => (EmptyString, r1)
    end in
  if negb (Str.truthy ip) && negb (Str.truthy fp) then NaN
  else
    let m := sign * Str.digits_val (ip +:+ fp) in
    let scale := - Z.of_nat (String.length fp) in
    match r2 with
    | EmptyString => Dec m scale
    | String c r3 =>
        if Ascii.eqb c "e" || Ascii.eqb c "E" then
          let '(es, r4) := split_sign r3 in
          if Str.truthy r4 && Str.forallb Str.is_digit r4
          then Dec m (scale + es * Str.digits_val r4)
          else NaN
        else NaN
    end.

(** [Number(s)] for a string [s]. *)
Definition string_to_number (s : string) : number :=
  let t := Str.trim s in
  match t with
  | EmptyString => Dec 0 0
  | String "0" (String "x" r) | String "0" (String "X" r) => parse_radix 16 r
  | String "0" (String "o" r) | String "0" (String "O" r) => parse_radix 8 r
  | String "0" (String "b" r) | String "0" (String "B" r) => parse_radix 2 r
  | _ =>
      let '(sign, u) := split_sign t in
      if String.eqb u "Infinity" then (if sign <? 0 then NegInf else PosInf)
      else parse_unsigned_decimal sign u
  end.

(** ** Values *)

(** The values a parsed JSON document, a rule or a step output can be.
    The fields of an object are kept in property order.  [VNative name]
    is a built-in object or function of the engine, such as the function
    [Object] that a plain object has as its [constructor]; the name tells
    the built-ins apart. *)
#[warnings="-register-all"]
Inductive any :=
| VUndefined
| VNull
| VBool (b : bool)
| VNum (n : number)
| VStr (s : string)
| VArr (items : list any)
| VObj (fields : list (string * any))
| VNative (name : string).

(** The two kinds of value a rule can hold: [z.union([z.string(), z.number()])]. *)
Inductive scalar :=
| SStr (s : string)
| SNum (n : number).

Definition scalar_value (t : scalar) : any :=
  match t with SStr s => VStr s | SNum n => VNum n end.

Definition is_nullish (v : any) : bool :=
  match v with VUndefined | VNull => true | _ => false end.

Definition bool_to_number (b : bool) : number := if b then Dec 1 0 else Dec 0 0.

(** ** Exceptions *)

(** What a [throw] carries: an [Error] object (its [name] and [message]) or
    any other value. *)
Inductive thrown :=
| ErrorObject (name message : string)
| ThrownValue (v : any).

Definition Error (message : string) : thrown := ErrorObject "Error" message.

(** The outcome of code that may throw. *)
Inductive completion (A : Type) :=
| Normal (a : A)
| Throw (e : thrown).
Arguments Normal {A} a.
Arguments Throw {A} e.

(** Truthiness: everything but [undefined], [null], [false], zero, [NaN]
    and the empty string. *)
Definition truthy (v : any) : bool :=
  match v with
  | VUndefined | VNull => false
  | VBool b => b
  | VNum n => num_truthy n
  | VStr s => Str.truthy s
  | VArr _ | VObj _ | VNative _ => true
  end.

(** The name under which an object shows its prototype. *)
Definition proto : string := "__proto__".

(** ** The built-in objects *)

(** What a value inherits depends on what it is: a plain object, an
    array, a string, a number, a boolean or a built-in. *)
Inductive kind :=
| OfObject
| OfArray
| OfString
| OfNumber
| OfBoolean
| OfNative (name : string).

(** The built-in objects of the engine, which the sources reach and do
    not define. *)
Class Builtins := {
  (** [v[key]] for a [v] of this kind that has no own property [key]: the
      member of that name on the prototype chain of [v], [undefined] when
      there is none.  For a built-in, any of its properties. *)
  inherited : kind -> string -> any;
  (** [String(b)] for the built-in [b] *)
  native_text : string -> string;
  (** [Number(b)] *)
  native_number : string -> number;
  (** [typeof b === "object"]; a built-in that is no object is a function *)
  native_is_object : string -> bool;
  (** [JSON.stringify(b)], [None] for the result [undefined] *)
  native_json : string -> option string;
  (** [b == t] *)
  native_loose_eq : string -> scalar -> bool;
  (** the [TypeError] of a call of [callee], which is no function *)
  not_a_function : string -> thrown;
  (** every object inherits [__proto__], and what it reads there is an
      object *)
  inherits_proto : truthy (inherited OfObject proto) = true
}.

(** What [obj[key]] finds in a dictionary [obj] of the stored state, a
    plain object whose own properties are the entries of a map: an entry
    of the map, or else a truthy member that every object inherits under
    that name, or else nothing that counts: [undefined] or another falsy
    value. *)
Inductive Found (A : Type) :=
| Own (a : A)
| Inherited (member : any)
| Absent.
Arguments Own {A} a.
Arguments Inherited {A} member.
Arguments Absent {A}.

Section Conversions.
Context `{Builtins}.

(** [typeof v === "object"]. *)
Definition typeof_object (v : any) : bool :=
  match v with
  | VNull | VArr _ | VObj _ => true
  | VNative b => native_is_object b
  | _ => false
  end.

(** [typeof v === "function"]. *)
Definition typeof_function (v : any) : bool :=
  match v with
  | VNative b => negb (native_is_object b)
  | _ => false
  end.

(** [String(v)]. *)
Fixpoint to_string (v : any) : string :=
  match v with
  | VUndefined => "undefined"
  | VNull => "null"
  | VBool b => if b then "true" else "false"
  | VNum n => num_to_string n
  | VStr s => s
  | VArr items =>
      Str.join ","
        (List.map (fun x => if is_nullish x then EmptyString else to_string x)
           items)
  | VObj _ => "[object Object]"
  | VNative b => native_text b
  end.

(** [Number(v)].  Arrays and objects go through their string form. *)
Definition to_number (v : any) : number :=
  match v with
  | VUndefined => NaN
  | VNull => Dec 0 0
  | VBool b => bool_to_number b
  | VNum n => n
  | VStr s => string_to_number s
  | VArr _ | VObj _ => string_to_number (to_string v)
  | VNative b => native_number b
  end.

(** [x == t] for a string or number [t] (IsLooselyEqual). *)
Definition loose_eq (x : any) (t : scalar) : bool :=
  match x, t with
  | VNum a, SNum b => num_eqb a b
  | VStr a, SStr b => String.eqb a b
  | VNum a, SStr b => num_eqb a (string_to_number b)
  | VStr a, SNum b => num_eqb (string_to_number a) b
  | VBool c, SNum b => num_eqb (bool_to_number c) b
  | VBool c, SStr b => num_eqb (bool_to_number c) (string_to_number b)
  | (VArr _ | VObj _), SStr b => String.eqb (to_string x) b
  | (VArr _ | VObj _), SNum b => num_eqb (string_to_number (to_string x)) b
  | VNative a, _ => native_loose_eq a t
  | (VUndefined | VNull), _ => false
  end.

(** *** Property access *)

(** A canonical array index: the decimal form of an integer below
    [2^32 - 1], without leading zeros. *)
Definition array_index (key : string) : option nat :=
  if Str.truthy key && Str.forallb Str.is_digit key then
    let n := Str.digits_val key in
    if String.eqb (Str.of_N (Z.to_N n)) key && (n <? 4294967295)
    then Some (Z.to_nat n) else None
  else None.

Fixpoint assoc {A : Type} (key : string) (fields : list (string * A)) : option A :=
  match fields with
  | [] => None
  | (k, x) :: rest => if String.eqb k key then Some x else assoc key rest
  end.

Definition option_value (o : option any) : any :=
  match o with Some v => v | None => VUndefined end.

(** What a value inherits from. *)
Definition kind_of (v : any) : kind :=
  match v with
  | VArr _ => OfArray
  | VStr _ => OfString
  | VNum _ => OfNumber
  | VBool _ => OfBoolean
  | VNative b => OfNative b
  | _ => OfObject
  end.

(** The own property [key] of [v], when it has one: a field of an
    object, the length or an element of an array, the length or a
    character of a string. *)
Definition own_prop (v : any) (key : string) : option any :=
  match v with
  | VObj fields => assoc key fields
  | VArr items =>
      if String.eqb key "length" then Some (VNum (of_Z (Z.of_nat (length items))))
      else match array_index key with
           | Some i => nth_error items i
           | None => None
           end
  | VStr s =>
      if String.eqb key "length" then Some (VNum (of_Z (Z.of_nat (String.length s))))
      else match array_index key with
           | Some i => match String.get i s with
                       | Some c => Some (VStr (String c EmptyString))
                       | None => None
                       end
           | None => None
           end
  | _ => None
  end.

(** [v[key]] for a [v] that is neither [null] nor [undefined]: the own
    property, or else what the prototype chain holds under that name. *)
Definition get_prop (v : any) (key : string) : any :=
  match own_prop v key with
  | Some x => x
  | None => if is_nullish v then VUndefined else inherited (kind_of v) key
  end.

(** [obj[key] = x] on the fields of an object: an existing property keeps
    its place; a new one goes after the index-like keys below it when it
    is index-like, and to the end otherwise. *)
Fixpoint set_field (key : string) (x : any) (fields : list (string * any))
  : list (string * any) :=
  match fields with
  | [] => [(key, x)]
  | (k, y) :: rest =>
      if String.eqb k key then (k, x) :: rest
      else if match assoc key rest with Some _ => false | None => true end
              && match array_index key, array_index k with
                 | Some i, Some j => (i <? j)%nat
                 | Some _, None => true
                 | None, _ => false
                 end
           then (key, x) :: (k, y) :: rest
           else (k, y) :: set_field key x rest
  end.

(** [obj[key] = x] for an object with these fields and the prototype it
    was created with.  An assignment to [__proto__] that finds no own
    property of that name goes to the setter every object inherits: it
    adds no field. *)
Definition set_prop (key : string) (x : any) (fields : list (string * any))
  : list (string * any) :=
  if String.eqb key proto
     && match assoc key fields with Some _ => false | None => true end
  then fields
  else set_field key x fields.

(** ** Dictionaries *)

(** No object inherits a member that counts under this name: a dictionary
    reads it as an own property or as nothing. *)
Definition plain (key : string) : bool := negb (truthy (inherited OfObject key)).

(** A call [member.method(...)] on a member that a dictionary inherited:
    the exception when [member.method] is no function, [None] when it is a
    built-in function, whose effect the model does not have. *)
Definition call_on (member : any) (method callee : string) : option thrown :=
  if typeof_function (get_prop member method) then None
  else Some (not_a_function callee).

(** [obj[key]] for a dictionary of the stored state. *)
Definition property {A : Type} (obj : gmap string A) (key : string) : Found A :=
  match obj !! key with
  | Some a => Own a
  | None =>
      if truthy (inherited OfObject key) then Inherited (inherited OfObject key)
      else Absent
  end.

(** [obj[key]] for the dictionary [results] of a run.  Its map holds the
    own properties and, under [__proto__], the object that an assignment
    to [obj.__proto__] has put in the place of its prototype. *)
Definition read (obj : gmap string any) (key : string) : any :=
  match obj !! key with
  | Some v => if String.eqb key proto && is_nullish v then VUndefined else v
  | None =>
      match obj !! proto with
      | Some p => if is_nullish p then VUndefined else get_prop p key
      | None => inherited OfObject key
      end
  end.

(** [obj[key] = v] for the same dictionary.  The setter behind
    [__proto__] takes an object or [null] and ignores everything else.
    (The sources assign objects only; a dictionary that lost its prototype
    to [null] would get an own property from the next assignment, which
    the map does not tell apart.) *)
Definition assign (key : string) (v : any) (obj : gmap string any)
  : gmap string any :=
  if String.eqb key proto
     && match v with
        | VNull | VArr _ | VObj _ | VNative _ => false
        | _ => true
        end
  then obj
  else <[key := v]> obj.

(** *** [JSON.stringify] *)

Definition dquote : string := String "034" EmptyString.

Definition hex_char (n : nat) : ascii :=
  if (n <? 10)%nat then ascii_of_nat (48 + n) else ascii_of_nat (87 + n).

Definition json_escape_char (c : ascii) : string :=
  let n := nat_of_ascii c in
  if (n =? 34)%nat then String "\" dquote
  else if (n =? 92)%nat then "\\"
  else if (n =? 8)%nat then "\b"
  else if (n =? 12)%nat then "\f"
  else if (n =? 10)%nat then "\n"
  else if (n =? 13)%nat then "\r"
  else if (n =? 9)%nat then "\t"
  else if (n <? 32)%nat then
    "\u00" +:+ String (hex_char (n / 16)) (String (hex_char (n mod 16)) EmptyString)
  else String c EmptyString.

Fixpoint json_escape (s : string) : string :=
  match s with
  | EmptyString => EmptyString
  | String c r => json_escape_char c +:+ json_escape r
  end.

Definition json_quote (s : string) : string :=
  dquote +:+ json_escape s +:+ dquote.

Definition json_number (n : number) : string :=
  match n with
  | Dec _ _ => num_to_string n
  | _ => "null"
  end.

(** [JSON.stringify(v)]; [None] stands for the result [undefined].  An
    [undefined] array element is written [null], an [undefined] property is
    left out. *)
Fixpoint stringify (v : any) : option string :=
  match v with
  | VUndefined => None
  | VNull => Some "null"
  | VBool b => Some (if b then "true" else "false")
  | VNum n => Some (json_number n)
  | VStr s => Some (json_quote s)
  | VArr items =>
      Some ("[" +:+
            Str.join ","
              (List.map (fun x => match stringify x with
                                  | Some j => j
                                  | None => "null"
                                  end) items)
            +:+ "]")
  | VObj fields =>
      Some ("{" +:+
            Str.join ","
              (List.flat_map
                 (fun kx => match stringify (snd kx) with
                            | Some j => [json_quote (fst kx) +:+ ":" +:+ j]
                            | None => []
                            end) fields)
            +:+ "}")
  | VNative b => native_json b
  end.

(** [error instanceof Error ? error.message : String(error ?? "Unknown")]. *)
Definition error_message (e : thrown) : string :=
  match e with
  | ErrorObject _ message => message
  | ThrownValue v => if is_nullish v then "Unknown" else to_string v
  end.

(** The template-literal rendering [`${err}`] of a caught exception. *)
Definition thrown_to_string (e : thrown) : string :=
  match e with
  | ErrorObject name message =>
      if negb (Str.truthy name) then message
      else if negb (Str.truthy message) then name
      else name +:+ ": " +:+ message
  | ThrownValue v => to_string v
  end.

End Conversions.

End JS.

(* ===================================================================== *)
(** * Template interpolation ([src/lib/template.ts]) *)
(* ===================================================================== *)

Module Template.
Import JS.

(** ** [String.prototype.replace] with [PLACEHOLDER_REGEX] and a callback *)

Definition not_close (c : ascii) : bool := negb (Ascii.eqb c "}").

(** A match of [/\$\{([^}]+)\}/] at the very start of [s]: the captured
    group and the text that follows the match. *)
Definition placeholder_at (s : string) : option (string * string) :=
  match s with
  | String "$" (String "{" t) =>
      let expr := Str.take_while not_close t in
      match Str.drop_while not_close t with
      | String "}" rest =>
          if Str.truthy expr then Some (expr, rest) else None
      | _ => None
      end
  | _ => None
  end.

Definition inspect {A : Type} (a : A) : {b : A | a = b} := exist _ a eq_refl.

(** [s.replace(PLACEHOLDER_REGEX, (_, expr) => f(expr))]: the matches are
    found from left to right, each search resuming after the previous
    match. *)
Equations? replace_placeholders (f : string -> string) (s : string) : string
  by wf (String.length s) lt :=
replace_placeholders f EmptyString := EmptyString;
replace_placeholders f (String c r) with inspect (placeholder_at (String c r)) => {
  | exist _ (Some (expr, rest)) Hm := f expr +:+ replace_placeholders f rest;
  | exist _ None _ := String c (replace_placeholders f r) }.
Proof.
  assert (Hdrop : forall t, (String.length (Str.drop_while not_close t)
                             <= String.length t)%nat).
  { induction t as [|a t IH]; simpl; [lia|].
    destruct (not_close a); simpl; lia. }
  unfold placeholder_at in Hm.
  destruct c as [[] [] [] [] [] [] [] []]; try discriminate.
  destruct r as [|c2 t]; try discriminate.
  destruct c2 as [[] [] [] [] [] [] [] []]; try discriminate.
  specialize (Hdrop t).
  destruct (Str.drop_while not_close t) as [|c3 r3]; try discriminate.
  destruct c3 as [[] [] [] [] [] [] [] []]; try discriminate.
  destruct (Str.truthy (Str.take_while not_close t)); try discriminate.
  injection Hm as _ <-. simpl in *. lia.
Qed.

(** ** [getDeepValue] *)

Section Interpolation.
Context `{Builtins}.

(** The loop of [getDeepValue] once [current] holds a value. *)
Fixpoint walk (current : any) (parts : list string) : any :=
  match parts with
  | [] => current
  | part :: rest =>
      if is_nullish current then VUndefined
      else walk (get_prop current part) rest
  end.

(** [getDeepValue(obj, path)] for the [results] dictionary.  (The step
    interpreter carries a copy of the same function.) *)
Definition getDeepValue (obj : gmap string any) (path : string) : any :=
  if negb (Str.truthy path) then VUndefined
  else match Str.split "." path with
       | [] => VUndefined
       | root :: parts => walk (read obj root) parts
       end.

(** ** [interpolateTemplate] *)

(** The callback handed to [replace]. *)
Definition render (results : gmap string any) (expr : string) : string :=
  let value := getDeepValue results (Str.trim expr) in
  if is_nullish value then "[missing " +:+ Str.trim expr +:+ "]"
  else if typeof_object value then
    match stringify value with
    | Some json => json
    | None => "undefined"
    end
  else to_string value.

Definition interpolateTemplate
    (template : option string) (results : gmap string any) : string :=
  match template with
  | None => EmptyString
  | Some t =>
      if negb (Str.truthy t) then EmptyString
      else replace_placeholders (render results) t
  end.

Definition interpolateJsonPayload
    (raw : string) (results : gmap string any) : string :=
  interpolateTemplate (Some raw) results.

End Interpolation.

End Template.

(* ===================================================================== *)
(** * Due-time decision ([src/lib/cron.ts]) *)
(* ===================================================================== *)

Module Cron.
Import JS.

(** A [Date]: its time value in milliseconds since the epoch, or
    [None] for an invalid date. *)
Definition Date := option Z.

(** [TimeClip]: a time value outside of +-8.64e15 ms makes an invalid
    date. *)
Definition time_clip (t : Z) : Date :=
  if Z.abs t <=? 8640000000000000 then Some t else None.

(** [new Date(d.getTime() - ms)]. *)
Definition date_minus (d : Date) (ms : Z) : Date :=
  match d with
  | Some t => time_clip (t - ms)
  | None => None
  end.

(** [a <= b] on dates compares the time values; an invalid date compares
    false with everything. *)
Definition date_leb (a b : Date) : bool :=
  match a, b with
  | Some x, Some y => x <=? y
  | _, _ => false
  end.

(** What [cron.ts] uses and does not define: the [Date] string parser of
    the language and the cron-parser package. *)
Class CronParser := {
  CronExpression : Type;
  (** [new Date(s)] *)
  Date_parse : string -> Date;
  (** [CronExpressionParser.parse(schedule, { currentDate, tz: "UTC" })] *)
  CronExpressionParser_parse : string -> Date -> completion CronExpression;
  (** [expression.next().toDate()] *)
  expression_next : CronExpression -> completion Date
}.

Section IsDue.
Context `{Builtins} `{CronParser}.

(** The reference date [refDate]: the last run when the string is truthy,
    one minute before [now] otherwise. *)
Definition refDate (lastRunAt : option string) (now : Date) : Date :=
  match lastRunAt with
  | Some s => if Str.truthy s then Date_parse s else date_minus now 60000
  | None => date_minus now 60000
  end.

(** The [try] block of [isDue]. *)
Definition isDue_try (schedule : string) (lastRunAt : option string)
    (now : Date) : completion bool :=
  match CronExpressionParser_parse schedule (refDate lastRunAt now) with
  | Throw err => Throw err
  | Normal expression =>
      match expression_next expression with
      | Throw err => Throw err
      | Normal nextRun => Normal (date_leb nextRun now)
      end
  end.

(** What [isDue] leaves behind: its result and the lines written with
    [console.warn]. *)
Record DueDecision := { due : bool; warnings : list string }.

Definition isDue (schedule : string) (lastRunAt : option string)
    (now : Date) : DueDecision :=
  match isDue_try schedule lastRunAt now with
  | Normal b => {| due := b; warnings := [] |}
  | Throw err =>
      {| due := false;
         warnings := ["[cron] Invalid expression " +:+ dquote +:+ schedule
                      +:+ dquote +:+ ": " +:+ thrown_to_string err] |}
  end.

End IsDue.
End Cron.

(* ===================================================================== *)
(** * The host platform *)
(* ===================================================================== *)

Module Platform.
Import JS.

(** The request handed to the global [fetch]; [req_timeout] is the delay
    after which the abort signal of the request fires, when it has one. *)
Record Request := {
  req_url : string;
  req_method : string;
  req_headers : list (string * string);
  req_body : option string;
  req_timeout : option number
}.

(** A response whose body has been read as text. *)
Record Response := {
  status : Z;
  resp_headers : list (string * string);
  resp_text : string
}.

(** [resp.ok] *)
Definition ok (r : Response) : bool := (200 <=? status r) && (status r <=? 299).

(** The pure built-ins the sources call and do not define. *)
Class Host := {
  host_builtins :: Builtins;
  (** [JSON.parse(text)] *)
  JSON_parse : string -> completion any;
  (** the test behind zod's [z.string().url()] *)
  is_url : string -> bool;
  (** [new URL(url).pathname] *)
  URL_pathname : string -> completion string
}.

(** The effects, over a state [World] of the outside world.  An abort of a
    request is the rejection of [http_fetch] with an [Error] named
    [AbortError]. *)
Class Runtime (World : Type) := {
  (** [new Date().toISOString()] *)
  now_iso : World -> string * World;
  (** [await fetch(url, init)] and [await resp.text()] *)
  http_fetch : Request -> World -> completion Response * World;
  (** [await new Promise((resolve) => setTimeout(resolve, ms))] *)
  set_timeout : number -> World -> World;
  (** [crypto.randomUUID()] *)
  randomUUID : World -> string * World
}.

End Platform.

(* ===================================================================== *)
(** * Flow definitions ([src/schemas/FlowConfig.ts]) *)
(* ===================================================================== *)

Module Schema.
Import JS Platform.

Inductive HttpMethod := GET | POST | PUT | DELETE | PATCH.

Definition method_name (m : HttpMethod) : string :=
  match m with
  | GET => "GET" | POST => "POST" | PUT => "PUT"
  | DELETE => "DELETE" | PATCH => "PATCH"
  end.

Inductive Operator := OpEq | OpNe | OpLt | OpGt | OpLe | OpGe.

Definition operator_name (o : Operator) : string :=
  match o with
  | OpEq => "=" | OpNe => "!=" | OpLt => "<"
  | OpGt => ">" | OpLe => "<=" | OpGe => ">="
  end.

Record ConditionRule := {
  input : string;
  operator : Operator;
  value : scalar
}.

Inductive LogicMode := AND | OR.

Definition logic_name (m : LogicMode) : string :=
  match m with AND => "AND" | OR => "OR" end.

Inductive NotifyMethod := slack | discord | teams | webhook.

Definition notify_name (m : NotifyMethod) : string :=
  match m with
  | slack => "slack" | discord => "discord"
  | teams => "teams" | webhook => "webhook"
  end.

Record FetchStep := {
  fetch_id : string;
  fetch_url : string;
  fetch_method : option HttpMethod;
  fetch_headers : option (list (string * string));
  fetch_body : option string;
  fetch_timeout_ms : option number
}.

Record LogicStep := {
  logic_mode : LogicMode;
  logic_conditions : list ConditionRule
}.

Record LogStep := {
  log_message : string;
  log_include : option (list string)
}.

Record NotifyStep := {
  notify_method : NotifyMethod;
  notify_url : string;
  notify_message : option string;
  notify_rawPayload : option string;
  notify_include : option (list string)
}.

(** The discriminated union [StepSchema]. *)
Inductive Step :=
| StepFetch (s : FetchStep)
| StepCondition (r : ConditionRule)
| StepLogic (l : LogicStep)
| StepDelay (duration : string)
| StepLog (l : LogStep)
| StepNotify (n : NotifyStep).

(** [step.type] *)
Definition step_type (s : Step) : string :=
  match s with
  | StepFetch _ => "fetch"
  | StepCondition _ => "condition"
  | StepLogic _ => "logic"
  | StepDelay _ => "delay"
  | StepLog _ => "log"
  | StepNotify _ => "notify"
  end.

Record FlowConfig := {
  name : string;
  schedule : string;
  enabled : option bool;
  steps : list Step
}.

Record FlowRecord := {
  flow_name : string;
  flow_schedule : string;
  flow_enabled : option bool;
  flow_steps : list Step;
  id : string;
  createdAt : string;
  updatedAt : string;
  lastRunAt : option string
}.

(** ** Validation *)

(** An issue of a failed parse: where, and the message. *)
Record Issue := { issue_index : nat; issue_field : string; issue_message : string }.

(** Truthiness of an optional string followed by a [trim]:
    [!s || !s.trim()] is the negation of this. *)
Definition has_text (s : option string) : bool :=
  match s with
  | Some t => Str.truthy t && Str.truthy (Str.trim t)
  | None => false
  end.

(** [validateNotifySteps]: the loop body at [index], with the set of fetch
    ids seen so far. *)
Fixpoint validateNotifySteps_from (index : nat) (fetchIds : gset string)
    (steps : list Step) : list Issue :=
  match steps with
  | [] => []
  | step :: rest =>
      match step with
      | StepFetch f =>
          if decide (fetch_id f ∈ fetchIds) then
            {| issue_index := index; issue_field := "id";
               issue_message :=
                 "Duplicate fetch id " +:+ dquote +:+ fetch_id f +:+ dquote
                 +:+ ". Each fetch step must have a unique id." |}
            :: validateNotifySteps_from (S index) fetchIds rest
          else
            validateNotifySteps_from (S index) ({[fetch_id f]} ∪ fetchIds) rest
      | StepNotify n =>
          match notify_method n with
          | webhook =>
              if negb (has_text (notify_rawPayload n)) then
                {| issue_index := index; issue_field := "rawPayload";
                   issue_message :=
                     "rawPayload is required for webhook notifications" |}
                :: validateNotifySteps_from (S index) fetchIds rest
              else validateNotifySteps_from (S index) fetchIds rest
          | _ =>
              if negb (has_text (notify_message n)) then
                {| issue_index := index; issue_field := "message";
                   issue_message :=
                     "message is required for slack, discord, and teams notifications" |}
                :: validateNotifySteps_from (S index) fetchIds rest
              else validateNotifySteps_from (S index) fetchIds rest
          end
      | _ => validateNotifySteps_from (S index) fetchIds rest
      end
  end.

Definition validateNotifySteps (steps : list Step) : list Issue :=
  validateNotifySteps_from 0 ∅ steps.

Section Parse.
Context `{Host}.

(** The checks of [StepSchema] on one step: a fetch id has at least one
    character, a notify url is a url. *)
Definition step_issues (index : nat) (step : Step) : list Issue :=
  match step with
  | StepFetch f =>
      if Str.truthy (fetch_id f) then []
      else [{| issue_index := index; issue_field := "id";
               issue_message := "FETCH steps require a unique id" |}]
  | StepNotify n =>
      if is_url (notify_url n) then []
      else [{| issue_index := index; issue_field := "url";
               issue_message := "Invalid url" |}]
  | _ => []
  end.

Fixpoint steps_issues_from (index : nat) (steps : list Step) : list Issue :=
  match steps with
  | [] => []
  | step :: rest => step_issues index step ++ steps_issues_from (S index) rest
  end.

(** The defaults [StepSchema] fills in: the method of a fetch step. *)
Definition step_defaults (step : Step) : Step :=
  match step with
  | StepFetch f =>
      StepFetch {| fetch_id := fetch_id f; fetch_url := fetch_url f;
                   fetch_method := Some (default GET (fetch_method f));
                   fetch_headers := fetch_headers f;
                   fetch_body := fetch_body f;
                   fetch_timeout_ms := fetch_timeout_ms f |}
  | _ => step
  end.

(** The message of the [ZodError] thrown for a list of issues; of zod's
    rendering only the messages are kept. *)
Definition ZodError (issues : list Issue) : thrown :=
  ErrorObject "ZodError" (Str.join "; " (List.map issue_message issues)).

(** [FlowConfigSchema.parse(payload)] on a payload of the right shape. *)
Definition FlowConfigSchema_parse (payload : FlowConfig) : completion FlowConfig :=
  match steps_issues_from 0 (steps payload) ++ validateNotifySteps (steps payload) with
  | [] =>
      Normal {| name := name payload;
                schedule := schedule payload;
                enabled := Some (default true (enabled payload));
                steps := List.map step_defaults (steps payload) |}
  | issues => Throw (ZodError issues)
  end.

End Parse.
End Schema.

(* ===================================================================== *)
(** * The step interpreter ([src/lib/stepExecutor.ts]) *)
(* ===================================================================== *)

Module Steps.
Import JS Platform Schema.

(** The context of a run.  [results] holds the own properties of
    [context.results] and, under [__proto__], the object that took the
    place of its prototype, if one did (see [JS.read]). *)
Record ExecContext := {
  results : gmap string any;
  logs : list string
}.

Record StepExecutionResult := {
  stepId : string;
  output : option any;
  error : option string;
  timestamp : string
}.

Record ExecutionOutcome := {
  success : bool;
  stepResults : list StepExecutionResult
}.

(** ** Rules *)

(** [evaluateRule(rule, context)] *)
Definition evaluateRule `{Builtins} (rule : ConditionRule) (context : ExecContext)
  : bool :=
  let value := Template.getDeepValue (results context) (input rule) in
  let target := Schema.value rule in
  let numValue := to_number value in
  let numTarget := to_number (scalar_value target) in
  let isNumeric := negb (isNaN numValue) && negb (isNaN numTarget) in
  match operator rule with
  | OpEq => loose_eq value target
  | OpNe => negb (loose_eq value target)
  | OpLt =>
      if isNumeric then num_ltb numValue numTarget
      else String.ltb (to_string value) (to_string (scalar_value target))
  | OpGt =>
      if isNumeric then num_gtb numValue numTarget
      else String.ltb (to_string (scalar_value target)) (to_string value)
  | OpLe =>
      if isNumeric then num_leb numValue numTarget
      else String.leb (to_string value) (to_string (scalar_value target))
  | OpGe =>
      if isNumeric then num_geb numValue numTarget
      else String.leb (to_string (scalar_value target)) (to_string value)
  end.

(** ** Durations *)

(** [parseDuration(duration)]: the match of [/^(\d+)(ms|s|m|h)$/], and
    [Number(match[1])] times the factor of the unit. *)
Definition parseDuration (duration : string) : completion number :=
  let digits := Str.take_while Str.is_digit duration in
  let unit := Str.drop_while Str.is_digit duration in
  let value := Str.digits_val digits in
  let invalid :=
    Throw (Error ("Invalid duration format " +:+ dquote +:+ duration +:+ dquote)) in
  if negb (Str.truthy digits) then invalid
  else if String.eqb unit "ms" then Normal (binary64_of_Z value)
  else if String.eqb unit "s" then Normal (binary64_product value 1000)
  else if String.eqb unit "m" then Normal (binary64_product value 60000)
  else if String.eqb unit "h" then Normal (binary64_product value 3600000)
  else invalid.

(** ** Headers *)

(** [new Headers(init)]: names are kept in lower case. *)
Definition Headers_new (init : list (string * string)) : list (string * string) :=
  List.map (fun kv => (Str.toLowerCase (fst kv), snd kv)) init.

(** [headers.has(name)] *)
Definition Headers_has (name : string) (headers : list (string * string)) : bool :=
  existsb (fun kv => String.eqb (fst kv) (Str.toLowerCase name)) headers.

(** [headers.set(name, value)] *)
Definition Headers_set (name value : string) (headers : list (string * string))
  : list (string * string) :=
  List.filter (fun kv => negb (String.eqb (fst kv) (Str.toLowerCase name))) headers
  ++ [(Str.toLowerCase name, value)].

Definition starts_with (c : ascii) (s : string) : bool :=
  match s with
  | String d _ => Ascii.eqb c d
  | EmptyString => false
  end.

(** The text of an optional value inside a template literal. *)
Definition show_option {A : Type} (show : A -> string) (o : option A) : string :=
  match o with Some a => show a | None => "undefined" end.

Definition show_Z (z : Z) : string := num_to_string (of_Z z).

Section Interpreter.
Context {World : Type} `{Runtime World} `{Host}.

(** ** The monad of the interpreter

    A computation reads and updates the run's context and the world, and
    ends normally or by throwing; whatever it wrote before throwing
    stays written. *)
Definition M (A : Type) : Type :=
  ExecContext -> World -> completion A * ExecContext * World.

Definition ret {A : Type} (a : A) : M A := fun c w => (Normal a, c, w).

Definition throw {A : Type} (e : thrown) : M A := fun c w => (Throw e, c, w).

Definition bind {A B : Type} (m : M A) (k : A -> M B) : M B :=
  fun c w =>
    match m c w with
    | (Normal a, c', w') => k a c' w'
    | (Throw e, c', w') => (Throw e, c', w')
    end.

Definition try_catch {A : Type} (m : M A) (handler : thrown -> M A) : M A :=
  fun c w =>
    match m c w with
    | (Normal a, c', w') => (Normal a, c', w')
    | (Throw e, c', w') => handler e c' w'
    end.

Definition lift {A : Type} (r : completion A) : M A := fun c w => (r, c, w).

Definition get_context : M ExecContext := fun c w => (Normal c, c, w).

(** [context.logs.push(line)] *)
Definition push_log (line : string) : M unit :=
  fun c w => (Normal tt, {| results := results c; logs := logs c ++ [line] |}, w).

(** [context.results[key] = v] *)
Definition set_result (key : string) (v : any) : M unit :=
  fun c w => (Normal tt, {| results := assign key v (results c); logs := logs c |}, w).

(** [timestamp()] *)
Definition now : M string :=
  fun c w => let '(t, w') := now_iso w in (Normal t, c, w').

Definition fetch_call (request : Request) : M Response :=
  fun c w => let '(r, w') := http_fetch request w in (r, c, w').

Definition wait (ms : number) : M unit :=
  fun c w => (Normal tt, c, set_timeout ms w).

Local Notation "'let*' x ':=' m 'in' k" := (bind m (fun x => k))
  (at level 10, x name, m at level 100, k at level 200).
Local Notation "m ';;' k" := (bind m (fun _ => k))
  (at level 100, k at level 200, right associativity).

(** ** Steps *)

(** The request of a fetch step: the [Content-Type] is set for a body that
    looks like JSON when no such header was given, and the abort timer is
    armed when [timeout_ms] is truthy. *)
Definition fetch_request (step : FetchStep) : Request :=
  let headers := Headers_new (default [] (fetch_headers step)) in
  let headers :=
    match fetch_body step with
    | Some body =>
        if Str.truthy body && negb (Headers_has "Content-Type" headers)
           && (starts_with "{" (Str.trim body) || starts_with "[" (Str.trim body))
        then Headers_set "Content-Type" "application/json" headers
        else headers
    | None => headers
    end in
  {| req_url := fetch_url step;
     req_method := method_name (default GET (fetch_method step));
     req_headers := headers;
     req_body := fetch_body step;
     req_timeout :=
       match fetch_timeout_ms step with
       | Some t => if num_truthy t then Some t else None
       | None => None
       end |}.

(** [err instanceof Error && err.name === 'AbortError'] *)
Definition is_abort (err : thrown) : bool :=
  match err with
  | ErrorObject name _ => String.eqb name "AbortError"
  | ThrownValue _ => false
  end.

Definition timeout_message (step : FetchStep) : string :=
  "Request timed out after "
  +:+ show_option num_to_string (fetch_timeout_ms step) +:+ "ms".

(** The captured [{ status, headers, body }]. *)
Definition fetch_output (resp : Response) : any :=
  let parsed :=
    match JSON_parse (resp_text resp) with
    | Normal v => v
    | Throw _ => VStr (resp_text resp)
    end in
  let headersObj :=
    fold_left (fun obj kv => set_prop (fst kv) (VStr (snd kv)) obj)
      (resp_headers resp) [] in
  VObj [("status", VNum (of_Z (status resp)));
        ("headers", VObj headersObj);
        ("body", parsed)].

(** [executeFetch(step, context)] *)
Definition executeFetch (step : FetchStep) : M any :=
  try_catch
    (let* resp := fetch_call (fetch_request step) in
     push_log ("[fetch:" +:+ fetch_id step +:+ "] "
               +:+ show_option method_name (fetch_method step) +:+ " "
               +:+ fetch_url step +:+ " -> " +:+ show_Z (status resp)) ;;
     ret (fetch_output resp))
    (fun err =>
       if is_abort err then throw (Error (timeout_message step))
       else throw err).

Definition show_bool (b : bool) : string := if b then "true" else "false".

(** [executeCondition(step, context)] *)
Definition executeCondition (step : ConditionRule) : M bool :=
  let* context := get_context in
  let result := evaluateRule step context in
  push_log ("[condition] " +:+ input step +:+ " " +:+ operator_name (operator step)
            +:+ " " +:+ to_string (scalar_value (Schema.value step))
            +:+ " -> " +:+ show_bool result) ;;
  ret result.

(** [executeLogic(step, context)] *)
Definition executeLogic (step : LogicStep) : M bool :=
  let* context := get_context in
  let evaluations :=
    List.map (fun condition => evaluateRule condition context)
      (logic_conditions step) in
  let result :=
    match logic_mode step with
    | AND => List.forallb (fun b => b) evaluations
    | OR => List.existsb (fun b => b) evaluations
    end in
  push_log ("[logic] " +:+ Str.of_nat (length (logic_conditions step))
            +:+ " conditions (" +:+ logic_name (logic_mode step) +:+ ") -> "
            +:+ show_bool result) ;;
  ret result.

(** [executeDelay(step)] *)
Definition executeDelay (duration : string) : M bool :=
  let* ms := lift (parseDuration duration) in
  wait ms ;;
  ret true.

(** [executeLog(step, context)] *)
Definition executeLog (step : LogStep) : M bool :=
  let* context := get_context in
  let baseMessage :=
    Template.interpolateTemplate (Some (log_message step)) (results context) in
  let included :=
    option_map
      (fun keys =>
         fold_left
           (fun acc key => set_prop key (read (results context) key) acc)
           keys [])
      (log_include step) in
  let message :=
    match included with
    | Some (_ :: _ as fields) =>
        baseMessage +:+ " " +:+ show_option (fun j => j) (stringify (VObj fields))
    | _ => baseMessage
    end in
  push_log ("[log] " +:+ message) ;;
  ret true.

(** The body posted by a notify step; a webhook payload that is not JSON
    is an error. *)
Definition notify_payload (step : NotifyStep) (context : ExecContext)
  : completion any :=
  let interpolatedMessage :=
    Template.interpolateTemplate (Some (default EmptyString (notify_message step)))
      (results context) in
  match notify_method step with
  | slack | teams => Normal (VObj [("text", VStr interpolatedMessage)])
  | discord => Normal (VObj [("content", VStr interpolatedMessage)])
  | webhook =>
      match notify_rawPayload step with
      | Some rawPayload =>
          if Str.truthy rawPayload then
            match JSON_parse (Template.interpolateJsonPayload rawPayload
                                (results context)) with
            | Normal payload => Normal payload
            | Throw err =>
                Throw (Error ("Invalid webhook payload JSON: "
                              +:+ match err with
                                  | ErrorObject _ message => message
                                  | ThrownValue v => to_string v
                                  end))
            end
          else Normal (VObj [("message", VStr interpolatedMessage)])
      | None => Normal (VObj [("message", VStr interpolatedMessage)])
      end
  end.

(** [executeNotify(step, context)] *)
Definition executeNotify (step : NotifyStep) : M bool :=
  let* context := get_context in
  let* payload := lift (notify_payload step context) in
  let* resp :=
    fetch_call {| req_url := notify_url step;
                  req_method := "POST";
                  req_headers := [("Content-Type", "application/json")];
                  req_body := stringify payload;
                  req_timeout := None |} in
  push_log ("[notify:" +:+ notify_name (notify_method step) +:+ "] status="
            +:+ show_Z (status resp)) ;;
  if ok resp then ret true
  else throw (Error ("Notify request failed (" +:+ show_Z (status resp) +:+ "): "
                     +:+ Str.take 100 (resp_text resp))).

(** ** The loop *)

(** ["id" in step ? step.id : step.type] *)
Definition step_id (step : Step) : string :=
  match step with
  | StepFetch f => fetch_id f
  | _ => step_type step
  end.

(** How the [try] block of one iteration ends: by falling out of the
    [switch] with an [output], or by the [return] of a false condition or
    logic step, which has already logged and recorded its result. *)
Inductive TryOutcome :=
| Output (output : any)
| Halted (entry : StepExecutionResult).

Definition halt (line stepId : string) : M TryOutcome :=
  push_log line ;;
  let* t := now in
  ret (Halted {| stepId := stepId; output := Some (VBool false);
                 error := None; timestamp := t |}).

(** The [switch] of [executeSteps]. *)
Definition dispatch (step : Step) : M TryOutcome :=
  match step with
  | StepFetch f =>
      let* output := executeFetch f in ret (Output output)
  | StepCondition r =>
      let* output := executeCondition r in
      if negb output then
        halt ("[condition:" +:+ input r +:+ "] Evaluated false, stopping execution.")
          "condition"
      else ret (Output (VBool output))
  | StepLogic l =>
      let* output := executeLogic l in
      if negb output then
        halt "[logic] Evaluated false, stopping execution." "logic"
      else ret (Output (VBool output))
  | StepDelay duration =>
      let* output := executeDelay duration in ret (Output (VBool output))
  | StepLog l =>
      let* output := executeLog l in ret (Output (VBool output))
  | StepNotify n =>
      let* output := executeNotify n in ret (Output (VBool output))
  end.

(** [if (step.type === "fetch") context.results[step.id] = output] *)
Definition store_output (step : Step) (output : any) : M unit :=
  match step with
  | StepFetch f => set_result (fetch_id f) output
  | _ => ret tt
  end.

(** What one iteration of the loop tells the loop: go on with one more
    result, or return. *)
Inductive Iteration :=
| Next (entry : StepExecutionResult)
| Return (success : bool) (entry : StepExecutionResult).

(** The body of the [for] loop: the [try] block and its [catch]. *)
Definition iteration (step : Step) : M Iteration :=
  try_catch
    (let* r := dispatch step in
     match r with
     | Halted entry => ret (Return true entry)
     | Output output =>
         store_output step output ;;
         let* t := now in
         ret (Next {| stepId := step_id step; output := Some output;
                      error := None; timestamp := t |})
     end)
    (fun error =>
       let message := error_message error in
       push_log ("[" +:+ step_type step +:+ "] Error: " +:+ message) ;;
       let* t := now in
       ret (Return false {| stepId := step_id step; output := None;
                            error := Some message; timestamp := t |})).

(** The [for] loop, with the results pushed so far. *)
Fixpoint executeSteps_from (steps : list Step)
    (results : list StepExecutionResult) : M ExecutionOutcome :=
  match steps with
  | [] => ret {| success := true; stepResults := results |}
  | step :: rest =>
      let* it := iteration step in
      match it with
      | Next entry => executeSteps_from rest (results ++ [entry])
      | Return success entry =>
          ret {| success := success; stepResults := results ++ [entry] |}
      end
  end.

(** [executeSteps(steps, context)] *)
Definition executeSteps (steps : list Step) : M ExecutionOutcome :=
  executeSteps_from steps [].

End Interpreter.
End Steps.

(* ===================================================================== *)
(** * Run records ([src/schemas/RunRecord.ts]) *)
(* ===================================================================== *)

Module Runs.
Import JS Platform Schema Steps.

Inductive RunStatus := Success | Failure.

Inductive Trigger := manual | cron.

Definition trigger_name (t : Trigger) : string :=
  match t with manual => "manual" | cron => "cron" end.

(** The [flow] of a run record: the flow record the run was started with,
    or, once the record went through [RunRecordSchema], its parsed
    configuration. *)
Inductive FlowSnapshot :=
| SnapRecord (f : FlowRecord)
| SnapConfig (c : FlowConfig).

Record RunRecord := {
  run_id : string;
  flowId : string;
  run_name : string;
  status : RunStatus;
  trigger : option Trigger;
  startedAt : string;
  finishedAt : string;
  run_logs : list string;
  run_steps : list StepExecutionResult;
  flow : FlowSnapshot
}.

Definition snapshot_config (s : FlowSnapshot) : FlowConfig :=
  match s with
  | SnapConfig c => c
  | SnapRecord f =>
      {| name := flow_name f; schedule := flow_schedule f;
         enabled := flow_enabled f; steps := flow_steps f |}
  end.

(** [RunRecordSchema.parse(body)] on a body of the right shape. *)
Definition RunRecordSchema_parse `{Host} (body : RunRecord) : completion RunRecord :=
  match FlowConfigSchema_parse (snapshot_config (flow body)) with
  | Throw e => Throw e
  | Normal c =>
      Normal {| run_id := run_id body; flowId := flowId body;
                run_name := run_name body; status := status body;
                trigger := Some (default manual (trigger body));
                startedAt := startedAt body; finishedAt := finishedAt body;
                run_logs := run_logs body; run_steps := run_steps body;
                flow := SnapConfig c |}
  end.

End Runs.

(* ===================================================================== *)
(** * Flow ids and the run orchestrator ([src/lib/utils.ts]) *)
(* ===================================================================== *)

Module Utils.
Import JS Platform Schema Steps Runs.

(** ** [generateFlowId] *)

(** The class [[a-z0-9]]. *)
Definition is_alnum (c : ascii) : bool := Str.is_lower c || Str.is_digit c.

(** The class [[^a-z0-9]]. *)
Definition not_alnum (c : ascii) : bool := negb (is_alnum c).

Definition is_dash (c : ascii) : bool := Ascii.eqb c "-".

(** [s.replace(/C+/g, by)] for a class [C] of characters: each maximal run
    of characters of the class is replaced by one [by]. *)
Fixpoint replace_runs (p : ascii -> bool) (by_ : string) (s : string) : string :=
  match s with
  | EmptyString => EmptyString
  | String c r =>
      if p c then
        match r with
        | String d _ =>
            if p d then replace_runs p by_ r else by_ +:+ replace_runs p by_ r
        | EmptyString => by_
        end
      else String c (replace_runs p by_ r)
  end.

(** [s.replace(/^-+|-+$/g, "")]: the dashes at the start and the dashes at
    the end go. *)
Definition strip_dashes (s : string) : string :=
  Str.drop_while_end is_dash (Str.drop_while is_dash s).

(** [s.replace(/-{2,}/g, "-")]: a run of two or more dashes becomes one
    dash; a single dash, which the pattern does not match, stays. *)
Definition collapse_dashes (s : string) : string := replace_runs is_dash "-" s.

Definition generateFlowId (name : string) : string :=
  collapse_dashes
    (strip_dashes
       (replace_runs not_alnum "-" (Str.toLowerCase name))).

(** ** [runFlowNow] *)

Record RunOptions := { opt_trigger : option Trigger }.

Section Orchestrator.
Context {World : Type} `{Runtime World} `{Host}.

(** The end of [runFlowNow]: the record is built from the outcome and from
    what the context has become. *)
Definition run_record (flow : FlowRecord) (trigger : Trigger) (startedAt : string)
    (outcome : ExecutionOutcome) (context : ExecContext) (w : World)
  : RunRecord * World :=
  let '(uuid, w) := randomUUID w in
  let '(finishedAt, w) := now_iso w in
  ({| run_id := uuid;
      flowId := id flow;
      run_name := flow_name flow;
      status := if success outcome then Success else Failure;
      Runs.trigger := Some trigger;
      Runs.startedAt := startedAt;
      Runs.finishedAt := finishedAt;
      run_logs := logs context;
      run_steps := stepResults outcome;
      Runs.flow := SnapRecord flow |}, w).

(** [runFlowNow] over an interpreter [exec] standing for [executeSteps]. *)
Definition runFlowNow_with (exec : list Step -> M (World := World) ExecutionOutcome)
    (flow : FlowRecord) (options : RunOptions) (w : World) : RunRecord * World :=
  let '(startedAt, w) := now_iso w in
  let trigger := default manual (opt_trigger options) in
  let execContext :=
    {| results := ∅;
       logs := ["[system] Triggered by " +:+ trigger_name trigger +:+ " at "
                +:+ startedAt] |} in
  match exec (flow_steps flow) execContext w with
  | (Normal outcome, execContext, w) =>
      run_record flow trigger startedAt outcome execContext w
  | (Throw error, execContext, w) =>
      let '(t, w) := now_iso w in
      let outcome :=
        {| success := false;
           stepResults := [{| stepId := "execution"; output := None;
                              error := Some (error_message error);
                              timestamp := t |}] |} in
      run_record flow trigger startedAt outcome
        {| results := results execContext;
           logs := logs execContext ++ [error_message error] |} w
  end.

(** [runFlowNow(flow, env, options)] *)
Definition runFlowNow (flow : FlowRecord) (options : RunOptions) (w : World)
  : RunRecord * World :=
  runFlowNow_with executeSteps flow options w.

End Orchestrator.
End Utils.

(* ===================================================================== *)
(** * The flow and run store ([src/durable/NexFlowManager.ts]) *)
(* ===================================================================== *)

Module Manager.
Import JS Platform Schema Steps Runs Utils.

Record NexFlowState := {
  flows : gmap string FlowRecord;
  history : gmap string (list RunRecord)
}.

(** The state [loadState] starts from when nothing was stored. *)
Definition empty_state : NexFlowState := {| flows := ∅; history := ∅ |}.

(** [withDefaults(flow)] *)
Definition withDefaults (flow : FlowRecord) : FlowRecord :=
  {| flow_name := flow_name flow; flow_schedule := flow_schedule flow;
     flow_enabled := Some (default true (flow_enabled flow));
     flow_steps := flow_steps flow; id := id flow;
     createdAt := createdAt flow; updatedAt := updatedAt flow;
     lastRunAt := lastRunAt flow |}.

(** [normalizeRun(run)] *)
Definition normalizeRun (run : RunRecord) : RunRecord :=
  {| run_id := run_id run; flowId := flowId run; run_name := run_name run;
     status := status run; trigger := Some (default manual (trigger run));
     startedAt := startedAt run; finishedAt := finishedAt run;
     run_logs := run_logs run; run_steps := run_steps run; flow := flow run |}.

(** [{ ...flow, lastRunAt }] *)
Definition with_lastRunAt (flow : FlowRecord) (t : string) : FlowRecord :=
  {| flow_name := flow_name flow; flow_schedule := flow_schedule flow;
     flow_enabled := flow_enabled flow; flow_steps := flow_steps flow;
     id := id flow; createdAt := createdAt flow; updatedAt := updatedAt flow;
     lastRunAt := Some t |}.

(** What [persistRun(state, record)] makes of [state] when its two
    lookups find own properties or nothing: the record goes first in the
    history of its flow, which is cut to 50, and the flow, if there is
    one, gets its [lastRunAt]. *)
Definition appended (state : NexFlowState) (record : RunRecord) : NexFlowState :=
  let normalized := normalizeRun record in
  let flowId := Runs.flowId normalized in
  let entries := default [] (history state !! flowId) in
  let history := <[flowId := take 50 (normalized :: entries)]> (history state) in
  let flows :=
    match flows state !! flowId with
    | Some flow =>
        <[Runs.flowId record := with_lastRunAt flow (finishedAt normalized)]>
          (flows state)
    | None => flows state
    end in
  {| flows := flows; history := history |}.

(** [persistRun(state, record)]: the state it leaves in [state] and hands
    to [saveState], or the exception it throws, before it has written
    anything, when [state.history[flowId]] is an inherited member, which
    has no [unshift].  [None] when [state.flows[flowId]] is an inherited
    member: what is stored then is no flow record.  (A key that reads as
    nothing is not [__proto__], so the assignments create own
    properties.) *)
Definition persistRun `{Builtins} (state : NexFlowState) (record : RunRecord)
  : option (completion NexFlowState) :=
  let flowId := Runs.flowId (normalizeRun record) in
  match property (history state) flowId with
  | Inherited member =>
      option_map Throw (call_on member "unshift" "state.history[flowId].unshift")
  | _ =>
      match property (flows state) flowId with
      | Inherited _ => None
      | _ => Some (Normal (appended state record))
      end
  end.

(** Records appended in turn, each to what the one before left;
    [None] as soon as one of them is not stored. *)
Fixpoint persist_all `{Builtins} (records : list RunRecord) (state : NexFlowState)
  : option NexFlowState :=
  match records with
  | [] => Some state
  | record :: rest =>
      match persistRun state record with
      | Some (Normal state) => persist_all rest state
      | _ => None
      end
  end.

(** The body of a reply. *)
Inductive Body :=
| NoBody
| Text (s : string)
| JsonFlow (f : FlowRecord)
| JsonRun (r : RunRecord).

(** What a request handler leaves behind: its response, and the state it
    gave to [saveState], if it saved at all. *)
Record Handled := {
  reply_status : Z;
  reply_body : Body;
  saved : option NexFlowState
}.

Section Routes.
Context {World : Type} `{Runtime World} `{Host}.

(** [POST /flows] on the loaded [storage]. *)
Definition create (storage : NexFlowState) (body : FlowConfig) (w : World)
  : completion Handled * World :=
  match FlowConfigSchema_parse body with
  | Throw e => (Throw e, w)
  | Normal payload =>
      let id := generateFlowId (name payload) in
      match property (flows storage) id with
      | Own _ | Inherited _ =>
          (Normal {| reply_status := 409; reply_body := Text "Flow already exists";
                     saved := None |}, w)
      | Absent =>
          let '(now, w) := now_iso w in
          let record :=
            {| flow_name := name payload; flow_schedule := schedule payload;
               flow_enabled := enabled payload; flow_steps := steps payload;
               Schema.id := id; createdAt := now; updatedAt := now;
               lastRunAt := None |} in
          let storage :=
            {| flows := <[id := withDefaults record]> (flows storage);
               history := history storage |} in
          (Normal {| reply_status := 201;
                     reply_body := JsonFlow (withDefaults record);
                     saved := Some storage |}, w)
      end
  end.

(** [POST /flows/:id/run] for the [storedFlow] found under the id: the run
    happens, then [persistRun] stores it or throws.  [None] where
    [persistRun] is. *)
Definition run (storage : NexFlowState) (storedFlow : FlowRecord)
    (trigger : option Trigger) (w : World)
  : option (completion Handled * World) :=
  let flow := withDefaults storedFlow in
  let '(record, w) :=
    runFlowNow flow {| opt_trigger := Some (default manual trigger) |} w in
  match persistRun storage record with
  | Some (Normal state) =>
      Some (Normal {| reply_status := 200; reply_body := JsonRun record;
                      saved := Some state |}, w)
  | Some (Throw e) => Some (Throw e, w)
  | None => None
  end.

(** [POST /runs] on the loaded [storage]. *)
Definition log_run (storage : NexFlowState) (body : RunRecord)
  : option (completion Handled) :=
  match RunRecordSchema_parse body with
  | Throw e => Some (Throw e)
  | Normal parsed =>
      match persistRun storage parsed with
      | Some (Normal state) =>
          Some (Normal {| reply_status := 200; reply_body := JsonRun parsed;
                          saved := Some state |})
      | Some (Throw e) => Some (Throw e)
      | None => None
      end
  end.

End Routes.
End Manager.

(* ===================================================================== *)
(** * A scripted host

    One concrete [Host], [Runtime] and [CronParser], on which the
    definitions above can be run: the members of [Object.prototype], a
    clock that advances by one millisecond each time it is read, a network
    that answers by URL, and a five-field cron evaluator in UTC.  The
    general statements below do not depend on it. *)
(* ===================================================================== *)

Module Sample.
Import JS Platform Schema Steps.

(** ** Calendar *)

Definition ms_per_day : Z := 86400000.

(** Days since 1970-01-01 of a date of the proleptic Gregorian calendar. *)
Definition days_from_civil (y m d : Z) : Z :=
  let y := if m <=? 2 then y - 1 else y in
  let era := y / 400 in
  let yoe := y - era * 400 in
  let doy := (153 * (if m >? 2 then m - 3 else m + 9) + 2) / 5 + d - 1 in
  let doe := yoe * 365 + yoe / 4 - yoe / 100 + doy in
  era * 146097 + doe - 719468.

(** The year, month and day of a day number. *)
Definition civil_from_days (z : Z) : Z * Z * Z :=
  let z := z + 719468 in
  let era := z / 146097 in
  let doe := z - era * 146097 in
  let yoe := (doe - doe / 1460 + doe / 36524 - doe / 146096) / 365 in
  let doy := doe - (365 * yoe + yoe / 4 - yoe / 100) in
  let mp := (5 * doy + 2) / 153 in
  let d := doy - (153 * mp + 2) / 5 + 1 in
  let m := if mp <? 10 then mp + 3 else mp - 9 in
  (if m <=? 2 then yoe + era * 400 + 1 else yoe + era * 400, m, d).

(** Day of the week, Sunday being 0. *)
Definition weekday (days : Z) : Z := (days + 4) mod 7.

Definition pad (width : nat) (z : Z) : string :=
  let s := Str.of_N (Z.to_N z) in
  Str.repeat "0" (width - String.length s) +:+ s.

(** [new Date(t).toISOString()] for the years 0 to 9999. *)
Definition toISOString (t : Z) : string :=
  let '(y, m, d) := civil_from_days (t / ms_per_day) in
  let r := t mod ms_per_day in
  pad 4 y +:+ "-" +:+ pad 2 m +:+ "-" +:+ pad 2 d +:+ "T"
  +:+ pad 2 (r / 3600000) +:+ ":" +:+ pad 2 (r / 60000 mod 60) +:+ ":"
  +:+ pad 2 (r / 1000 mod 60) +:+ "." +:+ pad 3 (r mod 1000) +:+ "Z".

Definition digits_at (s : string) (from len : nat) : option Z :=
  let d := String.substring from len s in
  if (String.length d =? len)%nat && Str.forallb Str.is_digit d
  then Some (Str.digits_val d) else None.

Definition char_at (s : string) (i : nat) (c : ascii) : bool :=
  match String.get i s with
  | Some d => Ascii.eqb c d
  | None => false
  end.

(** [new Date(s)] for the two UTC forms [YYYY-MM-DDTHH:MM:SSZ] and
    [YYYY-MM-DDTHH:MM:SS.mmmZ]; every other string is an invalid date. *)
Definition parse_iso (s : string) : option Z :=
  match digits_at s 0 4, digits_at s 5 2, digits_at s 8 2,
        digits_at s 11 2, digits_at s 14 2, digits_at s 17 2 with
  | Some y, Some m, Some d, Some hh, Some mm, Some ss =>
      let ms :=
        if (String.length s =? 20)%nat && char_at s 19 "Z" then Some 0
        else if (String.length s =? 24)%nat && char_at s 19 "." && char_at s 23 "Z"
             then digits_at s 20 3
             else None in
      match ms with
      | Some ms =>
          if char_at s 4 "-" && char_at s 7 "-" && char_at s 10 "T"
             && char_at s 13 ":" && char_at s 16 ":"
             && (1 <=? m) && (m <=? 12) && (1 <=? d) && (d <=? 31)
             && (hh <=? 23) && (mm <=? 59) && (ss <=? 59)
          then Some (days_from_civil y m d * ms_per_day
                     + hh * 3600000 + mm * 60000 + ss * 1000 + ms)
          else None
      | None => None
      end
  | _, _, _, _, _, _ => None
  end.

(** ** Five-field cron expressions *)

(** A field: [None] for [*], or the values it lists. *)
Definition Field := option (list Z).

Record Expression := {
  minutes : Field;
  hours : Field;
  days : Field;
  months : Field;
  weekdays : Field;
  currentDate : Cron.Date
}.

Definition parse_number (lo hi : Z) (s : string) : option Z :=
  if Str.truthy s && Str.forallb Str.is_digit s then
    let n := Str.digits_val s in
    if (lo <=? n) && (n <=? hi) then Some n else None
  else None.

(** The values [lo], [lo + step], ... up to [hi]. *)
Definition every (step lo hi : Z) : list Z :=
  List.map (fun k => lo + step * Z.of_nat k)
    (seq 0 (Z.to_nat ((hi - lo) / step + 1))).

(** One item of a list: [n], [a-b], [*/n] or [a-b/n]. *)
Definition parse_item (lo hi : Z) (s : string) : option (list Z) :=
  match Str.split "/" s with
  | [range] =>
      match Str.split "-" range with
      | [n] => option_map (fun n => [n]) (parse_number lo hi n)
      | [a; b] =>
          match parse_number lo hi a, parse_number lo hi b with
          | Some a, Some b => if a <=? b then Some (every 1 a b) else None
          | _, _ => None
          end
      | _ => None
      end
  | [range; step] =>
      match parse_number 1 hi step with
      | Some step =>
          if String.eqb range "*" then Some (every step lo hi)
          else match Str.split "-" range with
               | [a; b] =>
                   match parse_number lo hi a, parse_number lo hi b with
                   | Some a, Some b =>
                       if a <=? b then Some (every step a b) else None
                   | _, _ => None
                   end
               | _ => None
               end
      | None => None
      end
  | _ => None
  end.

Fixpoint parse_items (lo hi : Z) (items : list string) : option (list Z) :=
  match items with
  | [] => Some []
  | item :: rest =>
      match parse_item lo hi item, parse_items lo hi rest with
      | Some a, Some b => Some (a ++ b)
      | _, _ => None
      end
  end.

Definition parse_field (lo hi : Z) (s : string) : option Field :=
  if String.eqb s "*" then Some None
  else option_map Some (parse_items lo hi (Str.split "," s)).

Definition parse_expression (schedule : string) (currentDate : Cron.Date)
  : completion Expression :=
  match Str.split " " (Str.trim schedule) with
  | [mi; ho; da; mo; wd] =>
      match parse_field 0 59 mi, parse_field 0 23 ho, parse_field 1 31 da,
            parse_field 1 12 mo, parse_field 0 7 wd with
      | Some mi, Some ho, Some da, Some mo, Some wd =>
          Normal {| minutes := mi; hours := ho; days := da; months := mo;
                    weekdays := option_map (List.map (fun d => d mod 7)) wd;
                    currentDate := currentDate |}
      | _, _, _, _, _ =>
          Throw (Error "Constraint error, invalid cron field")
      end
  | _ => Throw (Error "Invalid cron expression")
  end.

Definition allows (f : Field) (v : Z) : bool :=
  match f with
  | None => true
  | Some vs => existsb (Z.eqb v) vs
  end.

(** The day rule of cron: when both the day of the month and the day of
    the week are restricted, one of them matching is enough. *)
Definition day_matches (e : Expression) (day : Z) : bool :=
  let '(_, m, d) := civil_from_days day in
  allows (months e) m
  && match days e, weekdays e with
     | Some _, Some _ => allows (days e) d || allows (weekdays e) (weekday day)
     | _, _ => allows (days e) d && allows (weekdays e) (weekday day)
     end.

(** The first matching minute at or after the minute [t] (in minutes since
    the epoch): days, then hours, that cannot match are skipped at once. *)
Fixpoint search (fuel : nat) (e : Expression) (t : Z) : option Z :=
  match fuel with
  | O => None
  | S fuel =>
      let day := t / 1440 in
      if negb (day_matches e day) then search fuel e ((day + 1) * 1440)
      else if negb (allows (hours e) (t mod 1440 / 60)) then
        search fuel e ((t / 60 + 1) * 60)
      else if negb (allows (minutes e) (t mod 60)) then search fuel e (t + 1)
      else Some t
  end.

(** [expression.next().toDate()]: the first occurrence strictly after the
    current date, looked for over about eight years. *)
Definition next_occurrence (e : Expression) : completion Cron.Date :=
  match currentDate e with
  | None => Throw (Error "Invalid date")
  | Some ref =>
      match search 3000 e (ref / 60000 + 1) with
      | Some t => Normal (Some (t * 60000))
      | None => Throw (Error "Out of the timespan range")
      end
  end.

(** The schedule fires at the minute [m] (in minutes since the epoch) of
    universal time. *)
Definition matches (e : Expression) (m : Z) : bool :=
  day_matches e (m / 1440)
  && allows (hours e) (m mod 1440 / 60)
  && allows (minutes e) (m mod 60).

(** The calendar of this evaluator: a schedule fires at the instants, in
    milliseconds since the epoch, that start a minute its five fields
    allow. *)
Definition fires (schedule : string) (t : Z) : bool :=
  match parse_expression schedule None with
  | Normal e => (t mod 60000 =? 0) && matches e (t / 60000)
  | Throw _ => false
  end.

#[global] Instance cron_parser : Cron.CronParser := {|
  Cron.CronExpression := Expression;
  Cron.Date_parse := parse_iso;
  Cron.CronExpressionParser_parse := parse_expression;
  Cron.expression_next := next_occurrence
|}.

(** ** The scripted world *)

Record World := {
  clock_ms : Z;
  issued : nat
}.

Definition tick (ms : Z) (w : World) : World :=
  {| clock_ms := clock_ms w + ms; issued := issued w |}.

(** The whole milliseconds of a number. *)
Definition whole_ms (n : number) : Z :=
  match n with
  | Dec m e => if 0 <=? e then m * 10 ^ e else m / 10 ^ (- e)
  | _ => 0
  end.

(** The network: one service that answers with a price, one that answers
    after five seconds, one that is down; everything else is a 404. *)
Definition network (request : Request) (w : World) : completion Response * World :=
  if String.eqb (req_url request) "https://api.example/price" then
    (Normal {| status := 200;
               resp_headers := [("content-type", "application/json")];
               resp_text := "42000.5" |}, tick 20 w)
  else if String.eqb (req_url request) "https://slow.example/" then
    match req_timeout request with
    | Some t =>
        if whole_ms t <? 5000 then
          (Throw (ErrorObject "AbortError" "The operation was aborted"),
           tick (whole_ms t) w)
        else
          (Normal {| status := 200; resp_headers := []; resp_text := "late" |},
           tick 5000 w)
    | None =>
        (Normal {| status := 200; resp_headers := []; resp_text := "late" |},
         tick 5000 w)
    end
  else if String.eqb (req_url request) "https://down.example/" then
    (Throw (ErrorObject "TypeError" "fetch failed"), tick 1 w)
  else
    (Normal {| status := 404; resp_headers := []; resp_text := "not found" |},
     tick 20 w).

#[global] Instance runtime : Runtime World := {|
  now_iso w := (toISOString (clock_ms w), tick 1 w);
  http_fetch := network;
  set_timeout ms w := tick (whole_ms ms) w;
  randomUUID w :=
    ("00000000-0000-4000-8000-" +:+ pad 12 (Z.of_nat (issued w)),
     {| clock_ms := clock_ms w; issued := S (issued w) |})
|}.

(** [JSON.parse] on the documents the scripted network sends: a number,
    [true], [false] or [null]; anything else is reported as a syntax
    error. *)
Definition parse_scalar (text : string) : completion any :=
  let t := Str.trim text in
  if String.eqb t "null" then Normal VNull
  else if String.eqb t "true" then Normal (VBool true)
  else if String.eqb t "false" then Normal (VBool false)
  else if Str.truthy t && Str.forallb (fun c => Str.is_digit c || Ascii.eqb c ".") t
          && negb (isNaN (string_to_number t))
       then Normal (VNum (string_to_number t))
       else Throw (ErrorObject "SyntaxError" "Unexpected token in JSON").

(** ** Built-in objects *)

(** The members of [Object.prototype], by the name of the built-in each
    one is: eleven functions and, under [__proto__], the prototype
    itself. *)
Definition Object_prototype : list (string * string) :=
  [("constructor", "Object");
   ("__defineGetter__", "__defineGetter__");
   ("__defineSetter__", "__defineSetter__");
   ("hasOwnProperty", "hasOwnProperty");
   ("__lookupGetter__", "__lookupGetter__");
   ("__lookupSetter__", "__lookupSetter__");
   ("isPrototypeOf", "isPrototypeOf");
   ("propertyIsEnumerable", "propertyIsEnumerable");
   ("toString", "toString");
   ("valueOf", "valueOf");
   ("__proto__", "Object.prototype");
   ("toLocaleString", "toLocaleString")].

(** What plain objects inherit.  This host leaves out what arrays,
    strings, numbers and booleans inherit, and the properties of the
    built-ins themselves. *)
Definition members (k : kind) (key : string) : any :=
  match k with
  | OfObject =>
      match assoc key Object_prototype with
      | Some b => VNative b
      | None => VUndefined
      end
  | _ => VUndefined
  end.

(** The prototype is an object, the other built-ins are functions. *)
Definition is_prototype (b : string) : bool := String.eqb b "Object.prototype".

Definition function_text (b : string) : string :=
  if is_prototype b then "[object Object]"
  else "function " +:+ b +:+ "() { [native code] }".

Definition builtins : Builtins := {|
  inherited := members;
  native_text := function_text;
  native_number _ := NaN;
  native_is_object := is_prototype;
  native_json b := if is_prototype b then Some "{}" else None;
  native_loose_eq b t :=
    match t with
    | SStr s => String.eqb (function_text b) s
    | SNum _ => false
    end;
  not_a_function callee :=
    ErrorObject "TypeError" (callee +:+ " is not a function");
  inherits_proto := eq_refl
|}.

(** ** Urls *)

Definition path_char (c : ascii) : bool :=
  Str.is_lower c || Str.is_upper c || Str.is_digit c
  || Ascii.eqb c "-" || Ascii.eqb c "_" || Ascii.eqb c "/".

(** [new URL(url).pathname] for the urls [https://nexflow-manager<path>]
    whose path starts with a slash and is made of letters, digits, dashes,
    underscores and slashes, which the parser of urls leaves as it is;
    this host refuses every other url. *)
Definition pathname_of (url : string) : completion string :=
  let origin := "https://nexflow-manager" in
  let path := Str.drop (String.length origin) url in
  if String.prefix origin url && starts_with "/" path && Str.forallb path_char path
  then Normal path
  else Throw (ErrorObject "TypeError" "Invalid URL").

#[global] Instance host : Host := {|
  host_builtins := builtins;
  JSON_parse := parse_scalar;
  is_url s := String.prefix "http://" s || String.prefix "https://" s;
  URL_pathname := pathname_of
|}.

(** The world at 2025-01-01T12:00:00.000Z. *)
Definition noon : World := {| clock_ms := 1735732800000; issued := 0 |}.

(** ** A flow to run *)

Definition price_step : Step :=
  StepFetch {| fetch_id := "priceFetch";
               fetch_url := "https://api.example/price";
               fetch_method := Some GET; fetch_headers := None;
               fetch_body := None; fetch_timeout_ms := None |}.

Definition cheap_step : Step :=
  StepCondition {| input := "priceFetch.body"; operator := OpLt;
                   value := SNum (Dec 1000 0) |}.

Definition shout_step : Step :=
  StepLog {| log_message := "Price: ${priceFetch.body}"; log_include := None |}.

Definition slow_fetch : FetchStep :=
  {| fetch_id := "slow"; fetch_url := "https://slow.example/";
     fetch_method := Some GET; fetch_headers := None;
     fetch_body := None; fetch_timeout_ms := Some (Dec 1000 0) |}.

(** ["5.0" = "5"]: a string in the results and a string target, both
    numeric and equal as numbers. *)
Definition five_point_zero : ExecContext :=
  {| results := {[ "x" := VStr "5.0" ]}; logs := [] |}.

Definition equals_five : ConditionRule :=
  {| input := "x"; operator := OpEq; value := SStr "5" |}.

(** A stored flow and a record of one of its runs. *)
Definition my_flow : FlowRecord :=
  {| flow_name := "My Flow!"; flow_schedule := "*/5 * * * *";
     flow_enabled := Some true; flow_steps := [price_step; cheap_step; shout_step];
     id := "my-flow"; createdAt := "2025-01-01T00:00:00.000Z";
     updatedAt := "2025-01-01T00:00:00.000Z"; lastRunAt := None |}.

Definition my_run (uuid finishedAt : string) : Runs.RunRecord :=
  {| Runs.run_id := uuid; Runs.flowId := "my-flow"; Runs.run_name := "My Flow!";
     Runs.status := Runs.Success; Runs.trigger := Some Runs.cron;
     Runs.startedAt := "2025-01-01T12:00:00.000Z";
     Runs.finishedAt := finishedAt;
     Runs.run_logs := []; Runs.run_steps := [];
     Runs.flow := Runs.SnapRecord my_flow |}.


(** The same name, written another way. *)
Definition my_flow_again : FlowConfig :=
  {| name := "my  FLOW"; schedule := "0 9 * * *"; enabled := None;
     steps := [shout_step] |}.

(** The context of a run that has not started. *)
Definition fresh : ExecContext := {| results := ∅; logs := [] |}.

(** The results of [tests/template.test.ts]. *)
Definition mockResults : gmap string any :=
  {[ "priceFetch" :=
       VObj [("status", VNum (Dec 200 0));
             ("body", VObj [("price", VNum (Dec 420005 (-1)));
                            ("meta", VObj [("currency", VStr "USD")])])] ]}.

End Sample.

(* ===================================================================== *)
(** * Vocabulary of the properties *)
(* ===================================================================== *)

Module Spec.
Import JS Platform Schema Steps Runs.

(** ** Paths that do not resolve *)

Section Paths.
Context `{Builtins}.



End Paths.

Fixpoint has_close (s : string) : bool :=
  match s with
  | EmptyString => false
  | String c r => Ascii.eqb c "}" || has_close r
  end.

(** Every ["${"] of [s] is followed by a ["}"] inside [s]: no placeholder
    that starts in [s] is still open where [s] ends. *)
Fixpoint self_contained (s : string) : bool :=
  match s with
  | EmptyString => true
  | String c r =>
      match r with
      | String d t =>
          if Ascii.eqb c "$" && Ascii.eqb d "{" then has_close t else true
      | EmptyString => true
      end
      && self_contained r
  end.

(** [self_contained], said with the texts around each ["${"]. *)
Definition closes_its_placeholders (s : string) : Prop :=
  forall a b, s = a +:+ "${" +:+ b -> exists b1 b2, b = b1 +:+ "}" +:+ b2.

(** ** Due times *)

Section Due.
Context `{Cron.CronParser}.

(** The reference instant of the design document: the last run when there
    is one, a minute before [now] otherwise. *)
Definition reference_instant (lastRunAt : option string) (now : Cron.Date)
  : Cron.Date :=
  match lastRunAt with
  | Some s => Cron.Date_parse s
  | None => Cron.date_minus now 60000
  end.

(** The next occurrence of a schedule after an instant, in UTC, as the
    cron library gives it; [None] when the library throws or has no valid
    date to give. *)
Definition next_occurrence (schedule : string) (after : Cron.Date) : option Z :=
  match Cron.CronExpressionParser_parse schedule after with
  | Normal expression =>
      match Cron.expression_next expression with
      | Normal (Some t) => Some t
      | _ => None
      end
  | Throw _ => None
  end.

(** The instants a [Date] can hold, in milliseconds since the epoch. *)
Definition time_value (t : Z) : Prop :=
  -8640000000000000 <= t <= 8640000000000000.

(** [ref] is the reference instant of a flow at the instant [now]: its
    last run when it has one, [now] minus 60 seconds otherwise. *)
Inductive reference : option string -> Z -> Z -> Prop :=
| reference_last_run (lastRunAt : string) (now ref : Z) :
    Cron.Date_parse lastRunAt = Some ref ->
    reference (Some lastRunAt) now ref
| reference_never_run (now : Z) :
    time_value (now - 60000) ->
    reference None now (now - 60000).

(** [t] is the next occurrence strictly after [ref], among the instants
    [occurs] at which a schedule fires: the first of them that is later
    than [ref]. *)
Definition next_after (occurs : Z -> Prop) (ref t : Z) : Prop :=
  occurs t /\ ref < t /\ forall u, occurs u -> ref < u -> t <= u.

(** Asked for the schedule after [ref], the cron library answers by the
    calendar [occurs], which tells at which instants of universal time
    each schedule fires: what it gives is the next occurrence after
    [ref], and it gives one when there is one. *)
Definition computes_next (occurs : string -> Z -> Prop)
    (schedule : string) (ref : Z) : Prop :=
  forall t,
    next_occurrence schedule (Some ref) = Some t
    <-> next_after (occurs schedule) ref t.

(** The schedule is not a cron expression: the parser rejects it whatever
    the current date. *)
Definition unparseable (schedule : string) : Prop :=
  forall currentDate,
    exists err, Cron.CronExpressionParser_parse schedule currentDate = Throw err.

End Due.

(** ** Flow ids *)

Fixpoint no_double_dash (s : string) : bool :=
  match s with
  | String c (String d _ as r) =>
      negb (Ascii.eqb c "-" && Ascii.eqb d "-") && no_double_dash r
  | _ => true
  end.

Fixpoint ends_with_dash (s : string) : bool :=
  match s with
  | EmptyString => false
  | String c EmptyString => Ascii.eqb c "-"
  | String _ r => ends_with_dash r
  end.

Definition slug_char (c : ascii) : bool :=
  Str.is_lower c || Str.is_digit c || Ascii.eqb c "-".

(** The shape of a flow id: lower-case letters, digits and dashes only, no
    dash at either end and no two dashes in a row. *)
Definition is_slug (s : string) : bool :=
  Str.forallb slug_char s
  && negb (starts_with "-" s)
  && negb (ends_with_dash s)
  && no_double_dash s.

(** ** Rules *)

(** The comparison of the design document, read for all six operators:
    both operands as numbers when both are numeric, as strings
    otherwise. *)
Definition numeric_or_string `{Builtins} (op : Operator) (value : any)
    (target : scalar) : bool :=
  let a := to_number value in
  let b := to_number (scalar_value target) in
  let x := to_string value in
  let y := to_string (scalar_value target) in
  if negb (isNaN a) && negb (isNaN b) then
    match op with
    | OpEq => num_eqb a b
    | OpNe => negb (num_eqb a b)
    | OpLt => num_ltb a b
    | OpGt => num_gtb a b
    | OpLe => num_leb a b
    | OpGe => num_geb a b
    end
  else
    match op with
    | OpEq => String.eqb x y
    | OpNe => negb (String.eqb x y)
    | OpLt => String.ltb x y
    | OpGt => String.ltb y x
    | OpLe => String.leb x y
    | OpGe => String.leb y x
    end.

(** What a condition or logic step evaluates to in a context. *)
Definition verdict `{Builtins} (step : Step) (context : ExecContext)
  : option bool :=
  match step with
  | StepCondition rule => Some (evaluateRule rule context)
  | StepLogic l =>
      match logic_mode l with
      | AND => Some (List.forallb (fun rule => evaluateRule rule context)
                       (logic_conditions l))
      | OR => Some (List.existsb (fun rule => evaluateRule rule context)
                      (logic_conditions l))
      end
  | _ => None
  end.

(** The context a run starts with: no results, and the system line. *)
Definition initial_context (trigger : Trigger) (startedAt : string) : ExecContext :=
  {| results := ∅;
     logs := ["[system] Triggered by " +:+ trigger_name trigger +:+ " at "
              +:+ startedAt] |}.

Section Execution.
Context {World : Type} `{Runtime World} `{Host}.

(** [proceeds steps c w entries c' w']: started in the context [c] and the
    world [w], every step of [steps] is executed and the loop goes on to
    the next one; [entries] are the results pushed, one per step, and [c']
    and [w'] the context and the world after the last of them. *)
Inductive proceeds :
  list Step -> ExecContext -> World ->
  list StepExecutionResult -> ExecContext -> World -> Prop :=
| proceeds_nil (c : ExecContext) (w : World) : proceeds [] c w [] c w
| proceeds_cons (step : Step) (steps : list Step)
    (c : ExecContext) (w : World) (entry : StepExecutionResult)
    (c1 : ExecContext) (w1 : World) (entries : list StepExecutionResult)
    (c2 : ExecContext) (w2 : World) :
    iteration step c w = (Normal (Next entry), c1, w1) ->
    proceeds steps c1 w1 entries c2 w2 ->
    proceeds (step :: steps) c w (entry :: entries) c2 w2.

End Execution.

End Spec.

(* ===================================================================== *)
(** * Vocabulary of the frame properties of the interpreter *)
(* ===================================================================== *)

Module Props.
Import JS Platform Schema Steps Runs.

(** The ids of the fetch steps of a list of steps. *)
Definition fetch_ids (steps : list Step) : list string :=
  flat_map (fun step => match step with
                        | StepFetch f => [fetch_id f]
                        | _ => []
                        end) steps.

(** [grows ids c c']: from [c] to [c'] the log only got longer, and the
    results are the same outside of the keys [ids]. *)
Definition grows (ids : list string) (c c' : ExecContext) : Prop :=
  (forall key, key ∉ ids -> results c' !! key = results c !! key)
  /\ exists added, logs c' = logs c ++ added.

(** The units of a duration and their length in milliseconds. *)
Definition unit_factor (unit : string) : option Z :=
  if String.eqb unit "ms" then Some 1
  else if String.eqb unit "s" then Some 1000
  else if String.eqb unit "m" then Some 60000
  else if String.eqb unit "h" then Some 3600000
  else None.

(** The number of a duration of [value] units of [factor] milliseconds:
    the value as a number, multiplied when the unit is not the
    millisecond. *)
Definition milliseconds (value factor : Z) : number :=
  if factor =? 1 then binary64_of_Z value else binary64_product value factor.

(** The text holds a ["${"]. *)
Fixpoint has_open (s : string) : bool :=
  match s with
  | String c (String d _ as r) =>
      (Ascii.eqb c "$" && Ascii.eqb d "{") || has_open r
  | _ => false
  end.

(** A notify step has the text its method needs: the raw payload for a
    webhook, the message for the others. *)
Definition notify_complete (n : NotifyStep) : bool :=
  match notify_method n with
  | webhook => has_text (notify_rawPayload n)
  | _ => has_text (notify_message n)
  end.

(** What the schema asks of one step, taken alone. *)
Definition step_acceptable `{Host} (step : Step) : bool :=
  match step with
  | StepFetch f => Str.truthy (fetch_id f)
  | StepNotify n => is_url (notify_url n) && notify_complete n
  | _ => true
  end.

(** The same rule with another operator. *)
Definition with_operator (rule : ConditionRule) (op : Operator) : ConditionRule :=
  {| input := input rule; operator := op; value := Schema.value rule |}.

(** The result of a step that did not fail. *)
Definition no_error (entry : StepExecutionResult) : bool :=
  match error entry with None => true | Some _ => false end.

Section Keeps.
Context {World : Type} `{Runtime World} `{Host}.

(** A computation of the interpreter keeps a relation between the context
    it starts from and the one it ends with, however it ends. *)
Definition keeps (R : ExecContext -> ExecContext -> Prop) {A : Type}
    (m : M (World := World) A) : Prop :=
  forall (c : ExecContext) (w : World) r c' w', m c w = (r, c', w') -> R c c'.

End Keeps.
End Props.

(* ===================================================================== *)
(** * More sample data *)
(* ===================================================================== *)

Module Fixtures.
Import JS Platform Schema Steps.

(** A context that already holds a result and a log line. *)
Definition earlier : ExecContext :=
  {| results := {[ "volume" := VNum (Dec 7 0) ]};
     logs := ["[system] earlier line"] |}.

(** A fetch step for a page the scripted network does not have. *)
Definition missing_fetch : FetchStep :=
  {| fetch_id := "gone"; fetch_url := "https://api.example/missing";
     fetch_method := Some GET; fetch_headers := None;
     fetch_body := None; fetch_timeout_ms := None |}.

(** A notification to a hook the scripted network does not have. *)
Definition hook : NotifyStep :=
  {| notify_method := slack; notify_url := "https://hooks.example/T000";
     notify_message := Some "Price moved"; notify_rawPayload := None;
     notify_include := None |}.

(** A fetch step for a service that is down. *)
Definition down_fetch : FetchStep :=
  {| fetch_id := "down"; fetch_url := "https://down.example/";
     fetch_method := Some GET; fetch_headers := None;
     fetch_body := None; fetch_timeout_ms := None |}.


(** A rule on the result of a step that is not in the flow. *)
Definition below_zebra : ConditionRule :=
  {| input := "gone.body.price"; operator := OpLt; value := SStr "zebra" |}.

End Fixtures.

(* ===================================================================== *)
(** * The requests of the flow store ([src/durable/NexFlowManager.ts]) *)
(* ===================================================================== *)

Module Router.
Import JS Platform Schema Utils Manager.

(** [Object.values(state.flows)]: the stored flows in the order in which
    the engine enumerates the properties of the object.  The order is not
    a matter of the map alone; what is proved about it holds for every
    enumeration. *)
Class ObjectOrder := {
  Object_values : gmap string FlowRecord -> list FlowRecord
}.

(** ** Routes *)

Definition to_upper_char (c : ascii) : ascii :=
  if Str.is_lower c then ascii_of_nat (nat_of_ascii c - 32) else c.

(** [String.prototype.toUpperCase]. *)
Definition toUpperCase (s : string) : string := Str.map to_upper_char s.

(** [url.pathname.split("/").filter(Boolean)] *)
Definition segments (pathname : string) : list string :=
  List.filter Str.truthy (Str.split "/" pathname).

(** The branch of [fetch] a request ends in.  The branches of one flow
    come with the [storedFlow] found under the id; [BuiltinFlow] is any of
    them when what was found under the id is a member that every object
    inherits, and no flow. *)
Inductive Route :=
| ListFlows
| CreateFlow
| FlowNotFound
| GetFlow (id : string) (storedFlow : FlowRecord)
| UpdateFlow (id : string) (storedFlow : FlowRecord)
| DeleteFlow (id : string) (storedFlow : FlowRecord)
| SetEnabled (id : string) (storedFlow : FlowRecord)
| GetLogs (id : string) (storedFlow : FlowRecord)
| RunFlow (id : string) (storedFlow : FlowRecord)
| BuiltinFlow (id : string) (member : any)
| LogRun
| NotFound.

(** The end of [fetch], reached when no branch under [flows] returned. *)
Definition route_runs (segments : list string) (method : string) : Route :=
  match segments with
  | first :: _ =>
      if String.eqb first "runs" && String.eqb method "POST" then LogRun
      else NotFound
  | [] => NotFound
  end.

(** The branch of one flow that the segments after the id and the method
    select, if they select one. *)
Definition flow_branch (sub : list string) (method : string)
  : option (string -> FlowRecord -> Route) :=
  match sub with
  | [] =>
      if String.eqb method "GET" then Some GetFlow
      else if String.eqb method "PUT" then Some UpdateFlow
      else if String.eqb method "DELETE" then Some DeleteFlow
      else None
  | third :: _ =>
      if String.eqb third "enabled" && String.eqb method "PATCH"
      then Some SetEnabled
      else if String.eqb third "logs" && String.eqb method "GET"
      then Some GetLogs
      else if String.eqb third "run" && String.eqb method "POST"
      then Some RunFlow
      else None
  end.

(** The [if]s of [fetch], on the loaded [storage]. *)
Definition route `{Builtins} (storage : NexFlowState) (method pathname : string)
  : Route :=
  let segments := segments pathname in
  let method := toUpperCase method in
  match segments with
  | first :: rest =>
      if String.eqb first "flows" then
        match rest with
        | [] =>
            if String.eqb method "GET" then ListFlows
            else if String.eqb method "POST" then CreateFlow
            else route_runs segments method
        | id :: sub =>
            match property (flows storage) id with
            | Absent => FlowNotFound
            | Own storedFlow =>
                match flow_branch sub method with
                | Some branch => branch id storedFlow
                | None => route_runs segments method
                end
            | Inherited member =>
                match flow_branch sub method with
                | Some _ => BuiltinFlow id member
                | None => route_runs segments method
                end
            end
        end
      else route_runs segments method
  | [] => route_runs segments method
  end.

(** ** Answers *)

(** The body of a response. *)
Inductive Payload :=
| Nothing
| Plain (text : string)
| OneFlow (f : FlowRecord)
| Flows (l : list FlowRecord)
| OneRun (r : Runs.RunRecord)
| RunList (l : list Runs.RunRecord).

(** A response, and the state the handler gave to [saveState], if it
    saved at all. *)
Record Answer := {
  answer_status : Z;
  answer_body : Payload;
  answer_saved : option NexFlowState
}.

Definition of_body (b : Body) : Payload :=
  match b with
  | NoBody => Nothing
  | Text s => Plain s
  | JsonFlow f => OneFlow f
  | JsonRun r => OneRun r
  end.

Definition of_handled (h : Handled) : Answer :=
  {| answer_status := reply_status h; answer_body := of_body (reply_body h);
     answer_saved := saved h |}.

Definition flow_not_found : Answer :=
  {| answer_status := 404; answer_body := Plain "Flow not found";
     answer_saved := None |}.

Definition not_found : Answer :=
  {| answer_status := 404; answer_body := Plain "Not found";
     answer_saved := None |}.

(** [{ ...flow, enabled, updatedAt }] *)
Definition with_enabled (flow : FlowRecord) (enabled : bool) (now : string)
  : FlowRecord :=
  {| flow_name := flow_name flow; flow_schedule := flow_schedule flow;
     flow_enabled := Some enabled; flow_steps := flow_steps flow;
     id := id flow; createdAt := createdAt flow; updatedAt := now;
     lastRunAt := lastRunAt flow |}.

(** [{ ...run, flowId }] *)
Definition with_flowId (run : Runs.RunRecord) (flowId : string) : Runs.RunRecord :=
  {| Runs.run_id := Runs.run_id run; Runs.flowId := flowId;
     Runs.run_name := Runs.run_name run; Runs.status := Runs.status run;
     Runs.trigger := Runs.trigger run; Runs.startedAt := Runs.startedAt run;
     Runs.finishedAt := Runs.finishedAt run; Runs.run_logs := Runs.run_logs run;
     Runs.run_steps := Runs.run_steps run; Runs.flow := Runs.flow run |}.

(** What [migrateLegacyState] has built so far. *)
Record Migration := {
  mutated : bool;
  new_flows : gmap string FlowRecord;
  new_history : gmap string (list Runs.RunRecord)
}.

(** The JSON document of a request, for the shapes the handlers read. *)
Inductive RequestBody :=
| NoDocument
| FlowDocument (config : FlowConfig)
| ToggleDocument (enabled : bool)
| TriggerDocument (trigger : option Runs.Trigger)
| RunDocument (record : Runs.RunRecord).

Section Handlers.
Context {World : Type} `{Runtime World} `{Host} `{ObjectOrder}.

(** ** Handlers, on the loaded [storage] *)

(** [GET /flows] *)
Definition list_flows (storage : NexFlowState) : Answer :=
  {| answer_status := 200;
     answer_body := Flows (List.map withDefaults (Object_values (flows storage)));
     answer_saved := None |}.

(** [GET /flows/:id] *)
Definition get (storedFlow : FlowRecord) : Answer :=
  {| answer_status := 200; answer_body := OneFlow (withDefaults storedFlow);
     answer_saved := None |}.

(** [PUT /flows/:id] *)
Definition update (storage : NexFlowState) (id : string) (storedFlow : FlowRecord)
    (body : FlowConfig) (w : World) : completion Answer * World :=
  let flow := withDefaults storedFlow in
  match FlowConfigSchema_parse body with
  | Throw e => (Throw e, w)
  | Normal payload =>
      let '(now, w) := now_iso w in
      let updated :=
        {| flow_name := name payload; flow_schedule := schedule payload;
           flow_enabled := enabled payload; flow_steps := steps payload;
           Schema.id := id; createdAt := createdAt flow; updatedAt := now;
           lastRunAt := lastRunAt flow |} in
      let storage :=
        {| flows := <[id := withDefaults updated]> (flows storage);
           history := history storage |} in
      (Normal {| answer_status := 200;
                 answer_body := OneFlow (withDefaults updated);
                 answer_saved := Some storage |}, w)
  end.

(** [DELETE /flows/:id] *)
Definition remove (storage : NexFlowState) (id : string) : Answer :=
  {| answer_status := 204; answer_body := Nothing;
     answer_saved := Some {| flows := delete id (flows storage);
                             history := delete id (history storage) |} |}.

(** [PATCH /flows/:id/enabled] *)
Definition setEnabled (storage : NexFlowState) (id : string)
    (storedFlow : FlowRecord) (enabled : bool) (w : World) : Answer * World :=
  let flow := withDefaults storedFlow in
  let '(now, w) := now_iso w in
  let updated := with_enabled flow enabled now in
  ({| answer_status := 200; answer_body := OneFlow updated;
      answer_saved := Some {| flows := <[id := updated]> (flows storage);
                              history := history storage |} |}, w).

(** [GET /flows/:id/logs]: [None] when [storage.history[id]] is an
    inherited member, which is no list of runs. *)
Definition logs_of (storage : NexFlowState) (id : string) : option Answer :=
  let listed runs :=
    Some {| answer_status := 200; answer_body := RunList runs;
            answer_saved := None |} in
  match property (history storage) id with
  | Own runs => listed runs
  | Absent => listed []
  | Inherited _ => None
  end.

(** ** [migrateLegacyState] *)

(** [state.history[first] || state.history[second]] *)
Definition either_history (state : NexFlowState) (first second : string)
  : Found (list Runs.RunRecord) :=
  match property (history state) first with
  | Absent => property (history state) second
  | found => found
  end.

(** [(found || []).map(f)]: the runs with [f] applied, or the exception of
    the call of [map] on an inherited member, which has none; [None] as
    for [call_on]. *)
Definition mapped_runs (found : Found (list Runs.RunRecord))
    (f : Runs.RunRecord -> Runs.RunRecord) (callee : string)
  : option (completion (list Runs.RunRecord)) :=
  match found with
  | Own runs => Some (Normal (List.map f runs))
  | Absent => Some (Normal [])
  | Inherited member => option_map Throw (call_on member "map" callee)
  end.

(** The body of its loop, for the stored flows that are left: what it has
    built when the loop ends, or the exception that ends it.  [None] as
    for [mapped_runs], and for a flow whose id is [__proto__]: assigned
    under that name, it becomes the prototype of the new dictionary and no
    entry of it. *)
Fixpoint migrate_loop (state : NexFlowState) (stored : list FlowRecord)
    (acc : Migration) (w : World) : option (completion Migration * World) :=
  match stored with
  | [] => Some (Normal acc, w)
  | stored_flow :: rest =>
      if Str.truthy (id stored_flow) then
        let flow := withDefaults stored_flow in
        if String.eqb (id flow) proto then None
        else
          match mapped_runs (either_history state (id flow) (flow_name flow))
                  normalizeRun
                  "(state.history[flow.id] || state.history[flow.name] || []).map"
          with
          | None => None
          | Some (Throw e) => Some (Throw e, w)
          | Some (Normal runs) =>
              migrate_loop state rest
                {| mutated := mutated acc;
                   new_flows := <[id flow := flow]> (new_flows acc);
                   new_history := <[id flow := runs]> (new_history acc) |}
                w
          end
      else
        let id := generateFlowId (flow_name stored_flow) in
        let '(now, w) := now_iso w in
        let newRecord :=
          {| flow_name := flow_name stored_flow;
             flow_schedule := flow_schedule stored_flow;
             flow_enabled := flow_enabled stored_flow;
             flow_steps := flow_steps stored_flow;
             Schema.id := id; createdAt := now; updatedAt := now;
             lastRunAt := lastRunAt stored_flow |} in
        match mapped_runs (property (history state) (flow_name stored_flow))
                (fun run => normalizeRun (with_flowId run id))
                "(state.history[flowConfig.name] || []).map"
        with
        | None => None
        | Some (Throw e) => Some (Throw e, w)
        | Some (Normal runs) =>
            migrate_loop state rest
              {| mutated := true;
                 new_flows := <[id := withDefaults newRecord]> (new_flows acc);
                 new_history := <[id := runs]> (new_history acc) |}
              w
        end
  end.

(** [migrateLegacyState(state)]: the state it returns and the state it
    gave to [saveState], if it saved; or the exception it throws. *)
Definition migrateLegacyState (state : NexFlowState) (w : World)
  : option (completion (NexFlowState * option NexFlowState) * World) :=
  match
    migrate_loop state (Object_values (flows state))
      {| mutated := false; new_flows := ∅; new_history := ∅ |} w
  with
  | None => None
  | Some (Throw e, w) => Some (Throw e, w)
  | Some (Normal m, w) =>
      if mutated m then
        let nextState := {| flows := new_flows m; history := new_history m |} in
        Some (Normal (nextState, Some nextState), w)
      else Some (Normal (state, None), w)
  end.

(** ** [fetch] *)

(** The trigger a run request asks for: the [trigger] of its document,
    when it has one. *)
Definition requested_trigger (body : RequestBody) : option Runs.Trigger :=
  match body with
  | TriggerDocument t => t
  | RunDocument r => Runs.trigger r
  | _ => None
  end.

(** A handler has run: what is in the durable storage afterwards is what
    it saved, or what was there before it. *)
Definition answered (durable : option NexFlowState) (r : completion Answer)
    (w : World) : option (completion Answer * option NexFlowState * World) :=
  Some (r,
        match r with
        | Normal a =>
            match answer_saved a with
            | Some s => Some s
            | None => durable
            end
        | Throw _ => durable
        end, w).

Definition of_completion (r : completion Handled) : completion Answer :=
  match r with
  | Normal h => Normal (of_handled h)
  | Throw e => Throw e
  end.

(** The branches of [fetch], on the [storage] that the migration returned
    and with what the durable storage holds after it. *)
Definition serve (storage : NexFlowState) (durable : option NexFlowState)
    (method pathname : string) (body : RequestBody) (w : World)
  : option (completion Answer * option NexFlowState * World) :=
  match route storage method pathname with
  | ListFlows => answered durable (Normal (list_flows storage)) w
  | CreateFlow =>
      match body with
      | FlowDocument config =>
          let '(r, w) := create storage config w in
          answered durable (of_completion r) w
      | _ => None
      end
  | FlowNotFound => answered durable (Normal flow_not_found) w
  | GetFlow id storedFlow => answered durable (Normal (get storedFlow)) w
  | UpdateFlow id storedFlow =>
      match body with
      | FlowDocument config =>
          let '(r, w) := update storage id storedFlow config w in
          answered durable r w
      | _ => None
      end
  | DeleteFlow id _ => answered durable (Normal (remove storage id)) w
  | SetEnabled id storedFlow =>
      match body with
      | ToggleDocument enabled =>
          let '(a, w) := setEnabled storage id storedFlow enabled w in
          answered durable (Normal a) w
      | _ => None
      end
  | GetLogs id _ =>
      match logs_of storage id with
      | Some a => answered durable (Normal a) w
      | None => None
      end
  | RunFlow id storedFlow =>
      match run storage storedFlow (requested_trigger body) w with
      | Some (r, w) => answered durable (of_completion r) w
      | None => None
      end
  | BuiltinFlow _ _ => None
  | LogRun =>
      match body with
      | RunDocument record =>
          match log_run storage record with
          | Some r => answered durable (of_completion r) w
          | None => None
          end
      | _ => None
      end
  | NotFound => answered durable (Normal not_found) w
  end.

(** [fetch(request)] of the manager, for a request with this method and
    this pathname of its url: the response or the exception, what the
    durable storage holds afterwards, and the world.  [None] where the
    model has no answer: for a document that has not the shape its route
    reads, for a flow that is a built-in, and where the migration, the
    logs or the storing of a run have none. *)
Definition fetch (durable : option NexFlowState) (method pathname : string)
    (body : RequestBody) (w : World)
  : option (completion Answer * option NexFlowState * World) :=
  let storage := default empty_state durable in
  match migrateLegacyState storage w with
  | None => None
  | Some (Throw e, w) => Some (Throw e, durable, w)
  | Some (Normal (storage, migrated), w) =>
      let durable :=
        match migrated with
        | Some s => Some s
        | None => durable
        end in
      serve storage durable method pathname body w
  end.

End Handlers.
End Router.

(* ===================================================================== *)
(** * The in-process scheduler ([src/lib/scheduler.ts]) *)
(* ===================================================================== *)

Module Scheduler.
Import JS Platform Schema Manager Router.

Section Scheduler.
Context {World : Type} `{Runtime World} `{Host} `{ObjectOrder} `{Cron.CronParser}.

(** [shouldRun(flow, now)] *)
Definition shouldRun (flow : FlowRecord) (now : Cron.Date) : bool :=
  match flow_enabled flow with
  | Some false => false
  | _ =>
      if negb (Str.truthy (flow_schedule flow))
         || negb (Str.truthy (Str.trim (flow_schedule flow)))
      then false
      else Cron.due (Cron.isDue (flow_schedule flow) (lastRunAt flow) now)
  end.

(** [resp.ok] on a status. *)
Definition status_ok (status : Z) : bool := (200 <=? status) && (status <=? 299).

(** [fetchJSON] of [src/lib/utils.ts] on the response of the manager: the
    value it resolves with, and [None] when it rejects, which it does when
    the manager threw or answered with a status outside 200..299. *)
Definition fetchJSON (response : completion Answer) : option Payload :=
  match response with
  | Normal a =>
      if negb (status_ok (answer_status a)) then None
      else if answer_status a =? 204 then Some Nothing
      else Some (answer_body a)
  | Throw _ => None
  end.

(** The url [fetchJSON] builds for a path. *)
Definition manager_url (path : string) : string := "https://nexflow-manager" +:+ path.

(** The request of [fetchJSON] for a path, as it reaches [fetch] of the
    manager: with the pathname of its url.  A url that does not parse is
    an exception, like one of the manager. *)
Definition request (durable : option NexFlowState) (method path : string)
    (body : RequestBody) (w : World)
  : option (completion Answer * option NexFlowState * World) :=
  match URL_pathname (manager_url path) with
  | Throw e => Some (Throw e, durable, w)
  | Normal pathname => fetch durable method pathname body w
  end.

(** [manager.run(id, { trigger: "cron" })]; the scheduler does nothing
    with the record or the error it gets. *)
Definition run_by_cron (id : string) (durable : option NexFlowState) (w : World)
  : option (option NexFlowState * World) :=
  match
    request durable "POST" ("/flows/" +:+ id +:+ "/run")
      (TriggerDocument (Some Runs.cron)) w
  with
  | Some (_, durable, w) => Some (durable, w)
  | None => None
  end.

(** The [for] loop of [tick] over the flows that are left. *)
Fixpoint run_due (now : Cron.Date) (flows : list FlowRecord)
    (durable : option NexFlowState) (w : World)
  : option (option NexFlowState * World) :=
  match flows with
  | [] => Some (durable, w)
  | flow :: rest =>
      if negb (shouldRun flow now) then run_due now rest durable w
      else
        match run_by_cron (id flow) durable w with
        | Some (durable, w) => run_due now rest durable w
        | None => None
        end
  end.

(** [tick()], with the value of [this.running] when it starts and the
    date [now] it reads before its loop: what the durable storage holds
    afterwards, and the world.  [None] where a request to the manager has
    no answer in the model. *)
Definition tick (running : bool) (now : Cron.Date)
    (durable : option NexFlowState) (w : World)
  : option (option NexFlowState * World) :=
  if running then Some (durable, w)
  else
    match request durable "GET" "/flows" NoDocument w with
    | None => None
    | Some (response, durable, w) =>
        match fetchJSON response with
        | Some (Flows flows) =>
            match flows with
            | [] => Some (durable, w)
            | _ => run_due now flows durable w
            end
        | _ => Some (durable, w)
        end
    end.

End Scheduler.
End Scheduler.

(* ===================================================================== *)
(** * Vocabulary of the properties of the store *)
(* ===================================================================== *)

Module StoreProps.
Import JS Platform Schema Manager Router.

(** Every flow is stored under its own id. *)
Definition keyed (s : NexFlowState) : Prop :=
  forall key f, flows s !! key = Some f -> id f = key.

(** No history holds more than fifty runs. *)
Definition bounded (s : NexFlowState) : Prop :=
  forall key runs, history s !! key = Some runs -> (length runs <= 50)%nat.

(** What the durable storage holds is consistent. *)
Definition consistent (durable : option NexFlowState) : Prop :=
  match durable with
  | Some s => keyed s /\ bounded s
  | None => True
  end.

(** No stored flow has the empty id, which is how a flow of the legacy
    format shows. *)
Definition identified (s : NexFlowState) : Prop :=
  forall key f, flows s !! key = Some f -> id f <> EmptyString.

(** No stored flow has an id or a name under which objects inherit a
    member: the migration finds the history of each flow as an entry, or
    finds nothing. *)
Definition plainly_named `{Builtins} (s : NexFlowState) : Prop :=
  forall key f,
    flows s !! key = Some f -> plain (id f) = true /\ plain (flow_name f) = true.

(** The enumeration gives stored flows only. *)
Definition enumerates `{ObjectOrder} : Prop :=
  forall (m : gmap string FlowRecord) (f : FlowRecord),
    In f (Object_values m) -> exists key, m !! key = Some f.

(** The enumeration gives every stored flow. *)
Definition lists_all `{ObjectOrder} : Prop :=
  forall (m : gmap string FlowRecord) (key : string) (f : FlowRecord),
    m !! key = Some f -> In f (Object_values m).

(** The latest run of the flow [id] was started by the scheduler: it is
    the head of the history of the flow, and the flow has its end as last
    run. *)
Definition last_run_by_cron (s : NexFlowState) (id : string) : Prop :=
  exists record rest f,
    history s !! id = Some (record :: rest)
    /\ Runs.trigger record = Some Runs.cron
    /\ Runs.flowId record = id
    /\ flows s !! id = Some f
    /\ lastRunAt f = Some (Runs.finishedAt record).

(** The id a route names, when it names one. *)
Definition route_id (r : Route) : option string :=
  match r with
  | GetFlow id _ | UpdateFlow id _ | DeleteFlow id _
  | SetEnabled id _ | GetLogs id _ | RunFlow id _ => Some id
  | _ => None
  end.

(** The document of the request has the shape its route reads, and the
    route and the document name a flow and no member that objects
    inherit. *)
Definition fits `{Builtins} (r : Route) (body : RequestBody) : Prop :=
  match r with
  | CreateFlow | UpdateFlow _ _ =>
      match body with FlowDocument _ => True | _ => False end
  | SetEnabled _ _ =>
      match body with ToggleDocument _ => True | _ => False end
  | LogRun =>
      match body with
      | RunDocument record => plain (Runs.flowId record) = true
      | _ => False
      end
  | BuiltinFlow _ _ => False
  | _ => True
  end.

(** The url the scheduler builds for a path parses, and its pathname is
    the path as the scheduler wrote it. *)
Definition addressed `{Host} (path : string) : Prop :=
  URL_pathname (Scheduler.manager_url path) = Normal path.

(** The text has no slash. *)
Definition no_slash (s : string) : bool :=
  Str.forallb (fun c => negb (Ascii.eqb c "/")) s.

End StoreProps.

(* ===================================================================== *)
(** * A sample store *)
(* ===================================================================== *)

Module StoreFixtures.
Import JS Platform Schema Manager Router.

(** An enumeration of the stored flows: by key. *)
#[global] Instance key_order : ObjectOrder := {|
  Object_values m := (map_to_list m).*2
|}.

(** A store with one flow that never ran. *)
Definition store : NexFlowState :=
  {| flows := {[ "my-flow" := Sample.my_flow ]}; history := ∅ |}.

(** A store of the legacy format: one flow without an id, stored with its
    runs under its name. *)
Definition legacy : NexFlowState :=
  {| flows :=
       {[ "My Flow!" :=
            {| flow_name := "My Flow!"; flow_schedule := "*/5 * * * *";
               flow_enabled := None; flow_steps := [Sample.shout_step];
               id := EmptyString; createdAt := EmptyString;
               updatedAt := EmptyString; lastRunAt := None |} ]};
     history :=
       {[ "My Flow!" := [Sample.my_run "run-1" "2025-01-01T12:00:01.000Z"] ]} |}.

End StoreFixtures.

(* ===================================================================== *)
(** * Facts about strings *)
(* ===================================================================== *)

Arguments String.append : simpl nomatch.

Module StrFacts.

Lemma app_nil_r (s : string) : s +:+ "" = s.
Proof. induction s as [|c r IH]; simpl; [reflexivity | f_equal; exact IH]. Qed.

Lemma app_assoc (a b c : string) : (a +:+ b) +:+ c = a +:+ (b +:+ c).
Proof. induction a as [|x a IH]; simpl; [reflexivity | f_equal; exact IH]. Qed.

Lemma app_length (a b : string) :
  String.length (a +:+ b) = (String.length a + String.length b)%nat.
Proof. induction a as [|x a IH]; simpl; [reflexivity | f_equal; exact IH]. Qed.

Lemma take_drop_while (p : ascii -> bool) (s : string) :
  Str.take_while p s +:+ Str.drop_while p s = s.
Proof.
  induction s as [|c r IH]; simpl; [reflexivity|].
  destruct (p c); simpl; [now rewrite IH | reflexivity].
Qed.

Lemma drop_while_head (p : ascii -> bool) (s : string) (c : ascii) (r : string) :
  Str.drop_while p s = String c r -> p c = false.
Proof.
  induction s as [|d t IH]; simpl; [discriminate|].
  destruct (p d) eqn:Hd; [exact IH|].
  intros [= <- _]. exact Hd.
Qed.

Lemma take_while_all (p : ascii -> bool) (s : string) :
  Str.forallb p (Str.take_while p s) = true.
Proof.
  induction s as [|c r IH]; simpl; [reflexivity|].
  destruct (p c) eqn:Hc; simpl; [now rewrite Hc | reflexivity].
Qed.

(** A scan that stops inside [s] does not see what follows [s]. *)
Lemma take_while_app (p : ascii -> bool) (s x : string) :
  Str.drop_while p s <> "" ->
  Str.take_while p (s +:+ x) = Str.take_while p s.
Proof.
  induction s as [|c r IH]; simpl; [congruence|].
  destruct (p c); [intros Hne; now rewrite IH | reflexivity].
Qed.

Lemma drop_while_app (p : ascii -> bool) (s x : string) :
  Str.drop_while p s <> "" ->
  Str.drop_while p (s +:+ x) = Str.drop_while p s +:+ x.
Proof.
  induction s as [|c r IH]; simpl; [congruence|].
  destruct (p c); [exact IH | reflexivity].
Qed.

(** A scan over a run of [p] followed by a character outside of [p]. *)
Lemma take_while_run (p : ascii -> bool) (a : string) (c : ascii) (r : string) :
  Str.forallb p a = true -> p c = false ->
  Str.take_while p (a +:+ String c r) = a.
Proof.
  induction a as [|d a IH]; simpl; intros Ha Hc; [now rewrite Hc|].
  apply andb_prop in Ha as [Hd Ha]. rewrite Hd. now rewrite IH.
Qed.

Lemma drop_while_run (p : ascii -> bool) (a : string) (c : ascii) (r : string) :
  Str.forallb p a = true -> p c = false ->
  Str.drop_while p (a +:+ String c r) = String c r.
Proof.
  induction a as [|d a IH]; simpl; intros Ha Hc; [now rewrite Hc|].
  apply andb_prop in Ha as [Hd Ha]. rewrite Hd. now apply IH.
Qed.

Lemma drop_while_stops (p : ascii -> bool) (a : string) (c : ascii) (r : string) :
  p c = false -> Str.drop_while p (a +:+ String c r) <> "".
Proof.
  induction a as [|d a IH]; simpl; intros Hc; [now rewrite Hc|].
  destruct (p d); [now apply IH | discriminate].
Qed.

End StrFacts.

(* ===================================================================== *)
(** * Reading and writing dictionaries *)
(* ===================================================================== *)

Module DictFacts.
Import JS.

Section Dictionaries.
Context `{Builtins}.

Lemma assign_lookup_ne (key key' : string) (v : any) (obj : gmap string any) :
  key' <> key -> assign key v obj !! key' = obj !! key'.
Proof.
  intros Hne. unfold assign.
  destruct (_ && _); [reflexivity|]. now apply lookup_insert_ne.
Qed.

(** An object is assigned whatever the key. *)
Lemma assign_object (key : string) (fields : list (string * any))
    (obj : gmap string any) :
  assign key (VObj fields) obj = <[key := VObj fields]> obj.
Proof. unfold assign. now rewrite andb_false_r. Qed.

(** Another key than [__proto__] is assigned whatever the value. *)
Lemma assign_plain (key : string) (v : any) (obj : gmap string any) :
  key <> proto -> assign key v obj = <[key := v]> obj.
Proof.
  intros Hne. unfold assign.
  destruct (String.eqb_spec key proto) as [->|_]; [congruence | reflexivity].
Qed.

Lemma read_own (obj : gmap string any) (key : string) (v : any) :
  obj !! key = Some v -> is_nullish v = false -> read obj key = v.
Proof.
  intros Hv Hn. unfold read. rewrite Hv, Hn. now rewrite andb_false_r.
Qed.

(** What a read depends on: the entry under the key and the entry under
    [__proto__]. *)
Lemma read_ext (obj obj' : gmap string any) (key : string) :
  obj' !! key = obj !! key -> obj' !! proto = obj !! proto ->
  read obj' key = read obj key.
Proof. intros Hk Hp. unfold read. now rewrite Hk, Hp. Qed.

(** A key that is neither an entry nor inherited reads [undefined] when
    the prototype is the one the dictionary was created with. *)
Lemma read_missing (obj : gmap string any) (key : string) :
  obj !! key = None -> obj !! proto = None ->
  inherited OfObject key = VUndefined ->
  read obj key = VUndefined.
Proof. intros Hk Hp Hi. unfold read. now rewrite Hk, Hp. Qed.

Lemma plain_not_proto (key : string) : plain key = true -> key <> proto.
Proof.
  unfold plain. intros Hp ->. rewrite inherits_proto in Hp. discriminate.
Qed.

Lemma property_own {A : Type} (obj : gmap string A) (key : string) (a : A) :
  obj !! key = Some a -> property obj key = Own a.
Proof. intros Ha. unfold property. now rewrite Ha. Qed.

Lemma property_plain {A : Type} (obj : gmap string A) (key : string) :
  plain key = true ->
  property obj key = match obj !! key with Some a => Own a | None => Absent end.
Proof.
  unfold plain, property. intros Hp. apply negb_true_iff in Hp.
  destruct (obj !! key); [reflexivity|]. now rewrite Hp.
Qed.

Lemma property_absent {A : Type} (obj : gmap string A) (key : string) :
  property obj key = Absent -> obj !! key = None /\ plain key = true.
Proof.
  unfold property, plain. destruct (obj !! key); [discriminate|].
  destruct (truthy _); [discriminate|]. now split.
Qed.

Lemma property_is_own {A : Type} (obj : gmap string A) (key : string) (a : A) :
  property obj key = Own a -> obj !! key = Some a.
Proof.
  unfold property. destruct (obj !! key); [now intros [= <-]|].
  destruct (truthy _); discriminate.
Qed.

Lemma property_inherited {A : Type} (obj : gmap string A) (key : string)
    (member : any) :
  property obj key = Inherited member -> obj !! key = None /\ plain key = false.
Proof.
  unfold property, plain. destruct (obj !! key); [discriminate|].
  destruct (truthy _); [|discriminate]. now split.
Qed.

End Dictionaries.
End DictFacts.
(* ===================================================================== *)
(** * Sanity checks of the JavaScript substrate, on the scripted host *)
(* ===================================================================== *)

Module Checks.
Import Platform.

Example num_to_string_ex1 : JS.num_to_string (JS.Dec 420005 (-1)) = "42000.5".
Proof. vm_compute. reflexivity. Qed.

Example num_to_string_ex2 : JS.num_to_string (JS.Dec 5 0) = "5".
Proof. vm_compute. reflexivity. Qed.

Example num_to_string_ex3 : JS.num_to_string (JS.Dec 1 21) = "1e+21".
Proof. vm_compute. reflexivity. Qed.

Example num_to_string_ex4 : JS.num_to_string (JS.Dec 1 20) = "100000000000000000000".
Proof. vm_compute. reflexivity. Qed.

Example num_to_string_ex5 : JS.num_to_string (JS.Dec (-15) (-8)) = "-1.5e-7".
Proof. vm_compute. reflexivity. Qed.

Example num_to_string_ex6 : JS.num_to_string (JS.Dec 15 (-7)) = "0.0000015".
Proof. vm_compute. reflexivity. Qed.

Example num_to_string_ex7 : JS.num_to_string (JS.Dec 1200 (-2)) = "12".
Proof. vm_compute. reflexivity. Qed.

Example s2n1 : JS.string_to_number " 5.0 " = JS.Dec 50 (-1).
Proof. vm_compute. reflexivity. Qed.

Example s2n2 : JS.string_to_number "0x1F" = JS.Dec 31 0.
Proof. vm_compute. reflexivity. Qed.

Example s2n3 : JS.string_to_number "-1.5e3" = JS.Dec (-15) 2.
Proof. vm_compute. reflexivity. Qed.

Example s2n4 : JS.string_to_number "abc" = JS.NaN.
Proof. vm_compute. reflexivity. Qed.

Example s2n5 : JS.string_to_number "." = JS.NaN.
Proof. vm_compute. reflexivity. Qed.

Example s2n6 : JS.string_to_number ".5" = JS.Dec 5 (-1).
Proof. vm_compute. reflexivity. Qed.

Example s2n7 : JS.string_to_number "5." = JS.Dec 5 0.
Proof. vm_compute. reflexivity. Qed.

Example s2n8 : JS.string_to_number "-Infinity" = JS.NegInf.
Proof. vm_compute. reflexivity. Qed.

Example s2n9 : JS.string_to_number "1e" = JS.NaN.
Proof. vm_compute. reflexivity. Qed.

Example s2n10 : JS.string_to_number "" = JS.Dec 0 0.
Proof. vm_compute. reflexivity. Qed.

Example s2n11 : JS.string_to_number "12px" = JS.NaN.
Proof. vm_compute. reflexivity. Qed.

Example cmp1 : JS.num_eqb (JS.Dec 50 (-1)) (JS.Dec 5 0) = true.
Proof. vm_compute. reflexivity. Qed.

Example to_string_array :
  JS.to_string (JS.VArr [JS.VNum (JS.Dec 1 0); JS.VNull; JS.VStr "a"]) = "1,,a".
Proof. vm_compute. reflexivity. Qed.

Example to_number_array : JS.to_number (JS.VArr [JS.VStr "5"]) = JS.Dec 5 0.
Proof. vm_compute. reflexivity. Qed.

Example stringify_escapes :
  JS.stringify (JS.VStr (String "\" (String "010" (String "034" "x"))))
  = Some (JS.dquote +:+ "\\" +:+ "\n" +:+ "\" +:+ JS.dquote +:+ "x" +:+ JS.dquote).
Proof. vm_compute. reflexivity. Qed.

Example set_prop_order :
  List.map fst (JS.set_prop "1" JS.VNull (JS.set_prop "b" JS.VNull (JS.set_prop "2" JS.VNull [])))
  = ["1"; "2"; "b"].
Proof. vm_compute. reflexivity. Qed.

(** The scenarios of [tests/template.test.ts]. *)
Example template_test_message :
  Template.interpolateTemplate
    (Some "Current BTC price: ${priceFetch.body.price} ${priceFetch.body.meta.currency}")
    Sample.mockResults
  = "Current BTC price: 42000.5 USD".
Proof. vm_compute. reflexivity. Qed.

Example template_test_missing :
  Template.interpolateTemplate (Some "Value: ${missing.step}") Sample.mockResults
  = "Value: [missing missing.step]".
Proof. vm_compute. reflexivity. Qed.

Example template_test_object :
  Template.interpolateTemplate (Some "Payload: ${priceFetch.body}") Sample.mockResults
  = "Payload: {" +:+ JS.dquote +:+ "price" +:+ JS.dquote +:+ ":42000.5,"
    +:+ JS.dquote +:+ "meta" +:+ JS.dquote +:+ ":{" +:+ JS.dquote +:+ "currency"
    +:+ JS.dquote +:+ ":" +:+ JS.dquote +:+ "USD" +:+ JS.dquote +:+ "}}".
Proof. vm_compute. reflexivity. Qed.

Example template_unclosed :
  Template.interpolateTemplate (Some "a ${} b ${x") Sample.mockResults = "a ${} b ${x".
Proof. vm_compute. reflexivity. Qed.

Example trim_ex : Str.trim "  a b  " = "a b".
Proof. vm_compute. reflexivity. Qed.

Example generateFlowId_ex1 : Utils.generateFlowId "My Flow!" = "my-flow".
Proof. vm_compute. reflexivity. Qed.

Example generateFlowId_ex2 : Utils.generateFlowId "--Daily  BTC__price (v2)--" = "daily-btc-price-v2".
Proof. vm_compute. reflexivity. Qed.

Example generateFlowId_ex3 : Utils.generateFlowId "!!!" = "".
Proof. vm_compute. reflexivity. Qed.

Example parseDuration_ex1 : Steps.parseDuration "5m" = JS.Normal (JS.Dec 300000 0).
Proof. vm_compute. reflexivity. Qed.

Example parseDuration_ex2 :
  Steps.parseDuration "5 m"
  = JS.Throw (JS.Error ("Invalid duration format " +:+ JS.dquote +:+ "5 m" +:+ JS.dquote)).
Proof. vm_compute. reflexivity. Qed.

(** ** The scenarios of [scripts/cron-test.ts] on the scripted host *)

Example iso_noon : Sample.parse_iso "2025-01-01T12:00:00Z" = Some 1735732800000.
Proof. vm_compute. reflexivity. Qed.

Example iso_print : Sample.toISOString 1735732800000 = "2025-01-01T12:00:00.000Z".
Proof. vm_compute. reflexivity. Qed.

Example cron_scenario_1 :
  Cron.due (Cron.isDue "*/5 * * * *" (Some "2025-01-01T11:55:00Z")
              (Sample.parse_iso "2025-01-01T12:00:00Z")) = true.
Proof. vm_compute. reflexivity. Qed.

Example cron_scenario_2 :
  Cron.due (Cron.isDue "*/5 * * * *" (Some "2025-01-01T11:55:00Z")
              (Sample.parse_iso "2025-01-01T11:56:00Z")) = false.
Proof. vm_compute. reflexivity. Qed.

Example cron_scenario_3 :
  Cron.due (Cron.isDue "*/15 * * * *" (Some "2025-01-01T11:55:00Z")
              (Sample.parse_iso "2025-01-01T12:00:00Z")) = true.
Proof. vm_compute. reflexivity. Qed.

Example cron_scenario_4 :
  Cron.due (Cron.isDue "0 9 * * *" (Some "2024-12-31T09:00:00Z")
              (Sample.parse_iso "2025-01-01T12:00:00Z")) = true.
Proof. vm_compute. reflexivity. Qed.

Example cron_scenario_5 :
  Cron.due (Cron.isDue "0 12 * * *" None
              (Sample.parse_iso "2025-01-01T12:00:00Z")) = true.
Proof. vm_compute. reflexivity. Qed.

Example cron_invalid :
  Cron.isDue "every day" None (Sample.parse_iso "2025-01-01T12:00:00Z")
  = {| Cron.due := false;
       Cron.warnings := ["[cron] Invalid expression " +:+ JS.dquote +:+ "every day"
                         +:+ JS.dquote +:+ ": Error: Invalid cron expression"] |}.
Proof. vm_compute. reflexivity. Qed.

End Checks.
(* ===================================================================== *)
(** * Interpolation leaves no placeholder unrendered *)
(* ===================================================================== *)

Module TemplateFacts.
Import JS Template Spec.

Lemma has_close_split (s : string) :
  has_close s = true -> exists b1 b2, s = b1 +:+ "}" +:+ b2.
Proof.
  induction s as [|c r IH]; simpl; [discriminate|].
  destruct (Ascii.eqb_spec c "}") as [->|_]; simpl.
  - intros _. now exists "", r.
  - intros Hr. destruct (IH Hr) as (b1 & b2 & ->). now exists (String c b1), b2.
Qed.

Lemma self_contained_closes (s : string) :
  self_contained s = true -> closes_its_placeholders s.
Proof.
  intros Hs a. revert s Hs.
  induction a as [|x a IH]; intros s Hs b ->; simpl in Hs.
  - apply andb_prop in Hs as [Hs _]. now apply has_close_split.
  - apply andb_prop in Hs as [_ Hs]. now apply (IH _ Hs).
Qed.

Lemma replace_placeholders_step (f : string -> string) (c : ascii) (r : string) :
  replace_placeholders f (String c r)
  = match placeholder_at (String c r) with
    | Some (expr, rest) => f expr +:+ replace_placeholders f rest
    | None => String c (replace_placeholders f r)
    end.
Proof.
  rewrite replace_placeholders_equation_2.
  change (placeholder_at (String c r))
    with (proj1_sig (inspect (placeholder_at (String c r)))) at 2.
  destruct (inspect (placeholder_at (String c r))) as [[[expr rest]|] Hm];
    simp replace_placeholders; reflexivity.
Qed.

(** The match at the head of a string, with the tests on the three
    delimiters spelled out. *)
Lemma placeholder_at_cases (s : string) :
  placeholder_at s
  = match s with
    | String c (String d t) =>
        if Ascii.eqb c "$" && Ascii.eqb d "{" then
          match Str.drop_while not_close t with
          | String _ rest =>
              if Str.truthy (Str.take_while not_close t)
              then Some (Str.take_while not_close t, rest) else None
          | EmptyString => None
          end
        else None
    | _ => None
    end.
Proof.
  destruct s as [|c [|d t]].
  - reflexivity.
  - destruct c as [[] [] [] [] [] [] [] []]; reflexivity.
  - destruct c as [[] [] [] [] [] [] [] []]; try reflexivity.
    destruct d as [[] [] [] [] [] [] [] []]; try reflexivity.
    cbn [placeholder_at Ascii.eqb Bool.eqb andb].
    destruct (Str.drop_while not_close t) as [|k rest] eqn:Hd; [reflexivity|].
    apply StrFacts.drop_while_head in Hd. unfold not_close in Hd.
    apply negb_false_iff, Ascii.eqb_eq in Hd. subst k. reflexivity.
Qed.

Lemma closes_suffix (a b : string) :
  closes_its_placeholders (a +:+ b) -> closes_its_placeholders b.
Proof.
  intros H x y ->. apply (H (a +:+ x) y). now rewrite StrFacts.app_assoc.
Qed.

(** A placeholder that closes inside [s] is matched the same way whatever
    follows [s]. *)
Lemma placeholder_at_app_some (s x expr rest : string) :
  placeholder_at s = Some (expr, rest) ->
  placeholder_at (s +:+ x) = Some (expr, rest +:+ x).
Proof.
  rewrite !placeholder_at_cases.
  destruct s as [|c [|d t]]; try discriminate. simpl.
  destruct (Ascii.eqb c "$" && Ascii.eqb d "{"); [|discriminate].
  destruct (Str.drop_while not_close t) as [|k r] eqn:Hd; [discriminate|].
  assert (Hne : Str.drop_while not_close t <> "") by (rewrite Hd; discriminate).
  rewrite StrFacts.drop_while_app, StrFacts.take_while_app, Hd by exact Hne.
  simpl. destruct (Str.truthy _); [|discriminate].
  now intros [= <- <-].
Qed.

(** No match starts at the head of a self-contained text that has none,
    when a ["$"] follows the text. *)
Lemma placeholder_at_app_none (c : ascii) (r x : string) :
  closes_its_placeholders (String c r) ->
  placeholder_at (String c r) = None ->
  placeholder_at (String c r +:+ String "$" x) = None.
Proof.
  intros Hs. rewrite !placeholder_at_cases.
  destruct r as [|d t]; simpl.
  - intros _. destruct (Ascii.eqb c "$"); reflexivity.
  - destruct (Ascii.eqb c "$" && Ascii.eqb d "{") eqn:Hcd; [|reflexivity].
    apply andb_prop in Hcd as [Hc Hd].
    apply Ascii.eqb_eq in Hc, Hd. subst c d.
    assert (Hne : Str.drop_while not_close t <> "").
    { destruct (Hs "" t eq_refl) as (b1 & b2 & ->).
      apply StrFacts.drop_while_stops. reflexivity. }
    rewrite (StrFacts.drop_while_app _ t), (StrFacts.take_while_app _ t) by exact Hne.
    destruct (Str.drop_while not_close t); [congruence|].
    simpl. destruct (Str.truthy _); [discriminate | reflexivity].
Qed.

(** A placeholder that follows a self-contained text is rendered on its
    own, and the search goes on after it. *)
Lemma replace_placeholders_split (f : string -> string) (expr post : string) :
  expr <> "" -> Str.forallb not_close expr = true ->
  forall pre, closes_its_placeholders pre ->
  replace_placeholders f (pre +:+ "${" +:+ expr +:+ "}" +:+ post)
  = replace_placeholders f pre +:+ f expr +:+ replace_placeholders f post.
Proof.
  intros Hne Hex pre.
  remember (String.length pre) as n eqn:Hn.
  revert pre Hn. induction n as [n IH] using lt_wf_ind. intros pre Hn Hpre.
  destruct pre as [|c r].
  - simpl. rewrite replace_placeholders_step, placeholder_at_cases. simpl.
    rewrite StrFacts.take_while_run, StrFacts.drop_while_run by (exact Hex || reflexivity).
    destruct expr; [congruence|]. simpl. simp replace_placeholders. reflexivity.
  - change ((String c r) +:+ "${" +:+ expr +:+ "}" +:+ post)
      with (String c r +:+ String "$" ("{" +:+ expr +:+ "}" +:+ post)).
    rewrite (replace_placeholders_step f c r).
    destruct (placeholder_at (String c r)) as [[e rest]|] eqn:Hm.
    + pose proof (placeholder_at_app_some _ (String "$" ("{" +:+ expr +:+ "}" +:+ post)) _ _ Hm) as Hm'.
      simpl in Hm'. simpl. rewrite replace_placeholders_step. simpl. rewrite Hm'.
      rewrite StrFacts.app_assoc. f_equal.
      assert (Hsplit : exists a, String c r = a +:+ rest /\ (String.length rest < String.length (String c r))%nat).
      { rewrite placeholder_at_cases in Hm.
        destruct r as [|d t]; [discriminate|].
        destruct (Ascii.eqb c "$" && Ascii.eqb d "{"); [|discriminate].
        pose proof (StrFacts.take_drop_while not_close t) as Htd.
        destruct (Str.drop_while not_close t) as [|k r'] eqn:Hd; [discriminate|].
        destruct (Str.truthy _); [|discriminate].
        injection Hm as <- <-.
        exists (String c (String d (Str.take_while not_close t +:+ String k ""))).
        split.
        - simpl. rewrite StrFacts.app_assoc. simpl. now rewrite Htd.
        - rewrite <- Htd. simpl. rewrite StrFacts.app_length. simpl. lia. }
      destruct Hsplit as (a & Ha & Hlen).
      apply (IH (String.length rest)); [lia | reflexivity |].
      rewrite Ha in Hpre. now apply closes_suffix in Hpre.
    + pose proof (placeholder_at_app_none _ _ ("{" +:+ expr +:+ "}" +:+ post) Hpre Hm) as Hm'.
      simpl in Hm'. simpl. rewrite replace_placeholders_step. simpl. rewrite Hm'.
      f_equal.
      apply (IH (String.length r)); [simpl in Hn; lia | reflexivity |].
      now apply (closes_suffix (String c "") r).
Qed.

(** ** Missing paths *)

Section Missing.
Context `{Builtins}.






Lemma interpolateTemplate_some (t : string) (results : gmap string any) :
  interpolateTemplate (Some t) results = replace_placeholders (render results) t.
Proof.
  destruct t; [now simp replace_placeholders | reflexivity].
Qed.


End Missing.

#[local] Existing Instance Sample.builtins.



End TemplateFacts.

(* ===================================================================== *)
(** * The step interpreter: short circuits and failures *)
(* ===================================================================== *)

Module StepsFacts.
Import JS Platform Schema Steps Spec.

(** Unfolds the operations of the interpreter's monad. *)
Ltac unfold_monad :=
  unfold try_catch, bind, ret, throw, lift, get_context, push_log, set_result,
    now, fetch_call, wait.

Section Execution.
Context {World : Type} `{Runtime World} `{Host}.

Lemma proceeds_length (steps : list Step) (c : ExecContext) (w : World) entries c' w' :
  proceeds steps c w entries c' w' -> length entries = length steps.
Proof. induction 1; simpl; congruence. Qed.

Lemma store_output_normal (step : Step) (output : any) (c : ExecContext) (w : World) :
  exists c', store_output step output c w = (Normal tt, c', w)
             /\ logs c' = logs c
             /\ (forall key, key <> step_id step -> results c' !! key = results c !! key).
Proof.
  destruct step; simpl; unfold set_result, ret; eexists; (split; [reflexivity|]);
    split; try reflexivity; intros key Hk; simpl; try reflexivity.
  now rewrite DictFacts.assign_lookup_ne.
Qed.

(** A step the loop goes past is recorded under its own id, with an output
    and no error. *)
Lemma iteration_next_entry (step : Step) (c : ExecContext) (w : World) entry c' w' :
  iteration step c w = (Normal (Next entry), c', w') ->
  stepId entry = step_id step /\ error entry = None /\ is_Some (output entry).
Proof.
  unfold iteration, try_catch, bind.
  destruct (dispatch step c w) as [[[r|e] c1] w1].
  - destruct r as [output|halted]; [|discriminate].
    destruct (store_output_normal step output c1 w1) as (c2 & -> & _).
    unfold now, ret. destruct (now_iso w1) as [t w3]. intros [= <- _ _]. simpl. eauto.
  - unfold push_log, now, ret. destruct (now_iso w1). discriminate.
Qed.

Lemma proceeds_ids (steps : list Step) (c : ExecContext) (w : World) entries c' w' :
  proceeds steps c w entries c' w' ->
  List.map stepId entries = List.map step_id steps.
Proof.
  induction 1 as [|step steps c w entry c1 w1 entries c2 w2 Hit _ IH]; simpl; [reflexivity|].
  apply iteration_next_entry in Hit as [-> _]. now rewrite IH.
Qed.

(** Once the steps of [pre] have been gone past, the loop is at the steps
    that follow them. *)
Lemma executeSteps_from_proceeds (pre rest : list Step) acc (c : ExecContext) (w : World) entries c' w' :
  proceeds pre c w entries c' w' ->
  executeSteps_from (pre ++ rest) acc c w
  = executeSteps_from rest (acc ++ entries) c' w'.
Proof.
  intros Hp. revert acc.
  induction Hp as [|step steps c w entry c1 w1 entries c2 w2 Hit _ IH]; intros acc.
  - now rewrite app_nil_r.
  - simpl. unfold bind at 1. rewrite Hit. rewrite IH.
    now rewrite <- app_assoc.
Qed.

(** [every(Boolean)] and [some(Boolean)] over the mapped conditions. *)
Lemma forallb_map_id {A} (f : A -> bool) l :
  List.forallb (fun b => b) (List.map f l) = List.forallb f l.
Proof. induction l; simpl; congruence. Qed.

Lemma existsb_map_id {A} (f : A -> bool) l :
  List.existsb (fun b => b) (List.map f l) = List.existsb f l.
Proof. induction l; simpl; congruence. Qed.

(** An iteration at a condition or logic step that evaluates to false:
    two lines are logged, the result is recorded, and the loop returns
    with success. *)
Lemma iteration_false (step : Step) (c : ExecContext) (w : World) :
  verdict step c = Some false ->
  exists line1 line2,
    iteration step c w
    = (Normal (Return true {| stepId := step_type step;
                              output := Some (VBool false);
                              error := None;
                              timestamp := fst (now_iso w) |}),
       {| results := results c; logs := logs c ++ [line1; line2] |},
       snd (now_iso w)).
Proof.
  destruct step as [f|r|l|d|l|n]; simpl; try discriminate.
  - intros [= Hv].
    unfold iteration, dispatch, executeCondition, halt. unfold_monad. simpl.
    rewrite Hv. simpl. destruct (now_iso w) as [t w1]. simpl.
    rewrite <- app_assoc. simpl. eauto.
  - intros Hv.
    assert (Hr : match logic_mode l with
                 | AND => List.forallb (fun b => b) (List.map (fun r => evaluateRule r c) (logic_conditions l))
                 | OR => List.existsb (fun b => b) (List.map (fun r => evaluateRule r c) (logic_conditions l))
                 end = false).
    { rewrite forallb_map_id, existsb_map_id. destruct (logic_mode l); congruence. }
    unfold iteration, dispatch, executeLogic, halt. unfold_monad. simpl.
    rewrite Hr. simpl. destruct (now_iso w) as [t w1]. simpl.
    rewrite <- app_assoc. simpl. eauto.
Qed.

(** C1. When the steps before a condition or logic step have all been
    executed and that step evaluates to false, [executeSteps] returns at
    once with [success = true]: the results are those of the steps before,
    one per step, followed by the result of the condition or logic step,
    whose output is [false]; there is no result for any later step, the
    results map is as the steps before left it, and the only effects after
    them are two log lines and one reading of the clock. *)
Theorem false_condition_stops_with_success
    (pre : list Step) (step : Step) (post : list Step)
    (c : ExecContext) (w : World)
    (entries : list StepExecutionResult) (c1 : ExecContext) (w1 : World) :
  proceeds pre c w entries c1 w1 ->
  verdict step c1 = Some false ->
  exists line1 line2,
    let entry := {| stepId := step_type step; output := Some (VBool false);
                    error := None; timestamp := fst (now_iso w1) |} in
    executeSteps (pre ++ step :: post) c w
    = (Normal {| success := true; stepResults := entries ++ [entry] |},
       {| results := results c1; logs := logs c1 ++ [line1; line2] |},
       snd (now_iso w1))
    /\ length (entries ++ [entry]) = S (length pre)
    /\ List.map stepId (entries ++ [entry]) = List.map step_id (pre ++ [step]).
Proof.
  intros Hp Hv.
  destruct (iteration_false step c1 w1 Hv) as (l1 & l2 & Hit).
  exists l1, l2. cbv zeta. split; [|split].
  - unfold executeSteps. rewrite (executeSteps_from_proceeds _ _ _ _ _ _ _ _ Hp).
    simpl. unfold bind. rewrite Hit. reflexivity.
  - rewrite length_app, (proceeds_length _ _ _ _ _ _ Hp). simpl. lia.
  - rewrite !map_app, (proceeds_ids _ _ _ _ _ _ Hp). simpl.
    destruct step; try discriminate; reflexivity.
Qed.

(** ** Failures *)

(** An iteration at a fetch step whose request is rejected: the error is
    logged and recorded, nothing is stored, and the loop returns with
    failure.  An abort is reported with the timeout message of the step,
    any other rejection with its own message. *)
Lemma iteration_fetch_rejected (f : FetchStep) (c : ExecContext) (w : World)
    (e : thrown) (w' : World) :
  http_fetch (fetch_request f) w = (Throw e, w') ->
  let message := if is_abort e then timeout_message f else error_message e in
  iteration (StepFetch f) c w
  = (Normal (Return false {| stepId := fetch_id f; output := None;
                             error := Some message;
                             timestamp := fst (now_iso w') |}),
     {| results := results c;
        logs := logs c ++ ["[fetch] Error: " +:+ message] |},
     snd (now_iso w')).
Proof.
  intros Hf.
  unfold iteration, dispatch, executeFetch. unfold_monad. rewrite Hf.
  destruct (is_abort e) eqn:Ha; simpl;
    destruct (now_iso w') as [t w2]; reflexivity.
Qed.

(** C6. When the steps before a fetch step have all been executed, the
    step has a timeout and its request is aborted, [executeSteps] returns
    with [success = false]; the last result is the one of the fetch step
    and carries the error [Request timed out after <timeout>ms], whatever
    the abort itself said; no later step is executed, and the results map
    is as the steps before left it: nothing is stored under the id of the
    step. *)
Theorem fetch_timeout_fails_the_run
    (pre : list Step) (f : FetchStep) (post : list Step)
    (c : ExecContext) (w : World)
    (entries : list StepExecutionResult) (c1 : ExecContext) (w1 : World)
    (t : number) (reason : string) (w2 : World) :
  proceeds pre c w entries c1 w1 ->
  fetch_timeout_ms f = Some t ->
  num_truthy t = true ->
  http_fetch (fetch_request f) w1 = (Throw (ErrorObject "AbortError" reason), w2) ->
  let message := "Request timed out after " +:+ num_to_string t +:+ "ms" in
  let entry := {| stepId := fetch_id f; output := None; error := Some message;
                  timestamp := fst (now_iso w2) |} in
  req_timeout (fetch_request f) = Some t
  /\ executeSteps (pre ++ StepFetch f :: post) c w
     = (Normal {| success := false; stepResults := entries ++ [entry] |},
        {| results := results c1;
           logs := logs c1 ++ ["[fetch] Error: " +:+ message] |},
        snd (now_iso w2))
  /\ length (entries ++ [entry]) = S (length pre).
Proof.
  intros Hp Ht Htruthy Hf. cbv zeta. split; [|split].
  - unfold fetch_request. simpl. now rewrite Ht, Htruthy.
  - unfold executeSteps. rewrite (executeSteps_from_proceeds _ _ _ _ _ _ _ _ Hp).
    simpl. unfold bind.
    rewrite (iteration_fetch_rejected f c1 w1 _ _ Hf). simpl.
    unfold timeout_message. rewrite Ht. reflexivity.
  - rewrite length_app, (proceeds_length _ _ _ _ _ _ Hp). simpl. lia.
Qed.

(** ** The interpreter does not throw *)

Lemma iteration_normal (step : Step) (c : ExecContext) (w : World) :
  exists it c' w', iteration step c w = (Normal it, c', w').
Proof.
  unfold iteration, try_catch, bind.
  destruct (dispatch step c w) as [[[r|e] c1] w1].
  - destruct r as [output|entry].
    + destruct (store_output_normal step output c1 w1) as (c2 & -> & _).
      unfold now, ret. destruct (now_iso w1). eauto.
    + unfold ret. eauto.
  - unfold push_log, now, ret. destruct (now_iso w1). eauto.
Qed.

Lemma executeSteps_from_normal (steps : list Step) acc (c : ExecContext) (w : World) :
  exists outcome c' w', executeSteps_from steps acc c w = (Normal outcome, c', w').
Proof.
  revert acc c w. induction steps as [|step steps IH]; intros acc c w; simpl.
  - unfold ret. eauto.
  - unfold bind at 1.
    destruct (iteration_normal step c w) as (it & c1 & w1 & ->).
    destruct it; [apply IH | unfold ret; eauto].
Qed.

Lemma executeSteps_normal (steps : list Step) (c : ExecContext) (w : World) :
  exists outcome c' w', executeSteps steps c w = (Normal outcome, c', w').
Proof. apply executeSteps_from_normal. Qed.

(** ** Early success is a short circuit *)

Lemma dispatch_halted (step : Step) (c : ExecContext) (w : World) entry c' w' :
  dispatch step c w = (Normal (Halted entry), c', w') ->
  verdict step c = Some false.
Proof.
  destruct step as [f|r|l|d|l|n]; unfold dispatch, bind.
  - destruct (executeFetch f c w) as [[[?|?] ?] ?]; discriminate.
  - unfold executeCondition, bind, get_context, push_log, ret. simpl.
    destruct (evaluateRule r c); simpl; [discriminate | reflexivity].
  - unfold executeLogic, bind, get_context, push_log, ret. simpl.
    rewrite forallb_map_id, existsb_map_id.
    destruct (logic_mode l);
      match goal with |- context [negb ?b] => destruct b end;
      simpl; (discriminate || reflexivity).
  - destruct (executeDelay d c w) as [[[?|?] ?] ?]; discriminate.
  - destruct (executeLog l c w) as [[[?|?] ?] ?]; discriminate.
  - destruct (executeNotify n c w) as [[[?|?] ?] ?]; discriminate.
Qed.

Lemma iteration_return_true (step : Step) (c : ExecContext) (w : World) entry c' w' :
  iteration step c w = (Normal (Return true entry), c', w') ->
  verdict step c = Some false.
Proof.
  unfold iteration, try_catch, bind.
  destruct (dispatch step c w) as [[[r|e] c1] w1] eqn:Hd.
  - destruct r as [output|halted].
    + destruct (store_output_normal step output c1 w1) as (c2 & -> & _).
      unfold now, ret. destruct (now_iso w1). discriminate.
    + intros _. exact (dispatch_halted _ _ _ _ _ _ Hd).
  - unfold push_log, now, ret. destruct (now_iso w1). discriminate.
Qed.

(** X4. A run that reports success either executed every step, or stopped at
    a condition or logic step that evaluated to false. *)
Lemma success_is_completion_or_short_circuit
    (steps : list Step) (c : ExecContext) (w : World)
    (entries : list StepExecutionResult) (c' : ExecContext) (w' : World) :
  executeSteps steps c w
  = (Normal {| success := true; stepResults := entries |}, c', w') ->
  proceeds steps c w entries c' w'
  \/ exists pre step post done c1 w1,
       steps = pre ++ step :: post
       /\ proceeds pre c w done c1 w1
       /\ verdict step c1 = Some false
       /\ length entries = S (length pre).
Proof.
  unfold executeSteps.
  enough (Hgen : forall acc,
    executeSteps_from steps acc c w
    = (Normal {| success := true; stepResults := entries |}, c', w') ->
    exists rest, entries = acc ++ rest
    /\ (proceeds steps c w rest c' w'
        \/ exists pre step post done c1 w1,
             steps = pre ++ step :: post
             /\ proceeds pre c w done c1 w1
             /\ verdict step c1 = Some false
             /\ length rest = S (length pre))).
  { intros Hrun. destruct (Hgen [] Hrun) as (rest & -> & Hcases). exact Hcases. }
  revert c w. induction steps as [|step steps IH]; intros c w acc; simpl.
  - unfold ret. intros [= <- <- <-]. exists []. rewrite app_nil_r.
    split; [reflexivity | left; constructor].
  - unfold bind at 1.
    destruct (iteration step c w) as [[[it|e] c1] w1] eqn:Hit; [|discriminate].
    destruct it as [entry|ok entry].
    + intros Hrun. destruct (IH _ _ _ Hrun) as (rest & -> & Hcases).
      exists (entry :: rest). rewrite <- app_assoc. split; [reflexivity|].
      destruct Hcases as [Hp | (pre & s & post & done & c2 & w2 & -> & Hp & Hv & Hlen)].
      * left. econstructor; eassumption.
      * right. exists (step :: pre), s, post, (entry :: done), c2, w2.
        repeat split; [econstructor; eassumption | assumption | simpl; lia].
    + unfold ret. intros [= -> <- <- <-].
      exists [entry]. split; [reflexivity|]. right.
      exists [], step, steps, [], c, w.
      repeat split; [constructor | exact (iteration_return_true _ _ _ _ _ _ Hit)].
Qed.

End Execution.

Lemma false_condition_stops_with_success_witness :
  exists entries c1 w1 line1 line2,
    proceeds [Sample.price_step] Sample.fresh Sample.noon entries c1 w1
    /\ verdict Sample.cheap_step c1 = Some false
    /\ executeSteps ([Sample.price_step] ++ Sample.cheap_step :: [Sample.shout_step])
         Sample.fresh Sample.noon
       = (Normal {| success := true;
                    stepResults :=
                      entries ++ [{| stepId := "condition";
                                     output := Some (VBool false);
                                     error := None;
                                     timestamp := fst (now_iso w1) |}] |},
          {| results := results c1; logs := logs c1 ++ [line1; line2] |},
          snd (now_iso w1)).
Proof.
  assert (Hp : { r : list StepExecutionResult * ExecContext * Sample.World
               | proceeds [Sample.price_step] Sample.fresh Sample.noon
                   (fst (fst r)) (snd (fst r)) (snd r)
                 /\ verdict Sample.cheap_step (snd (fst r)) = Some false }).
  { eexists (_, _, _). simpl. split.
    - econstructor; [vm_compute; reflexivity | constructor].
    - vm_compute. reflexivity. }
  destruct Hp as [[[entries c1] w1] [Hp Hv]]. simpl in Hp, Hv.
  destruct (false_condition_stops_with_success
              [Sample.price_step] Sample.cheap_step [Sample.shout_step]
              Sample.fresh Sample.noon entries c1 w1 Hp Hv)
    as (line1 & line2 & Hrun & _).
  exists entries, c1, w1, line1, line2. auto.
Defined.

Lemma fetch_timeout_fails_the_run_witness :
  let message := "Request timed out after 1000ms" in
  exists w2,
    http_fetch (fetch_request Sample.slow_fetch) Sample.noon
    = (Throw (ErrorObject "AbortError" "The operation was aborted"), w2)
    /\ executeSteps ([] ++ StepFetch Sample.slow_fetch :: [Sample.shout_step])
         Sample.fresh Sample.noon
       = (Normal {| success := false;
                    stepResults :=
                      [] ++ [{| stepId := "slow"; output := None;
                                error := Some message;
                                timestamp := fst (now_iso w2) |}] |},
          {| results := ∅; logs := [] ++ ["[fetch] Error: " +:+ message] |},
          snd (now_iso w2)).
Proof.
  eexists. split; [vm_compute; reflexivity|].
  refine (proj1 (proj2 (fetch_timeout_fails_the_run
            [] Sample.slow_fetch [Sample.shout_step] Sample.fresh Sample.noon
            [] Sample.fresh Sample.noon (Dec 1000 0) "The operation was aborted" _
            _ _ _ _))).
  - constructor.
  - reflexivity.
  - reflexivity.
  - vm_compute. reflexivity.
Defined.

End StepsFacts.

(* ===================================================================== *)
(** * Rules: ordering operators and loose equality *)
(* ===================================================================== *)

Module RuleFacts.
Import JS Schema Steps Spec.

Section OnTheScriptedHost.
#[local] Existing Instance Sample.builtins.

(** ["5" = 5]: a string from the results and a numeric target. *)
Example five_equals_five :
  evaluateRule {| input := "x"; operator := OpEq; value := SNum (Dec 5 0) |}
    {| results := {[ "x" := VStr "5" ]}; logs := [] |} = true.
Proof. vm_compute. reflexivity. Qed.

(** C5, as stated, fails: with the operator [=], the value ["5.0"] and the
    target ["5"] both parse as numeric and are equal as numbers, and the
    rule evaluates to false, because two strings are compared as text. *)
Lemma equality_of_numeric_strings_is_textual :
  isNaN (to_number (Template.getDeepValue (results Sample.five_point_zero) "x")) = false
  /\ isNaN (to_number (scalar_value (SStr "5"))) = false
  /\ numeric_or_string OpEq
       (Template.getDeepValue (results Sample.five_point_zero) "x") (SStr "5") = true
  /\ evaluateRule Sample.equals_five Sample.five_point_zero = false
  /\ ~ (forall rule context,
          evaluateRule rule context
          = numeric_or_string (operator rule)
              (Template.getDeepValue (results context) (input rule))
              (Schema.value rule)).
Proof.
  split; [vm_compute; reflexivity|].
  split; [vm_compute; reflexivity|].
  split; [vm_compute; reflexivity|].
  split; [vm_compute; reflexivity|].
  intros Hall. specialize (Hall Sample.equals_five Sample.five_point_zero).
  vm_compute in Hall. discriminate.
Qed.

End OnTheScriptedHost.

Section Comparison.
Context `{Builtins}.

(** C5, amended. With [<], [>], [<=] and [>=] a rule compares its two
    operands (the value found in the results under the dotted input path,
    and the target) as numbers when both are numeric, and as strings
    otherwise.  With [=] and [!=] it uses loose equality and its
    negation: a number and a string are compared as numbers, in either
    order, so that ["5" = 5] holds, and two strings are compared as text. *)
Theorem evaluateRule_comparison (rule : ConditionRule) (context : ExecContext) :
  let value := Template.getDeepValue (results context) (input rule) in
  let target := Schema.value rule in
  match operator rule with
  | OpEq => evaluateRule rule context = loose_eq value target
  | OpNe => evaluateRule rule context = negb (loose_eq value target)
  | op => evaluateRule rule context = numeric_or_string op value target
  end
  /\ (forall n s, loose_eq (VNum n) (SStr s) = num_eqb n (string_to_number s))
  /\ (forall s n, loose_eq (VStr s) (SNum n) = num_eqb (string_to_number s) n)
  /\ (forall n m, loose_eq (VNum n) (SNum m) = num_eqb n m)
  /\ (forall s1 s2, loose_eq (VStr s1) (SStr s2) = String.eqb s1 s2)
  /\ loose_eq (VStr "5") (SNum (Dec 5 0)) = true.
Proof.
  cbv zeta. split; [|repeat split; try reflexivity].
  unfold evaluateRule, numeric_or_string.
  destruct (operator rule); try reflexivity;
    destruct (negb (isNaN _) && negb (isNaN _)); reflexivity.
Qed.

End Comparison.

End RuleFacts.

(* ===================================================================== *)
(** * Flow ids *)
(* ===================================================================== *)

Module UtilsFacts.
Import JS Platform Schema Steps Runs Utils Spec.

(** ** The shape of a flow id *)

Lemma is_dash_eq (c : ascii) : is_dash c = true -> c = "-"%char.
Proof. unfold is_dash. apply Ascii.eqb_eq. Qed.

Lemma no_double_dash_cons (c d : ascii) (r : string) :
  no_double_dash (String c (String d r))
  = negb (Ascii.eqb c "-" && Ascii.eqb d "-") && no_double_dash (String d r).
Proof. reflexivity. Qed.

Section Runs.
Variable p : ascii -> bool.
Variable by_ : string.

Lemma replace_runs_keep (c : ascii) (r : string) :
  p c = false -> replace_runs p by_ (String c r) = String c (replace_runs p by_ r).
Proof. intros Hc. simpl. now rewrite Hc. Qed.

Lemma replace_runs_last (c : ascii) :
  p c = true -> replace_runs p by_ (String c "") = by_.
Proof. intros Hc. simpl. now rewrite Hc. Qed.

Lemma replace_runs_inside (c d : ascii) (r : string) :
  p c = true -> p d = true ->
  replace_runs p by_ (String c (String d r)) = replace_runs p by_ (String d r).
Proof.
  intros Hc Hd.
  change (replace_runs p by_ (String c (String d r)))
    with (if p c then if p d then replace_runs p by_ (String d r)
                      else by_ +:+ replace_runs p by_ (String d r)
          else String c (replace_runs p by_ (String d r))).
  now rewrite Hc, Hd.
Qed.

Lemma replace_runs_end (c d : ascii) (r : string) :
  p c = true -> p d = false ->
  replace_runs p by_ (String c (String d r))
  = by_ +:+ String d (replace_runs p by_ r).
Proof.
  intros Hc Hd.
  change (replace_runs p by_ (String c (String d r)))
    with (if p c then if p d then replace_runs p by_ (String d r)
                      else by_ +:+ replace_runs p by_ (String d r)
          else String c (replace_runs p by_ (String d r))).
  now rewrite Hc, Hd, replace_runs_keep.
Qed.

End Runs.

Section DashRuns.
Variable p : ascii -> bool.
Hypothesis p_dash : p "-" = true.

Lemma outside_not_dash (c : ascii) : p c = false -> Ascii.eqb c "-" = false.
Proof.
  intros Hc. destruct (Ascii.eqb_spec c "-") as [->|]; [congruence | reflexivity].
Qed.

Lemma replace_runs_no_double_dash (s : string) :
  no_double_dash (replace_runs p "-" s) = true.
Proof.
  induction s as [|c r IH]; [reflexivity|].
  destruct (p c) eqn:Hc.
  - destruct r as [|d t]; [now rewrite replace_runs_last|].
    destruct (p d) eqn:Hd.
    + now rewrite replace_runs_inside.
    + rewrite replace_runs_end by assumption.
      rewrite replace_runs_keep in IH by assumption.
      change ("-" +:+ String d (replace_runs p "-" t))
        with (String "-" (String d (replace_runs p "-" t))).
      rewrite no_double_dash_cons, IH, (outside_not_dash d Hd). reflexivity.
  - rewrite replace_runs_keep by assumption.
    destruct (replace_runs p "-" r) as [|d t] eqn:Hr; [reflexivity|].
    rewrite no_double_dash_cons, IH, (outside_not_dash c Hc). reflexivity.
Qed.

Lemma replace_runs_chars (s : string) :
  Str.forallb (fun c => negb (p c) || Ascii.eqb c "-") (replace_runs p "-" s) = true.
Proof.
  induction s as [|c r IH]; [reflexivity|].
  destruct (p c) eqn:Hc.
  - destruct r as [|d t].
    { rewrite replace_runs_last by assumption. simpl. now rewrite orb_true_r. }
    destruct (p d) eqn:Hd.
    + now rewrite replace_runs_inside.
    + rewrite replace_runs_end by assumption.
      rewrite replace_runs_keep in IH by assumption.
      change ("-" +:+ String d (replace_runs p "-" t))
        with (String "-" (String d (replace_runs p "-" t))).
      change (Str.forallb ?f (String "-" ?x))
        with (f "-"%char && Str.forallb f x).
      rewrite IH. cbv beta. now rewrite orb_true_r.
  - rewrite replace_runs_keep by assumption. simpl. now rewrite Hc, IH.
Qed.

End DashRuns.


Lemma no_double_dash_tail (c : ascii) (r : string) :
  no_double_dash (String c r) = true -> no_double_dash r = true.
Proof. destruct r; simpl; [reflexivity|]. intros H. now apply andb_prop in H. Qed.

Lemma drop_while_no_double_dash (q : ascii -> bool) (s : string) :
  no_double_dash s = true -> no_double_dash (Str.drop_while q s) = true.
Proof.
  induction s as [|c r IH]; [reflexivity|]. intros H. simpl.
  destruct (q c); [|exact H]. apply IH. now apply no_double_dash_tail in H.
Qed.

(** What [drop_while_end] keeps is a prefix. *)
Lemma drop_while_end_head (q : ascii -> bool) (s : string) (d : ascii) (t : string) :
  Str.drop_while_end q s = String d t -> exists t0, s = String d t0.
Proof.
  destruct s as [|c r]; simpl; [discriminate|].
  destruct (Str.drop_while_end q r).
  - destruct (q c); [discriminate|]. intros [= <- _]. eauto.
  - intros [= <- _]. eauto.
Qed.

Lemma drop_while_end_no_double_dash (q : ascii -> bool) (s : string) :
  no_double_dash s = true -> no_double_dash (Str.drop_while_end q s) = true.
Proof.
  induction s as [|c r IH]; [reflexivity|]. intros H.
  pose proof (IH (no_double_dash_tail _ _ H)) as IHr. simpl.
  destruct (Str.drop_while_end q r) as [|d t] eqn:Hr.
  - destruct (q c); reflexivity.
  - destruct (drop_while_end_head _ _ _ _ Hr) as [t0 ->].
    simpl in H |- *. apply andb_prop in H as [-> _]. exact IHr.
Qed.

Lemma collapse_dashes_id (s : string) :
  no_double_dash s = true -> collapse_dashes s = s.
Proof.
  unfold collapse_dashes.
  induction s as [|c r IH]; [reflexivity|]. intros H.
  pose proof (IH (no_double_dash_tail _ _ H)) as IHr.
  destruct (is_dash c) eqn:Hc.
  - apply is_dash_eq in Hc. subst c.
    destruct r as [|d t]; [reflexivity|].
    rewrite no_double_dash_cons in H. apply andb_prop in H as [H _].
    assert (Hd : is_dash d = false)
      by (unfold is_dash; destruct (Ascii.eqb d "-"); [discriminate | reflexivity]).
    rewrite replace_runs_end by (assumption || reflexivity).
    rewrite replace_runs_keep in IHr by assumption. now rewrite IHr.
  - rewrite replace_runs_keep by assumption. now rewrite IHr.
Qed.

Lemma dash_not_alnum : not_alnum "-" = true.
Proof. reflexivity. Qed.

(** The last pass of [generateFlowId] has nothing left to do. *)
Lemma generateFlowId_passes (name : string) :
  generateFlowId name
  = strip_dashes (replace_runs not_alnum "-" (Str.toLowerCase name)).
Proof.
  unfold generateFlowId. apply collapse_dashes_id. unfold strip_dashes.
  apply drop_while_end_no_double_dash, drop_while_no_double_dash.
  apply replace_runs_no_double_dash, dash_not_alnum.
Qed.

Lemma forallb_drop_while (f q : ascii -> bool) (s : string) :
  Str.forallb f s = true -> Str.forallb f (Str.drop_while q s) = true.
Proof.
  induction s as [|c r IH]; [reflexivity|]. intros H. simpl.
  destruct (q c); [|exact H]. simpl in H. apply andb_prop in H as [_ H]. auto.
Qed.

Lemma forallb_drop_while_end (f q : ascii -> bool) (s : string) :
  Str.forallb f s = true -> Str.forallb f (Str.drop_while_end q s) = true.
Proof.
  induction s as [|c r IH]; [reflexivity|]. simpl. intros H.
  apply andb_prop in H as [Hc Hr]. specialize (IH Hr).
  destruct (Str.drop_while_end q r).
  - destruct (q c); simpl; [reflexivity | now rewrite Hc].
  - simpl in IH |- *. now rewrite Hc, IH.
Qed.

Lemma drop_while_end_last (s : string) :
  ends_with_dash (Str.drop_while_end is_dash s) = false.
Proof.
  induction s as [|c r IH]; [reflexivity|]. simpl.
  destruct (Str.drop_while_end is_dash r) as [|d t] eqn:Hr.
  - destruct (is_dash c) eqn:Hc; [reflexivity|]. exact Hc.
  - exact IH.
Qed.

Lemma drop_while_end_first (s : string) :
  starts_with "-" s = false ->
  starts_with "-" (Str.drop_while_end is_dash s) = false.
Proof.
  destruct s as [|c r]; [reflexivity|]. simpl. intros Hc.
  destruct (Str.drop_while_end is_dash r); [|exact Hc].
  destruct (is_dash c); [reflexivity | exact Hc].
Qed.

Lemma drop_while_first (s : string) :
  starts_with "-" (Str.drop_while is_dash s) = false.
Proof.
  induction s as [|c r IH]; [reflexivity|]. simpl.
  destruct (is_dash c) eqn:Hc; [exact IH|]. simpl.
  unfold is_dash in Hc. rewrite Ascii.eqb_sym in Hc. exact Hc.
Qed.

Lemma generateFlowId_is_slug (name : string) : is_slug (generateFlowId name) = true.
Proof.
  rewrite generateFlowId_passes. unfold is_slug, strip_dashes.
  rewrite drop_while_end_last, drop_while_end_first by apply drop_while_first.
  rewrite drop_while_end_no_double_dash
    by (apply drop_while_no_double_dash, replace_runs_no_double_dash, dash_not_alnum).
  rewrite forallb_drop_while_end; [reflexivity|].
  apply forallb_drop_while.
  pose proof (replace_runs_chars not_alnum (Str.toLowerCase name)) as H.
  revert H. generalize (replace_runs not_alnum "-" (Str.toLowerCase name)).
  induction s as [|c r IH]; [reflexivity|]. simpl.
  intros H. apply andb_prop in H as [Hc Hr]. rewrite (IH Hr), andb_true_r.
  unfold not_alnum, is_alnum in Hc. rewrite negb_involutive in Hc. exact Hc.
Qed.

(** ** Ids of ids *)

Lemma slug_char_lower (c : ascii) : slug_char c = true -> Str.to_lower_char c = c.
Proof.
  destruct c as [[] [] [] [] [] [] [] []]; intros Hc; try reflexivity; discriminate Hc.
Qed.

Lemma slug_char_class (c : ascii) :
  slug_char c = true -> not_alnum c = is_dash c.
Proof.
  destruct c as [[] [] [] [] [] [] [] []]; intros Hc; try reflexivity; discriminate Hc.
Qed.

Lemma toLowerCase_slug (s : string) :
  Str.forallb slug_char s = true -> Str.toLowerCase s = s.
Proof.
  unfold Str.toLowerCase.
  induction s as [|c r IH]; [reflexivity|]. simpl. intros H.
  apply andb_prop in H as [Hc Hr]. now rewrite (slug_char_lower c Hc), IH.
Qed.

Lemma replace_runs_slug (s : string) :
  Str.forallb slug_char s = true ->
  replace_runs not_alnum "-" s = replace_runs is_dash "-" s.
Proof.
  induction s as [|c r IH]; [reflexivity|]. simpl Str.forallb. intros H.
  apply andb_prop in H as [Hc Hr]. specialize (IH Hr).
  simpl. rewrite (slug_char_class c Hc), IH.
  destruct r as [|d t]; [reflexivity|].
  simpl in Hr. apply andb_prop in Hr as [Hd _].
  now rewrite (slug_char_class d Hd).
Qed.

Lemma drop_while_id (p : ascii -> bool) (s : string) :
  match s with String c _ => p c = false | EmptyString => True end ->
  Str.drop_while p s = s.
Proof. destruct s as [|c r]; [reflexivity|]. simpl. now intros ->. Qed.

Lemma drop_while_end_id (s : string) :
  ends_with_dash s = false -> Str.drop_while_end is_dash s = s.
Proof.
  induction s as [|c r IH]; [reflexivity|]. simpl.
  destruct r as [|d t].
  - unfold is_dash. now intros ->.
  - intros H. rewrite (IH H). reflexivity.
Qed.

(** An id is its own id. *)
Lemma generateFlowId_slug (s : string) : is_slug s = true -> generateFlowId s = s.
Proof.
  unfold is_slug. intros H.
  apply andb_prop in H as [H Hdd]. apply andb_prop in H as [H Hend].
  apply andb_prop in H as [Hchars Hstart].
  apply negb_true_iff in Hend, Hstart.
  rewrite generateFlowId_passes, (toLowerCase_slug s Hchars), (replace_runs_slug s Hchars).
  fold (collapse_dashes s). rewrite (collapse_dashes_id s Hdd).
  unfold strip_dashes. rewrite drop_while_id.
  - now apply drop_while_end_id.
  - destruct s as [|c r]; [exact I|]. simpl in Hstart. unfold is_dash.
    now rewrite Ascii.eqb_sym.
Qed.

(** Deriving the id of an id changes nothing. *)
Lemma generateFlowId_idempotent (name : string) :
  generateFlowId (generateFlowId name) = generateFlowId name.
Proof. apply generateFlowId_slug, generateFlowId_is_slug. Qed.

End UtilsFacts.

(* ===================================================================== *)
(** * The run orchestrator *)
(* ===================================================================== *)

Module OrchestratorFacts.
Import JS Platform Schema Steps Runs Utils Spec.

Section Orchestrator.
Context {World : Type} `{Runtime World} `{Host}.

(** The record of a run whose interpreter ended normally. *)
Lemma runFlowNow_with_normal
    (exec : list Step -> M (World := World) ExecutionOutcome)
    (flow : FlowRecord) (options : RunOptions) (w : World)
    (outcome : ExecutionOutcome) (context : ExecContext) (w1 : World) :
  exec (flow_steps flow)
    (initial_context (default manual (opt_trigger options)) (fst (now_iso w)))
    (snd (now_iso w))
  = (Normal outcome, context, w1) ->
  runFlowNow_with exec flow options w
  = run_record flow (default manual (opt_trigger options)) (fst (now_iso w))
      outcome context w1.
Proof.
  unfold runFlowNow_with, initial_context.
  destruct (now_iso w) as [startedAt w0]. simpl. now intros ->.
Qed.

(** The record of a run whose interpreter threw. *)
Lemma runFlowNow_with_throw
    (exec : list Step -> M (World := World) ExecutionOutcome)
    (flow : FlowRecord) (options : RunOptions) (w : World)
    (error : thrown) (context : ExecContext) (w1 : World) :
  exec (flow_steps flow)
    (initial_context (default manual (opt_trigger options)) (fst (now_iso w)))
    (snd (now_iso w))
  = (Throw error, context, w1) ->
  runFlowNow_with exec flow options w
  = run_record flow (default manual (opt_trigger options)) (fst (now_iso w))
      {| success := false;
         stepResults := [{| stepId := "execution"; output := None;
                            error := Some (error_message error);
                            timestamp := fst (now_iso w1) |}] |}
      {| results := results context;
         logs := logs context ++ [error_message error] |}
      (snd (now_iso w1)).
Proof.
  unfold runFlowNow_with, initial_context.
  destruct (now_iso w) as [startedAt w0]. simpl. intros ->.
  now destruct (now_iso w1).
Qed.

(** What [run_record] puts in the record. *)
Lemma run_record_fields (flow : FlowRecord) (trigger : Trigger) (startedAt : string)
    (outcome : ExecutionOutcome) (context : ExecContext) (w : World) :
  let record := fst (run_record flow trigger startedAt outcome context w) in
  Runs.startedAt record = startedAt
  /\ flowId record = id flow
  /\ Runs.trigger record = Some trigger
  /\ status record = (if success outcome then Success else Failure)
  /\ run_steps record = stepResults outcome
  /\ run_logs record = logs context
  /\ finishedAt record = fst (now_iso (snd (randomUUID w))).
Proof.
  unfold run_record. destruct (randomUUID w) as [uuid w1].
  simpl. destruct (now_iso w1) as [finishedAt w2]. simpl. repeat split.
Qed.

(** C3. [runFlowNow] always returns a run record: it is a function to
    records, whatever the interpreter does.  [startedAt] is the clock read
    before the interpreter starts and [finishedAt] the clock read after it
    has ended, normally or not.  When the interpreter throws, the status is
    failure, the only step result is the synthetic one, with the step id
    [execution] and the message of the exception as its error, and the
    same message is the last of the log lines. *)
Theorem runFlowNow_always_returns_a_record
    (exec : list Step -> M (World := World) ExecutionOutcome)
    (flow : FlowRecord) (options : RunOptions) (w : World) :
  let trigger := default manual (opt_trigger options) in
  let record := fst (runFlowNow_with exec flow options w) in
  startedAt record = fst (now_iso w)
  /\ flowId record = id flow
  /\ Runs.trigger record = Some trigger
  /\ match exec (flow_steps flow) (initial_context trigger (fst (now_iso w)))
             (snd (now_iso w)) with
     | (Normal outcome, context, w1) =>
         status record = (if success outcome then Success else Failure)
         /\ run_steps record = stepResults outcome
         /\ run_logs record = logs context
         /\ finishedAt record = fst (now_iso (snd (randomUUID w1)))
     | (Throw error, context, w1) =>
         status record = Failure
         /\ run_steps record
            = [{| stepId := "execution"; output := None;
                  error := Some (error_message error);
                  timestamp := fst (now_iso w1) |}]
         /\ run_logs record = logs context ++ [error_message error]
         /\ finishedAt record
            = fst (now_iso (snd (randomUUID (snd (now_iso w1)))))
     end.
Proof.
  cbv zeta.
  destruct (exec (flow_steps flow) _ (snd (now_iso w)))
    as [[[outcome|error] context] w1] eqn:Hexec.
  - rewrite (runFlowNow_with_normal _ _ _ _ _ _ _ Hexec).
    destruct (run_record_fields flow (default manual (opt_trigger options))
                (fst (now_iso w)) outcome context w1)
      as (-> & -> & -> & -> & -> & -> & ->).
    repeat split.
  - rewrite (runFlowNow_with_throw _ _ _ _ _ _ _ Hexec).
    destruct (run_record_fields flow (default manual (opt_trigger options))
                (fst (now_iso w))
                {| success := false;
                   stepResults := [{| stepId := "execution"; output := None;
                                      error := Some (error_message error);
                                      timestamp := fst (now_iso w1) |}] |}
                {| results := results context;
                   logs := logs context ++ [error_message error] |}
                (snd (now_iso w1)))
      as (-> & -> & -> & -> & -> & -> & ->).
    repeat split.
Qed.

(** With the interpreter of the repository the [catch] of [runFlowNow] is
    never entered: the status of the run is the success of the
    interpreter. *)
Lemma runFlowNow_status (flow : FlowRecord) (options : RunOptions) (w : World) :
  exists outcome context w1,
    executeSteps (flow_steps flow)
      (initial_context (default manual (opt_trigger options)) (fst (now_iso w)))
      (snd (now_iso w))
    = (Normal outcome, context, w1)
    /\ status (fst (runFlowNow flow options w))
       = (if success outcome then Success else Failure)
    /\ run_steps (fst (runFlowNow flow options w)) = stepResults outcome
    /\ run_logs (fst (runFlowNow flow options w)) = logs context.
Proof.
  destruct (StepsFacts.executeSteps_normal (flow_steps flow)
              (initial_context (default manual (opt_trigger options)) (fst (now_iso w)))
              (snd (now_iso w))) as (outcome & context & w1 & Hrun).
  exists outcome, context, w1. split; [exact Hrun|].
  unfold runFlowNow. rewrite (runFlowNow_with_normal _ _ _ _ _ _ _ Hrun).
  destruct (run_record_fields flow (default manual (opt_trigger options))
              (fst (now_iso w)) outcome context w1)
    as (_ & _ & _ & -> & -> & -> & _).
  repeat split.
Qed.

End Orchestrator.
End OrchestratorFacts.

(* ===================================================================== *)
(** * The store: capped histories, last runs, duplicate names *)
(* ===================================================================== *)

Module ManagerFacts.
Import JS Platform Schema Steps Runs Utils Manager Spec.

(** ** [persistRun] *)

Lemma normalizeRun_flowId (run : RunRecord) : flowId (normalizeRun run) = flowId run.
Proof. reflexivity. Qed.

Lemma appended_history (state : NexFlowState) (record : RunRecord) :
  history (appended state record) !! flowId record
  = Some (take 50 (normalizeRun record
                   :: default [] (history state !! flowId record))).
Proof. unfold appended. simpl. apply lookup_insert_eq. Qed.

Lemma appended_history_other (state : NexFlowState) (record : RunRecord) (f : string) :
  f <> flowId record ->
  history (appended state record) !! f = history state !! f.
Proof. intros Hf. unfold appended. simpl. now apply lookup_insert_ne. Qed.

Lemma take_app_take {A : Type} (n : nat) (a b : list A) :
  take n (a ++ take n b) = take n (a ++ b).
Proof.
  rewrite !take_app, take_take. f_equal. f_equal. lia.
Qed.

(** Appends, seen from one flow: only the records of the flow count. *)
Lemma appends_history (records : list RunRecord) (state : NexFlowState) (f : string) :
  history (fold_left appended records state) !! f
  = match filter (fun r => flowId r = f) (List.map normalizeRun records) with
    | [] => history state !! f
    | mine => Some (take 50 (rev mine ++ default [] (history state !! f)))
    end.
Proof.
  revert state. induction records as [|r rs IH]; intros state; [reflexivity|].
  simpl fold_left. rewrite IH. simpl List.map. rewrite filter_cons.
  destruct (decide (flowId (normalizeRun r) = f)) as [Hf|Hf].
  - rewrite normalizeRun_flowId in Hf. subst f.
    rewrite appended_history.
    change (default [] (Some ?l)) with l.
    destruct (filter _ (List.map normalizeRun rs)) as [|m ms]; [reflexivity|].
    f_equal. rewrite take_app_take.
    change (rev (normalizeRun r :: m :: ms)) with (rev (m :: ms) ++ [normalizeRun r]).
    now rewrite <- app_assoc.
  - rewrite normalizeRun_flowId in Hf.
    rewrite appended_history_other by congruence. reflexivity.
Qed.

Lemma appended_bounded (state : NexFlowState) (record : RunRecord) :
  (forall f entries, history state !! f = Some entries -> length entries <= 50)%nat ->
  (forall f entries,
     history (appended state record) !! f = Some entries -> length entries <= 50)%nat.
Proof.
  intros Hb f entries. destruct (decide (f = flowId record)) as [->|Hf].
  - rewrite appended_history. intros [= <-]. simpl. rewrite length_take. lia.
  - rewrite appended_history_other by assumption. apply Hb.
Qed.

Section PersistRun.
Context `{Builtins}.

(** What [persistRun] stores, when it stores. *)
Lemma persistRun_stored (state state' : NexFlowState) (record : RunRecord) :
  persistRun state record = Some (Normal state') ->
  state' = appended state record.
Proof.
  unfold persistRun.
  destruct (property (history state) _) as [entries|member|].
  - destruct (property (flows state) _); [|discriminate|]; now intros [= <-].
  - destruct (call_on _ _ _); discriminate.
  - destruct (property (flows state) _); [|discriminate|]; now intros [= <-].
Qed.

(** A record is stored when neither of the two lookups meets an inherited
    member. *)
Lemma persistRun_stores (state : NexFlowState) (record : RunRecord) :
  (history state !! flowId record = None -> plain (flowId record) = true) ->
  (flows state !! flowId record = None -> plain (flowId record) = true) ->
  persistRun state record = Some (Normal (appended state record)).
Proof.
  intros Hh Hf. unfold persistRun. rewrite normalizeRun_flowId.
  assert (Hown : forall (A : Type) (obj : gmap string A),
            (obj !! flowId record = None -> plain (flowId record) = true) ->
            forall member, property obj (flowId record) <> Inherited member).
  { intros A obj Hp member Hm.
    apply DictFacts.property_inherited in Hm as [Hnone Hplain].
    rewrite (Hp Hnone) in Hplain. discriminate. }
  destruct (property (history state) _) as [entries|member|] eqn:Hph;
    [|now apply Hown in Hph|];
    (destruct (property (flows state) _) as [flow|member|] eqn:Hpf;
       [reflexivity | now apply Hown in Hpf | reflexivity]).
Qed.

Lemma persistRun_plain (state : NexFlowState) (record : RunRecord) :
  plain (flowId record) = true ->
  persistRun state record = Some (Normal (appended state record)).
Proof. intros Hp. now apply persistRun_stores. Qed.

(** A run under the name of a member that the history inherits, and has
    no entry for, is not stored: [unshift] is called on the member. *)
Lemma persistRun_inherited (state : NexFlowState) (record : RunRecord) :
  history state !! flowId record = None ->
  plain (flowId record) = false ->
  persistRun state record
  = option_map Throw
      (call_on (inherited OfObject (flowId record)) "unshift"
         "state.history[flowId].unshift").
Proof.
  intros Hnone Hp. unfold persistRun, property. rewrite normalizeRun_flowId, Hnone.
  unfold plain in Hp. apply negb_false_iff in Hp. now rewrite Hp.
Qed.

Lemma persist_all_stored (records : list RunRecord) (state final : NexFlowState) :
  persist_all records state = Some final ->
  final = fold_left appended records state.
Proof.
  revert state. induction records as [|r rs IH]; intros state; simpl.
  - now intros [= <-].
  - destruct (persistRun state r) as [[state'|e]|] eqn:Hp; try discriminate.
    apply persistRun_stored in Hp. subst state'. apply IH.
Qed.

Lemma persist_all_plain (records : list RunRecord) (state : NexFlowState) :
  Forall (fun r => plain (flowId r) = true) records ->
  persist_all records state = Some (fold_left appended records state).
Proof.
  intros Hall. revert state.
  induction Hall as [|r rs Hr _ IH]; intros state; simpl; [reflexivity|].
  now rewrite (persistRun_plain _ _ Hr).
Qed.

(** C4. Starting from the empty store, records whose flow ids name no
    inherited member are all appended, and after any sequence of appended
    run records the history stored for a flow is made of the last 50
    records of that flow, the most recent first, so it holds at most 50
    records.  Appending a record to a flow that has 50 of them stored puts
    the new record first and drops the last, the oldest, so that 50
    remain; the append takes place as soon as a flow is stored under the
    id or the id names no inherited member. *)
Theorem history_is_capped_and_most_recent_first
    (records : list RunRecord) (f : string)
    (state : NexFlowState) (record : RunRecord) (entries : list RunRecord) :
  history state !! flowId record = Some entries ->
  length entries = 50%nat ->
  (Forall (fun r => plain (flowId r) = true) records ->
   exists final, persist_all records empty_state = Some final)
  /\ (forall final,
        persist_all records empty_state = Some final ->
        let stored := default [] (history final !! f) in
        stored
        = take 50 (rev (filter (fun r => flowId r = f)
                          (List.map normalizeRun records)))
        /\ (length stored <= 50)%nat)
  /\ (is_Some (flows state !! flowId record) \/ plain (flowId record) = true ->
      exists state', persistRun state record = Some (Normal state'))
  /\ (forall state',
        persistRun state record = Some (Normal state') ->
        history state' !! flowId record
        = Some (normalizeRun record :: removelast entries)
        /\ length (normalizeRun record :: removelast entries) = 50%nat).
Proof.
  intros Hentries Hlen.
  split; [intros Hall; eexists; now apply persist_all_plain|].
  split.
  { intros final Hfinal. apply persist_all_stored in Hfinal. subst final. cbv zeta.
    assert (Hstored :
      default [] (history (fold_left appended records empty_state) !! f)
      = take 50 (rev (filter (fun r => flowId r = f) (List.map normalizeRun records)))).
    { rewrite appends_history. simpl history. rewrite lookup_empty.
      destruct (filter _ (List.map normalizeRun records)); [reflexivity|].
      simpl default. now rewrite app_nil_r. }
    split; [exact Hstored|]. rewrite Hstored, length_take. lia. }
  split.
  { intros Hflow. eexists. apply persistRun_stores.
    - rewrite Hentries. discriminate.
    - intros Hnone. destruct Hflow as [[flow Hflow]|Hp]; [congruence | exact Hp]. }
  intros state' Hstate'. apply persistRun_stored in Hstate'. subst state'.
  assert (Hcut : take 49 entries = removelast entries).
  { rewrite removelast_firstn_len, Hlen. reflexivity. }
  split.
  - rewrite appended_history, Hentries. simpl. now rewrite Hcut.
  - simpl. rewrite <- Hcut, length_take. lia.
Qed.


End PersistRun.

(** [POST /runs] hands the parsed record to [persistRun] without looking
    the flow up: a record of an unknown flow is stored like any other. *)
Lemma log_run_persists `{Host} (storage : NexFlowState) (body parsed : RunRecord) :
  RunRecordSchema_parse body = Normal parsed ->
  flowId parsed = flowId body
  /\ finishedAt parsed = finishedAt body
  /\ log_run storage body
     = match persistRun storage parsed with
       | Some (Normal state) =>
           Some (Normal {| reply_status := 200; reply_body := JsonRun parsed;
                           saved := Some state |})
       | Some (Throw e) => Some (Throw e)
       | None => None
       end.
Proof.
  intros Hp. unfold log_run. rewrite Hp. unfold RunRecordSchema_parse in Hp.
  destruct (FlowConfigSchema_parse _); [|discriminate].
  injection Hp as <-. repeat split.
Qed.

(** ** [POST /flows] *)

Lemma FlowConfigSchema_parse_name `{Host} (body payload : FlowConfig) :
  FlowConfigSchema_parse body = Normal payload -> name payload = name body.
Proof.
  unfold FlowConfigSchema_parse.
  destruct (_ ++ _); [|discriminate]. now intros [= <-].
Qed.

Section Create.
Context {World : Type} `{Runtime World} `{Host}.

(** A name whose id is taken is turned down, and nothing is saved. *)
Lemma create_duplicate (storage : NexFlowState) (body payload : FlowConfig)
    (existing : FlowRecord) (w : World) :
  FlowConfigSchema_parse body = Normal payload ->
  flows storage !! generateFlowId (name body) = Some existing ->
  create storage body w
  = (Normal {| reply_status := 409; reply_body := Text "Flow already exists";
               saved := None |}, w).
Proof.
  intros Hparse Hflow. unfold create. rewrite Hparse.
  rewrite (FlowConfigSchema_parse_name _ _ Hparse).
  now rewrite (DictFacts.property_own _ _ _ Hflow).
Qed.

(** C9. The id of a flow is a function of its name: the name in lower
    case, with every run of characters other than [a-z0-9] replaced by one
    dash and the dashes at both ends removed (the last pass of
    [generateFlowId] finds nothing to do), hence a string of lower-case
    letters, digits and single dashes that neither starts nor ends with a
    dash.  Creating a flow whose name has the id of a stored flow is
    answered with 409 [Flow already exists]; nothing is saved and the
    world is left as it was. *)
Theorem flow_ids_are_normalized_names_and_duplicates_rejected
    (storage : NexFlowState) (body payload : FlowConfig) (existing : FlowRecord)
    (w : World) :
  FlowConfigSchema_parse body = Normal payload ->
  flows storage !! generateFlowId (name body) = Some existing ->
  generateFlowId (name body)
  = strip_dashes (replace_runs not_alnum "-" (Str.toLowerCase (name body)))
  /\ is_slug (generateFlowId (name body)) = true
  /\ create storage body w
     = (Normal {| reply_status := 409; reply_body := Text "Flow already exists";
                  saved := None |}, w).
Proof.
  intros Hparse Hflow.
  split; [apply UtilsFacts.generateFlowId_passes|].
  split; [apply UtilsFacts.generateFlowId_is_slug|].
  exact (create_duplicate _ _ _ _ _ Hparse Hflow).
Qed.

(** Once a flow has been created, any name with the same id is turned
    down. *)
Lemma create_twice (storage : NexFlowState) (body body' payload' : FlowConfig)
    (w w1 w' : World) (h : Handled) :
  create storage body w = (Normal h, w1) ->
  reply_status h = 201 ->
  FlowConfigSchema_parse body' = Normal payload' ->
  generateFlowId (name body') = generateFlowId (name body) ->
  exists storage1,
    saved h = Some storage1
    /\ create storage1 body' w'
       = (Normal {| reply_status := 409; reply_body := Text "Flow already exists";
                    saved := None |}, w').
Proof.
  unfold create at 1.
  destruct (FlowConfigSchema_parse body) as [payload|e] eqn:Hparse; [|discriminate].
  rewrite (FlowConfigSchema_parse_name _ _ Hparse).
  destruct (property (flows storage) (generateFlowId (name body)))
    as [old|member|] eqn:Hold.
  - intros [= <- _]. discriminate.
  - intros [= <- _]. discriminate.
  - destruct (now_iso w) as [now w2]. intros [= <- _] _ Hparse' Hid.
    eexists. split; [reflexivity|].
    eapply create_duplicate; [exact Hparse'|].
    rewrite Hid. simpl. apply lookup_insert_eq.
Qed.

End Create.

Lemma flow_ids_are_normalized_names_and_duplicates_rejected_witness :
  generateFlowId "my  FLOW" = "my-flow"
  /\ create {| flows := {[ "my-flow" := Sample.my_flow ]}; history := ∅ |}
       Sample.my_flow_again Sample.noon
     = (Normal {| reply_status := 409; reply_body := Text "Flow already exists";
                  saved := None |}, Sample.noon).
Proof.
  split; [vm_compute; reflexivity|].
  refine (proj2 (proj2 (flow_ids_are_normalized_names_and_duplicates_rejected
            {| flows := {[ "my-flow" := Sample.my_flow ]}; history := ∅ |}
            Sample.my_flow_again _ Sample.my_flow Sample.noon _ _))).
  - vm_compute. reflexivity.
  - vm_compute. reflexivity.
Defined.

Lemma history_is_capped_and_most_recent_first_witness :
  let first_run := Sample.my_run "run-1" "2025-01-01T12:00:01.000Z" in
  let second_run := Sample.my_run "run-2" "2025-01-01T12:05:01.000Z" in
  let full := {| flows := ∅; history := {[ "my-flow" := replicate 50 first_run ]} |} in
  (exists final,
     persist_all [first_run; second_run] empty_state = Some final
     /\ default [] (history final !! "my-flow") = [second_run; first_run])
  /\ exists state',
       persistRun full second_run = Some (Normal state')
       /\ history state' !! "my-flow" = Some (second_run :: replicate 49 first_run).
Proof.
  cbv zeta.
  pose proof (history_is_capped_and_most_recent_first
                [Sample.my_run "run-1" "2025-01-01T12:00:01.000Z";
                 Sample.my_run "run-2" "2025-01-01T12:05:01.000Z"]
                "my-flow"
                {| flows := ∅;
                   history := {[ "my-flow" :=
                     replicate 50 (Sample.my_run "run-1" "2025-01-01T12:00:01.000Z") ]} |}
                (Sample.my_run "run-2" "2025-01-01T12:05:01.000Z")
                (replicate 50 (Sample.my_run "run-1" "2025-01-01T12:00:01.000Z")))
    as Hcap.
  destruct Hcap as (Hall & Hstored & Hsome & Hfull).
  - apply lookup_singleton_eq.
  - reflexivity.
  - split.
    + destruct Hall as [final Hfinal].
      { repeat constructor. }
      exists final. split; [exact Hfinal|].
      exact (proj1 (Hstored final Hfinal)).
    + destruct Hsome as [state' Hstate']; [right; reflexivity|].
      exists state'. split; [exact Hstate'|].
      exact (proj1 (Hfull state' Hstate')).
Defined.



End ManagerFacts.

(* ===================================================================== *)
(** * Due times *)
(* ===================================================================== *)

Module CronFacts.
Import JS Cron Spec.

Section IsDue.
Context `{Builtins} `{CronParser}.

(** An empty [lastRunAt] is falsy and counts as no last run. *)
Lemma isDue_empty_lastRunAt (schedule : string) (now : Date) :
  isDue schedule (Some "") now = isDue schedule None now.
Proof. reflexivity. Qed.

Lemma refDate_reference (lastRunAt : option string) (now : Date) :
  lastRunAt <> Some "" ->
  refDate lastRunAt now = reference_instant lastRunAt now.
Proof.
  destruct lastRunAt as [[|c s]|]; [congruence | reflexivity | reflexivity].
Qed.

(** A flow that never ran is treated as one that ran a minute before
    [now]. *)
Lemma isDue_never_run (schedule lastRunAt : string) (now : Date) :
  lastRunAt <> "" ->
  Date_parse lastRunAt = date_minus now 60000 ->
  isDue schedule None now = isDue schedule (Some lastRunAt) now.
Proof.
  intros Hne Hparse. unfold isDue, isDue_try, refDate.
  destruct lastRunAt; [congruence|]. simpl. now rewrite Hparse.
Qed.

Lemma date_leb_spec (a b : Date) :
  date_leb a b = true <-> exists x y, a = Some x /\ b = Some y /\ x <= y.
Proof.
  destruct a as [x|], b as [y|]; simpl; split;
    try discriminate; try (intros (? & ? & ? & ? & ?); discriminate).
  - intros Hle. exists x, y. repeat split. now apply Z.leb_le.
  - intros (x' & y' & [= <-] & [= <-] & Hle). now apply Z.leb_le.
Qed.

(** The reference date of [isDue] is the reference instant. *)
Lemma refDate_is_reference (lastRunAt : option string) (n ref : Z) :
  lastRunAt <> Some "" ->
  reference lastRunAt n ref ->
  refDate lastRunAt (Some n) = Some ref.
Proof.
  intros Hne Href. destruct Href as [s n ref Hparse | n Hrange].
  - destruct s; [congruence | exact Hparse].
  - unfold refDate, date_minus, time_clip.
    destruct (Z.leb_spec (Z.abs (n - 60000)) 8640000000000000) as [_|Hout];
      [reflexivity|].
    unfold time_value in Hrange. lia.
Qed.

(** What [isDue] answers, in terms of what the library gives. *)
Lemma isDue_library (schedule : string) (lastRunAt : option string) (n ref : Z) :
  refDate lastRunAt (Some n) = Some ref ->
  due (isDue schedule lastRunAt (Some n)) = true
  <-> exists t, next_occurrence schedule (Some ref) = Some t /\ t <= n.
Proof.
  intros Href. unfold isDue, isDue_try, next_occurrence. rewrite Href.
  destruct (CronExpressionParser_parse schedule _) as [expression|err]; simpl.
  - destruct (expression_next expression) as [nextRun|err]; simpl.
    + rewrite date_leb_spec. split.
      * intros (t & m & -> & [= <-] & Hle). now exists t.
      * intros (t & Hnext & Hle). destruct nextRun as [x|]; [|discriminate].
        injection Hnext as ->. now exists t, n.
    + split; [discriminate | intros (? & ? & _); discriminate].
  - split; [discriminate | intros (? & ? & _); discriminate].
Qed.

(** C2. Let [occurs] tell at which instants of universal time each
    schedule fires, and let the cron library, asked for the schedule
    after the reference instant [ref] (the parsed [lastRunAt] when there
    is one, [now] minus 60000 milliseconds otherwise), answer by it.  Then
    [isDue] answers true exactly when the next occurrence of the schedule
    strictly after [ref] exists and is not after [now].  (An empty
    [lastRunAt] is no time stamp and is left out.) *)
Theorem isDue_iff_next_occurrence_reached
    (occurs : string -> Z -> Prop)
    (schedule : string) (lastRunAt : option string) (n ref : Z) :
  lastRunAt <> Some "" ->
  reference lastRunAt n ref ->
  computes_next occurs schedule ref ->
  due (isDue schedule lastRunAt (Some n)) = true
  <-> exists t, next_after (occurs schedule) ref t /\ t <= n.
Proof.
  intros Hne Href Hlib.
  rewrite (isDue_library _ _ _ _ (refDate_is_reference _ _ _ Hne Href)).
  split; intros (t & Ht & Hle); exists t; (split; [now apply Hlib | exact Hle]).
Qed.

(** C7. For a schedule the parser rejects, [isDue] answers false whatever
    the last run and the current time; it does not throw (it is a function
    to decisions), and the one thing it leaves behind is a warning that
    names the schedule and the error. *)
Theorem unparseable_schedule_is_never_due
    (schedule : string) (lastRunAt : option string) (now : Date) :
  unparseable schedule ->
  due (isDue schedule lastRunAt now) = false
  /\ exists err,
       CronExpressionParser_parse schedule (refDate lastRunAt now) = Throw err
       /\ warnings (isDue schedule lastRunAt now)
          = ["[cron] Invalid expression " +:+ dquote +:+ schedule +:+ dquote
             +:+ ": " +:+ thrown_to_string err].
Proof.
  intros Hbad. destruct (Hbad (refDate lastRunAt now)) as [err Herr].
  unfold isDue, isDue_try. rewrite Herr. simpl. eauto.
Qed.

End IsDue.

#[local] Existing Instance Sample.builtins.

(** On the calendar of the scripted evaluator, the next occurrence of
    [*/5 * * * *] after 11:59 on the first day of 2025 is noon. *)
Lemma next_after_a_minute_to_noon :
  computes_next (fun schedule t => Sample.fires schedule t = true)
    "*/5 * * * *" (1735732800000 - 60000).
Proof.
  assert (Hnoon : next_after (fun t => Sample.fires "*/5 * * * *" t = true)
                    (1735732800000 - 60000) 1735732800000).
  { split; [vm_compute; reflexivity|]. split; [lia|].
    intros u Hu Hlater. unfold Sample.fires in Hu.
    destruct (Sample.parse_expression "*/5 * * * *" None); [|discriminate].
    apply andb_prop in Hu as [Hu _]. apply Z.eqb_eq in Hu.
    pose proof (Z.div_mod u 60000 ltac:(lia)). lia. }
  intros t. split.
  - intros Ht. vm_compute in Ht. injection Ht as <-. exact Hnoon.
  - intros (Ht & Hlater & Hfirst).
    destruct Hnoon as (Hn & Hnlater & Hnfirst).
    pose proof (Hfirst _ Hn Hnlater). pose proof (Hnfirst _ Ht Hlater).
    replace t with 1735732800000 by lia. vm_compute. reflexivity.
Qed.

Lemma isDue_iff_next_occurrence_reached_witness :
  (None : option string) <> Some ""
  /\ reference None 1735732800000 (1735732800000 - 60000)
  /\ (due (isDue "*/5 * * * *" None (Some 1735732800000)) = true
      <-> exists t,
            next_after (fun t => Sample.fires "*/5 * * * *" t = true)
              (1735732800000 - 60000) t
            /\ t <= 1735732800000).
Proof.
  assert (Hne : (None : option string) <> Some "") by discriminate.
  assert (Href : reference None 1735732800000 (1735732800000 - 60000)).
  { constructor. unfold time_value. lia. }
  split; [exact Hne|]. split; [exact Href|].
  exact (isDue_iff_next_occurrence_reached
           (fun schedule t => Sample.fires schedule t = true)
           "*/5 * * * *" None 1735732800000 (1735732800000 - 60000)
           Hne Href next_after_a_minute_to_noon).
Defined.

Lemma unparseable_schedule_is_never_due_witness :
  unparseable "every day"
  /\ due (isDue "every day" None (Sample.parse_iso "2025-01-01T12:00:00Z")) = false.
Proof.
  assert (Hbad : unparseable "every day").
  { intros currentDate. eexists. reflexivity. }
  split; [exact Hbad|].
  exact (proj1 (unparseable_schedule_is_never_due
                  "every day" None (Sample.parse_iso "2025-01-01T12:00:00Z") Hbad)).
Defined.

End CronFacts.

Module CronContract.
Import JS Cron Spec.

(** ** What "after the reference instant" buys *)

Section StrictlyAfter.
Context `{Builtins} `{CronParser}.

(** The contract of the cron library this part relies on: the occurrence
    it gives is later than the current date it was given. *)
Hypothesis next_is_later :
  forall schedule ref expression t,
    CronExpressionParser_parse schedule (Some ref) = Normal expression ->
    expression_next expression = Normal (Some t) ->
    ref < t.

(** X17. A flow that is due is due at a time after its reference instant: it is
    not due again at the very instant of its last run, nor before. *)
Lemma due_is_after_reference (schedule : string) (lastRunAt : option string)
    (now : Date) (ref : Z) :
  lastRunAt <> Some "" ->
  reference_instant lastRunAt now = Some ref ->
  due (isDue schedule lastRunAt now) = true ->
  exists n, now = Some n /\ ref < n.
Proof.
  intros Hne Href. unfold isDue, isDue_try.
  rewrite (CronFacts.refDate_reference _ _ Hne), Href.
  destruct (CronExpressionParser_parse schedule (Some ref)) as [e|] eqn:Hp;
    [|discriminate].
  destruct (expression_next e) as [nextRun|] eqn:Hn; [|discriminate].
  simpl. intros Hdue.
  apply CronFacts.date_leb_spec in Hdue as (t & n & -> & -> & Hle).
  exists n. split; [reflexivity|].
  pose proof (next_is_later _ _ _ _ Hp Hn). lia.
Qed.

End StrictlyAfter.

(** The scripted cron evaluator keeps the contract. *)
Lemma search_from (fuel : nat) (e : Sample.Expression) (t r : Z) :
  Sample.search fuel e t = Some r -> t <= r.
Proof.
  revert t. induction fuel as [|fuel IH]; intros t; simpl; [discriminate|].
  destruct (negb (Sample.day_matches e (t / 1440))).
  { intros Hs. apply IH in Hs.
    pose proof (Z.mul_succ_div_gt t 1440 ltac:(lia)). lia. }
  destruct (negb (Sample.allows (Sample.hours e) (t mod 1440 / 60))).
  { intros Hs. apply IH in Hs.
    pose proof (Z.mul_succ_div_gt t 60 ltac:(lia)). lia. }
  destruct (negb (Sample.allows (Sample.minutes e) (t mod 60))).
  { intros Hs. apply IH in Hs. lia. }
  intros [= ->]. lia.
Qed.

Lemma sample_next_is_later (schedule : string) (ref : Z)
    (expression : Sample.Expression) (t : Z) :
  Sample.parse_expression schedule (Some ref) = Normal expression ->
  Sample.next_occurrence expression = Normal (Some t) ->
  ref < t.
Proof.
  intros Hp Hn.
  assert (Hcur : Sample.currentDate expression = Some ref).
  { unfold Sample.parse_expression in Hp.
    repeat match type of Hp with
           | match ?x with _ => _ end = _ => destruct x; try discriminate
           end.
    now injection Hp as <-. }
  unfold Sample.next_occurrence in Hn. rewrite Hcur in Hn.
  destruct (Sample.search 3000 expression (ref / 60000 + 1)) as [m|] eqn:Hs;
    [|discriminate].
  injection Hn as <-. apply search_from in Hs.
  pose proof (Z.mul_succ_div_gt ref 60000 ltac:(lia)). lia.
Qed.

End CronContract.

(* ===================================================================== *)
(** * The scenarios of the design document, run on the scripted host *)
(* ===================================================================== *)

Module Scenarios.
Import JS Platform Schema Steps Runs Utils Manager Spec.

(** A flow whose second step is a condition that evaluates to false:
    success, and two results. *)
Example second_step_false :
  let '(r, context, _) :=
    executeSteps [Sample.price_step; Sample.cheap_step; Sample.shout_step]
      Sample.fresh Sample.noon in
  match r with
  | Normal outcome =>
      success outcome = true
      /\ List.map stepId (stepResults outcome) = ["priceFetch"; "condition"]
      /\ List.map timestamp (stepResults outcome)
         = ["2025-01-01T12:00:00.020Z"; "2025-01-01T12:00:00.021Z"]
  | Throw _ => False
  end
  /\ logs context
     = ["[fetch:priceFetch] GET https://api.example/price -> 200";
        "[condition] priceFetch.body < 1000 -> false";
        "[condition:priceFetch.body] Evaluated false, stopping execution."].
Proof. vm_compute. repeat split. Qed.

(** A flow whose fetch step times out: failure, one result with the
    timeout error, and nothing in the results. *)
Example fetch_times_out :
  let '(r, context, _) :=
    executeSteps [StepFetch Sample.slow_fetch; Sample.shout_step]
      Sample.fresh Sample.noon in
  match r with
  | Normal outcome =>
      success outcome = false
      /\ List.map stepId (stepResults outcome) = ["slow"]
      /\ List.map error (stepResults outcome)
         = [Some "Request timed out after 1000ms"]
  | Throw _ => False
  end
  /\ results context !! "slow" = None.
Proof. vm_compute. repeat split. Qed.

(** A run of the stored flow through [POST /flows/:id/run]: the record is
    the first of the history and the flow has its [lastRunAt]. *)
Example manual_run :
  let storage := {| flows := {[ "my-flow" := Sample.my_flow ]}; history := ∅ |} in
  match fst <$> Manager.run storage Sample.my_flow None Sample.noon with
  | Some (Normal {| reply_status := code; reply_body := JsonRun record;
                    saved := Some storage' |}) =>
      code = 200
      /\ status record = Success
      /\ trigger record = Some manual
      /\ startedAt record = "2025-01-01T12:00:00.000Z"
      /\ finishedAt record = "2025-01-01T12:00:00.023Z"
      /\ history storage' !! "my-flow" = Some [record]
      /\ (lastRunAt <$> flows storage' !! "my-flow")
         = Some (Some "2025-01-01T12:00:00.023Z")
  | _ => False
  end.
Proof. vm_compute. repeat split. Qed.

(** An interpreter that logs a line and then throws [null]: the run is
    recorded as a failure of the step [execution], with what was logged
    before the exception and the message after it. *)
Example interpreter_exception :
  let exec (_ : list Step) : M (World := Sample.World) ExecutionOutcome :=
    bind (push_log "half way") (fun _ => throw (ThrownValue VNull)) in
  let record :=
    fst (runFlowNow_with exec Sample.my_flow {| opt_trigger := Some cron |}
           Sample.noon) in
  status record = Failure
  /\ List.map stepId (run_steps record) = ["execution"]
  /\ List.map error (run_steps record) = [Some "Unknown"]
  /\ run_logs record
     = ["[system] Triggered by cron at 2025-01-01T12:00:00.000Z";
        "half way"; "Unknown"]
  /\ startedAt record = "2025-01-01T12:00:00.000Z"
  /\ finishedAt record = "2025-01-01T12:00:00.002Z".
Proof. vm_compute. repeat split. Qed.

(** After 51 runs of a flow its history holds the last 50, the most
    recent first: the first run is gone. *)
Example fifty_one_runs `{Builtins} (runs : list RunRecord) (first : RunRecord)
    (final : NexFlowState) :
  length runs = 50%nat ->
  Forall (fun r => flowId r = flowId first) runs ->
  persist_all (first :: runs) empty_state = Some final ->
  history final !! flowId first = Some (rev (List.map normalizeRun runs)).
Proof.
  intros Hlen Hall Hfinal. apply ManagerFacts.persist_all_stored in Hfinal.
  subst final. rewrite ManagerFacts.appends_history.
  assert (Hmine : filter (fun r => flowId r = flowId first)
                    (List.map normalizeRun (first :: runs))
                  = List.map normalizeRun (first :: runs)).
  { assert (Hok : Forall (fun r => flowId r = flowId first)
                    (List.map normalizeRun (first :: runs))).
    { simpl. constructor; [reflexivity|].
      clear Hlen. induction Hall; simpl; constructor; auto. }
    revert Hok. generalize (List.map normalizeRun (first :: runs)).
    induction 1 as [|r l Hr _ IH]; [reflexivity|].
    rewrite filter_cons, decide_True by exact Hr. now rewrite IH. }
  rewrite Hmine. simpl List.map. cbv iota. f_equal.
  simpl history. rewrite lookup_empty. simpl default. rewrite app_nil_r.
  simpl rev. rewrite take_app_le.
  - apply take_ge. rewrite length_rev, length_map. lia.
  - rewrite length_rev, length_map. lia.
Qed.

End Scenarios.

(* ===================================================================== *)
(** * What a run leaves of the context it was given *)
(* ===================================================================== *)

Module FrameFacts.
Import JS Platform Schema Steps Runs Spec Props.

Lemma grows_refl (ids : list string) (c : ExecContext) : grows ids c c.
Proof. split; [reflexivity | exists []; now rewrite app_nil_r]. Qed.

Lemma grows_trans (ids : list string) (a b c : ExecContext) :
  grows ids a b -> grows ids b c -> grows ids a c.
Proof.
  intros [Hr1 [l1 Hl1]] [Hr2 [l2 Hl2]]. split.
  - intros key Hk. now rewrite Hr2, Hr1.
  - exists (l1 ++ l2). now rewrite Hl2, Hl1, app_assoc.
Qed.

Lemma grows_mono (ids ids' : list string) (c c' : ExecContext) :
  ids ⊆ ids' -> grows ids c c' -> grows ids' c c'.
Proof.
  intros Hsub [Hr Hl]. split; [|exact Hl].
  intros key Hk. apply Hr. intros Hin. apply Hk, Hsub, Hin.
Qed.

Section Frame.
Context {World : Type} `{Runtime World} `{Host}.
Variable R : ExecContext -> ExecContext -> Prop.
Hypothesis R_refl : forall c, R c c.
Hypothesis R_trans : forall a b c, R a b -> R b c -> R a c.
Hypothesis R_log :
  forall c line, R c {| results := results c; logs := logs c ++ [line] |}.

Lemma keeps_ret {A : Type} (a : A) : keeps (World := World) R (ret a).
Proof. intros c w r c' w' [= _ <- _]. apply R_refl. Qed.

Lemma keeps_throw {A : Type} (e : thrown) : keeps (World := World) R (throw (A := A) e).
Proof. intros c w r c' w' [= _ <- _]. apply R_refl. Qed.

Lemma keeps_lift {A : Type} (x : completion A) : keeps (World := World) R (lift x).
Proof. intros c w r c' w' [= _ <- _]. apply R_refl. Qed.

Lemma keeps_get_context : keeps (World := World) R get_context.
Proof. intros c w r c' w' [= _ <- _]. apply R_refl. Qed.

Lemma keeps_push_log (line : string) : keeps (World := World) R (push_log line).
Proof. intros c w r c' w' [= _ <- _]. apply R_log. Qed.

Lemma keeps_now : keeps (World := World) R now.
Proof.
  intros c w r c' w'. unfold now. destruct (now_iso w). intros [= _ <- _].
  apply R_refl.
Qed.

Lemma keeps_fetch_call (request : Request) : keeps (World := World) R (fetch_call request).
Proof.
  intros c w r c' w'. unfold fetch_call. destruct (http_fetch request w).
  intros [= _ <- _]. apply R_refl.
Qed.

Lemma keeps_wait (ms : number) : keeps (World := World) R (wait ms).
Proof. intros c w r c' w' [= _ <- _]. apply R_refl. Qed.

Lemma keeps_bind {A B : Type} (m : M (World := World) A) (k : A -> M (World := World) B) :
  keeps R m -> (forall a, keeps R (k a)) -> keeps R (bind m k).
Proof.
  intros Hm Hk c w r c' w'. unfold bind.
  destruct (m c w) as [[[a|e] c1] w1] eqn:Hrun.
  - intros Hrun2. eapply R_trans; [eapply Hm, Hrun | eapply Hk, Hrun2].
  - intros [= _ <- _]. eapply Hm, Hrun.
Qed.

Lemma keeps_try_catch {A : Type} (m : M (World := World) A)
    (handler : thrown -> M (World := World) A) :
  keeps R m -> (forall e, keeps R (handler e)) -> keeps R (try_catch m handler).
Proof.
  intros Hm Hh c w r c' w'. unfold try_catch.
  destruct (m c w) as [[[a|e] c1] w1] eqn:Hrun.
  - intros [= _ <- _]. eapply Hm, Hrun.
  - intros Hrun2. eapply R_trans; [eapply Hm, Hrun | eapply Hh, Hrun2].
Qed.

Ltac keeps_step :=
  first
    [ apply keeps_bind; [|intros ?]
    | apply keeps_try_catch; [|intros ?]
    | apply keeps_ret | apply keeps_throw | apply keeps_lift
    | apply keeps_get_context | apply keeps_push_log | apply keeps_now
    | apply keeps_fetch_call | apply keeps_wait ].

Lemma keeps_executeFetch (step : FetchStep) : keeps (World := World) R (executeFetch step).
Proof.
  unfold executeFetch. repeat keeps_step.
  destruct (is_abort _); keeps_step.
Qed.

Lemma keeps_executeCondition (rule : ConditionRule) : keeps (World := World) R (executeCondition rule).
Proof. unfold executeCondition. repeat keeps_step. Qed.

Lemma keeps_executeLogic (step : LogicStep) : keeps (World := World) R (executeLogic step).
Proof. unfold executeLogic. repeat keeps_step. Qed.

Lemma keeps_executeDelay (duration : string) : keeps (World := World) R (executeDelay duration).
Proof. unfold executeDelay. repeat keeps_step. Qed.

Lemma keeps_executeLog (step : LogStep) : keeps (World := World) R (executeLog step).
Proof. unfold executeLog. repeat keeps_step. Qed.

Lemma keeps_executeNotify (step : NotifyStep) : keeps (World := World) R (executeNotify step).
Proof.
  unfold executeNotify. repeat keeps_step.
  destruct (ok _); keeps_step.
Qed.

Lemma keeps_halt (line stepId : string) : keeps (World := World) R (halt line stepId).
Proof. unfold halt. repeat keeps_step. Qed.

Lemma keeps_dispatch (step : Step) : keeps (World := World) R (dispatch step).
Proof.
  destruct step; unfold dispatch.
  - apply keeps_bind; [apply keeps_executeFetch | intros; apply keeps_ret].
  - apply keeps_bind; [apply keeps_executeCondition | intros a].
    destruct (negb a); [apply keeps_halt | apply keeps_ret].
  - apply keeps_bind; [apply keeps_executeLogic | intros a].
    destruct (negb a); [apply keeps_halt | apply keeps_ret].
  - apply keeps_bind; [apply keeps_executeDelay | intros; apply keeps_ret].
  - apply keeps_bind; [apply keeps_executeLog | intros; apply keeps_ret].
  - apply keeps_bind; [apply keeps_executeNotify | intros; apply keeps_ret].
Qed.

End Frame.
End FrameFacts.

Module RunFacts.
Import JS Platform Schema Steps Runs Spec Props FrameFacts.

Section Execution.
Context {World : Type} `{Runtime World} `{Host}.

Lemma grows_log (ids : list string) (c : ExecContext) (line : string) :
  grows ids c {| results := results c; logs := logs c ++ [line] |}.
Proof. split; [reflexivity | now exists [line]]. Qed.

(** Executors never touch the results: what they leave behind is a longer
    log. *)
Lemma dispatch_grows (step : Step) : keeps (World := World) (grows []) (dispatch step).
Proof.
  apply keeps_dispatch; [apply grows_refl | apply grows_trans | apply grows_log].
Qed.

Lemma grows_nil_results (c c' : ExecContext) : grows [] c c' -> results c' = results c.
Proof. intros [Hr _]. apply map_eq. intros key. apply Hr. apply not_elem_of_nil. Qed.

Lemma store_output_grows (step : Step) (output : any) :
  keeps (World := World) (grows (fetch_ids [step])) (store_output step output).
Proof.
  intros c w r c' w'. destruct step as [f| | | | |]; simpl;
    try (intros [= _ <- _]; apply grows_refl).
  unfold set_result. intros [= _ <- _]. split; [|exists []; simpl; now rewrite app_nil_r].
  intros key Hk. simpl. apply DictFacts.assign_lookup_ne. intros Heq. apply Hk.
  rewrite Heq. simpl. apply list_elem_of_here.
Qed.

Lemma iteration_grows (step : Step) :
  keeps (World := World) (grows (fetch_ids [step])) (iteration step).
Proof.
  unfold iteration.
  apply keeps_try_catch; [apply grows_trans | | intros e].
  - apply keeps_bind; [apply grows_trans | |].
    + intros c w r c' w' Hrun. eapply grows_mono; [|eapply dispatch_grows, Hrun].
      intros x Hx. now apply not_elem_of_nil in Hx.
    + intros [output|entry].
      * apply keeps_bind; [apply grows_trans | apply store_output_grows |].
        intros _. apply keeps_bind; [apply grows_trans | |].
        -- apply keeps_now. apply grows_refl.
        -- intros t. apply keeps_ret. apply grows_refl.
      * apply keeps_ret. apply grows_refl.
  - apply keeps_bind; [apply grows_trans | |].
    + apply keeps_push_log. apply grows_log.
    + intros _. apply keeps_bind; [apply grows_trans | |].
      * apply keeps_now. apply grows_refl.
      * intros t. apply keeps_ret. apply grows_refl.
Qed.

Lemma fetch_ids_cons (step : Step) (steps : list Step) :
  fetch_ids (step :: steps) = fetch_ids [step] ++ fetch_ids steps.
Proof. unfold fetch_ids. simpl. now rewrite app_nil_r. Qed.

Lemma executeSteps_from_grows (steps : list Step) (acc : list StepExecutionResult) :
  keeps (World := World) (grows (fetch_ids steps)) (executeSteps_from steps acc).
Proof.
  revert acc. induction steps as [|step steps IH]; intros acc.
  - apply keeps_ret, grows_refl.
  - simpl executeSteps_from. rewrite fetch_ids_cons.
    apply keeps_bind; [apply grows_trans | |].
    + intros c w r c' w' Hrun. eapply grows_mono; [|eapply iteration_grows, Hrun].
      intros x Hx. apply elem_of_app. now left.
    + intros [entry|ok entry].
      * intros c w r c' w' Hrun. eapply grows_mono; [|eapply IH, Hrun].
        intros x Hx. apply elem_of_app. now right.
      * apply keeps_ret, grows_refl.
Qed.

(** X1. Only fetch steps write into the results, each under its own id: a
    key that is not the id of a fetch step of the list has after the run,
    however the run ends, the entry it had before, present or not; and
    when no fetch step has the id [__proto__], under which a step output
    becomes the prototype of the results, the key also reads as it did
    before. *)
Theorem results_are_written_by_fetch_steps_only
    (steps : list Step) (c : ExecContext) (w : World) (key : string) :
  key ∉ fetch_ids steps ->
  results (snd (fst (executeSteps steps c w))) !! key = results c !! key
  /\ (proto ∉ fetch_ids steps ->
      read (results (snd (fst (executeSteps steps c w)))) key
      = read (results c) key).
Proof.
  intros Hkey.
  destruct (executeSteps steps c w) as [[r c'] w'] eqn:Hrun.
  destruct (executeSteps_from_grows steps [] c w r c' w' Hrun) as [Hr _].
  simpl. split; [now apply Hr|].
  intros Hproto. apply DictFacts.read_ext; now apply Hr.
Qed.

(** X2. The log of a run is append-only: the lines that were in the
    context when the interpreter started are still there, in place and in
    order, when it ends, whether the run succeeds, stops early or fails. *)
Theorem log_is_append_only
    (steps : list Step) (c : ExecContext) (w : World) :
  exists added, logs (snd (fst (executeSteps steps c w))) = logs c ++ added.
Proof.
  destruct (executeSteps steps c w) as [[r c'] w'] eqn:Hrun.
  now destruct (executeSteps_from_grows steps [] c w r c' w' Hrun) as [_ Hl].
Qed.

End Execution.

Lemma results_are_written_by_fetch_steps_only_witness :
  ("volume" ∉ fetch_ids [Sample.price_step; Sample.shout_step])
  /\ results (snd (fst (executeSteps [Sample.price_step; Sample.shout_step]
                 Fixtures.earlier Sample.noon))) !! "volume"
     = results Fixtures.earlier !! "volume"
  /\ read (results (snd (fst (executeSteps [Sample.price_step; Sample.shout_step]
                       Fixtures.earlier Sample.noon)))) "volume"
     = read (results Fixtures.earlier) "volume".
Proof.
  assert (Hkey : "volume" ∉ fetch_ids [Sample.price_step; Sample.shout_step]).
  { apply (bool_decide_unpack _). vm_compute. exact I. }
  assert (Hproto : proto ∉ fetch_ids [Sample.price_step; Sample.shout_step]).
  { apply (bool_decide_unpack _). vm_compute. exact I. }
  split; [exact Hkey|].
  destruct (results_are_written_by_fetch_steps_only
              [Sample.price_step; Sample.shout_step] Fixtures.earlier Sample.noon
              "volume" Hkey) as [Hown Hread].
  split; [exact Hown | exact (Hread Hproto)].
Defined.

End RunFacts.

(* ===================================================================== *)
(** * The report of a run *)
(* ===================================================================== *)

Module ReportFacts.
Import JS Platform Schema Steps Runs Spec Props StepsFacts.

Section Execution.
Context {World : Type} `{Runtime World} `{Host}.

(** How an iteration can end, and what it then recorded. *)
Lemma iteration_entry (step : Step) (c : ExecContext) (w : World) :
  exists it c' w',
    iteration step c w = (Normal it, c', w')
    /\ match it with
       | Next entry =>
           stepId entry = step_id step /\ error entry = None
       | Return true entry =>
           stepId entry = step_id step /\ error entry = None
       | Return false entry =>
           stepId entry = step_id step /\ is_Some (error entry)
           /\ output entry = None
       end.
Proof.
  destruct (iteration_normal step c w) as (it & c' & w' & Hit).
  exists it, c', w'. split; [exact Hit|].
  destruct it as [entry|[|] entry].
  - apply iteration_next_entry in Hit. tauto.
  - pose proof (iteration_return_true _ _ _ _ _ _ Hit) as Hv.
    revert Hit. unfold iteration, try_catch, bind.
    destruct (dispatch step c w) as [[[r|e] c1] w1] eqn:Hd.
    + destruct r as [output|halted].
      * destruct (store_output_normal step output c1 w1) as (c2 & -> & _).
        unfold now, ret. destruct (now_iso w1). discriminate.
      * unfold ret. intros [= -> _ _]. revert Hd.
        destruct step as [f|r|l|d|l|n]; try discriminate; unfold dispatch, bind.
        -- unfold executeCondition, bind, get_context, push_log, ret, halt, bind,
             push_log, now, ret. simpl.
           destruct (evaluateRule r c); simpl; [discriminate|].
           destruct (now_iso w). intros [= <- _ _]. simpl. auto.
        -- unfold executeLogic, bind, get_context, push_log, ret, halt, bind,
             push_log, now, ret. simpl.
           match goal with |- context [negb ?b] => destruct b end; simpl;
             [discriminate|].
           destruct (now_iso w). intros [= <- _ _]. simpl. auto.
    + unfold push_log, now, ret, bind. destruct (now_iso w1). discriminate.
  - revert Hit. unfold iteration, try_catch, bind.
    destruct (dispatch step c w) as [[[r|e] c1] w1] eqn:Hd.
    + destruct r as [output|halted].
      * destruct (store_output_normal step output c1 w1) as (c2 & -> & _).
        unfold now, ret. destruct (now_iso w1). discriminate.
      * unfold ret. discriminate.
    + unfold push_log, now, ret. destruct (now_iso w1).
      intros [= <- _ _]. simpl. eauto.
Qed.

Lemma executeSteps_from_report (steps : list Step) (acc : list StepExecutionResult)
    (c : ExecContext) (w : World) :
  exists ok new c' w',
    executeSteps_from steps acc c w
    = (Normal {| success := ok; stepResults := acc ++ new |}, c', w')
    /\ List.map stepId new = List.map step_id (take (length new) steps)
    /\ (length new <= length steps)%nat
    /\ ok = forallb no_error new
    /\ forallb no_error (removelast new) = true.
Proof.
  revert acc c w. induction steps as [|step steps IH]; intros acc c w.
  - exists true, [], c, w. simpl. rewrite app_nil_r. repeat split; auto.
  - simpl executeSteps_from. unfold bind at 1.
    destruct (iteration_entry step c w) as (it & c1 & w1 & -> & Hentry).
    destruct it as [entry|ok entry].
    + destruct (IH (acc ++ [entry]) c1 w1) as (ok & new & c' & w' & Hrun & Hids & Hlen & Hok & Hlast).
      exists ok, (entry :: new), c', w'. rewrite Hrun, <- app_assoc. simpl.
      destruct Hentry as [Hid Herr].
      split; [reflexivity|]. split; [now rewrite Hid, Hids|].
      split; [lia|]. unfold no_error at 1. rewrite Herr. simpl.
      split; [exact Hok|].
      destruct new as [|e new]; [reflexivity|].
      change (forallb no_error (entry :: removelast (e :: new)) = true).
      simpl forallb at 1. unfold no_error at 1. rewrite Herr. exact Hlast.
    + exists ok, [entry], c1, w1. unfold ret. simpl.
      split; [reflexivity|].
      destruct ok; simpl.
      * destruct Hentry as [-> Herr]. unfold no_error. rewrite Herr.
        repeat split; auto; lia.
      * destruct Hentry as (-> & [m Herr] & _). unfold no_error. rewrite Herr.
        repeat split; auto; lia.
Qed.

(** X3. [executeSteps] never throws, whatever its steps do: it returns an
    outcome with one result per executed step, under the ids of the first
    steps of the list in their order; [success] is true exactly when no
    result carries an error, and only the last result can carry one. *)
Theorem executeSteps_reports_a_prefix_of_the_steps
    (steps : list Step) (c : ExecContext) (w : World) :
  exists outcome c' w',
    executeSteps steps c w = (Normal outcome, c', w')
    /\ List.map stepId (stepResults outcome)
       = List.map step_id (take (length (stepResults outcome)) steps)
    /\ success outcome = forallb no_error (stepResults outcome)
    /\ forallb no_error (removelast (stepResults outcome)) = true.
Proof.
  destruct (executeSteps_from_report steps [] c w)
    as (ok & new & c' & w' & Hrun & Hids & _ & Hok & Hlast).
  exists {| success := ok; stepResults := new |}, c', w'. simpl. auto.
Qed.

End Execution.
End ReportFacts.

(* ===================================================================== *)
(** * Fetch, delay and notify steps *)
(* ===================================================================== *)

Module DurationFacts.
Import JS Platform Schema Steps Spec Props.

Lemma unit_factor_head (unit : string) (factor : Z) :
  unit_factor unit = Some factor ->
  exists c r, unit = String c r /\ Str.is_digit c = false.
Proof.
  unfold unit_factor.
  destruct (String.eqb unit "ms") eqn:E1; [apply String.eqb_eq in E1; subst; eauto|].
  destruct (String.eqb unit "s") eqn:E2; [apply String.eqb_eq in E2; subst; eauto|].
  destruct (String.eqb unit "m") eqn:E3; [apply String.eqb_eq in E3; subst; eauto|].
  destruct (String.eqb unit "h") eqn:E4; [apply String.eqb_eq in E4; subst; eauto|].
  discriminate.
Qed.

Lemma parseDuration_unit (duration : string) :
  parseDuration duration
  = match Str.take_while Str.is_digit duration,
          unit_factor (Str.drop_while Str.is_digit duration) with
    | String _ _ as digits, Some factor =>
        Normal (milliseconds (Str.digits_val digits) factor)
    | _, _ =>
        Throw (Error ("Invalid duration format " +:+ dquote +:+ duration
                      +:+ dquote))
    end.
Proof.
  unfold parseDuration, unit_factor.
  destruct (Str.take_while Str.is_digit duration) as [|c r]; [reflexivity|].
  simpl Str.truthy. cbv iota. simpl negb. cbv iota.
  destruct (String.eqb _ "ms"); [reflexivity|].
  destruct (String.eqb _ "s"); [reflexivity|].
  destruct (String.eqb _ "m"); [reflexivity|].
  destruct (String.eqb _ "h"); reflexivity.
Qed.

Lemma digits_val_nonneg (s : string) :
  Str.forallb Str.is_digit s = true -> 0 <= Str.digits_val s.
Proof.
  assert (Hgo : forall s acc, Str.forallb Str.is_digit s = true -> 0 <= acc ->
            0 <= (fix go (s : string) (acc : Z) {struct s} : Z :=
                    match s with
                    | EmptyString => acc
                    | String c r => go r (10 * acc + Str.digit_val c)
                    end) s acc).
  { clear. induction s as [|c r IH]; intros acc; simpl; [auto|].
    intros Hd Hacc. apply andb_prop in Hd as [Hc Hr]. apply IH; [exact Hr|].
    unfold Str.is_digit in Hc. apply andb_prop in Hc as [Hlo _].
    apply Nat.leb_le in Hlo. unfold Str.digit_val. lia. }
  intros Hs. unfold Str.digits_val. apply Hgo; [exact Hs | lia].
Qed.

Lemma binary64_of_small (z : Z) : Z.abs z < 2 ^ 53 -> binary64_of_Z z = Dec z 0.
Proof.
  intros Hz. unfold binary64_of_Z.
  destruct (Z.ltb_spec (Z.abs z) (2 ^ 53)); [reflexivity | lia].
Qed.

(** Below [2 ^ 53] the product is the product of the integers. *)
Lemma milliseconds_exact (value factor : Z) :
  0 <= value -> 1 <= factor -> value * factor < 2 ^ 53 ->
  milliseconds value factor = Dec (value * factor) 0.
Proof.
  intros Hv Hf Hlt. unfold milliseconds, binary64_product.
  destruct (Z.eqb_spec factor 1) as [->|_].
  - rewrite Z.mul_1_r in *. apply binary64_of_small. lia.
  - rewrite (binary64_of_small value) by nia. apply binary64_of_small. nia.
Qed.

Lemma unit_factor_positive (unit : string) (factor : Z) :
  unit_factor unit = Some factor -> 1 <= factor.
Proof.
  unfold unit_factor.
  repeat (destruct (String.eqb unit _); [intros [= <-]; lia|]). discriminate.
Qed.

(** X6. [parseDuration] accepts exactly the texts made of one or more
    decimal digits followed by one of the units [ms], [s], [m] and [h],
    and gives the number of the digits, as binary64 has it, times the
    milliseconds of the unit, rounded again; that is the product of the
    integers whenever it is below [2 ^ 53].  Every other text, the empty
    one, one with a sign, a fraction or a space included, is refused with
    [Invalid duration format "<text>"]. *)
Theorem parseDuration_accepts_digits_and_a_unit (duration : string) :
  (forall ms,
     parseDuration duration = Normal ms <->
     exists digits unit factor,
       duration = digits +:+ unit
       /\ digits <> EmptyString
       /\ Str.forallb Str.is_digit digits = true
       /\ unit_factor unit = Some factor
       /\ ms = milliseconds (Str.digits_val digits) factor
       /\ (Str.digits_val digits * factor < 2 ^ 53 ->
           ms = Dec (Str.digits_val digits * factor) 0))
  /\ (forall e,
        parseDuration duration = Throw e ->
        e = Error ("Invalid duration format " +:+ dquote +:+ duration +:+ dquote)).
Proof.
  split.
  - intros ms. rewrite parseDuration_unit. split.
    + destruct (Str.take_while Str.is_digit duration) as [|c r] eqn:Ht; [discriminate|].
      destruct (unit_factor _) as [factor|] eqn:Hu; [|discriminate].
      intros [= <-].
      exists (String c r), (Str.drop_while Str.is_digit duration), factor.
      assert (Hall : Str.forallb Str.is_digit (String c r) = true)
        by (rewrite <- Ht; apply StrFacts.take_while_all).
      split; [rewrite <- Ht; now rewrite StrFacts.take_drop_while|].
      split; [discriminate|]. split; [exact Hall|]. split; [exact Hu|].
      split; [reflexivity|].
      intros Hlt. apply milliseconds_exact;
        [now apply digits_val_nonneg | now apply unit_factor_positive in Hu | exact Hlt].
    + intros (digits & unit & factor & -> & Hne & Hall & Hu & -> & _).
      destruct (unit_factor_head _ _ Hu) as (c & r & -> & Hc).
      rewrite (StrFacts.take_while_run _ _ _ _ Hall Hc).
      rewrite (StrFacts.drop_while_run _ _ _ _ Hall Hc), Hu.
      destruct digits; [congruence | reflexivity].
  - intros e. rewrite parseDuration_unit.
    destruct (Str.take_while Str.is_digit duration); [now intros [= <-]|].
    destruct (unit_factor _); [discriminate | now intros [= <-]].
Qed.

(** Above [2 ^ 53] the digits are rounded: to the even neighbour, and to
    infinity when they are too many. *)
Example parseDuration_rounds :
  parseDuration "9007199254740993ms" = Normal (Dec 9007199254740992 0)
  /\ parseDuration "9007199254740995ms" = Normal (Dec 9007199254740996 0)
  /\ parseDuration "9007199254740993s" = Normal (Dec 9007199254740992000 0)
  /\ parseDuration ("1" +:+ Str.repeat "0" 309 +:+ "h") = Normal PosInf.
Proof. repeat split; vm_compute; reflexivity. Qed.

End DurationFacts.

Module KindFacts.
Import JS Platform Schema Steps Spec Props StepsFacts.

Section Execution.
Context {World : Type} `{Runtime World} `{Host}.

Lemma proceeds_app (pre : list Step) (step : Step) (c : ExecContext) (w : World)
    entries c1 w1 entry c2 w2 :
  proceeds pre c w entries c1 w1 ->
  iteration step c1 w1 = (Normal (Next entry), c2, w2) ->
  proceeds (pre ++ [step]) c w (entries ++ [entry]) c2 w2.
Proof.
  induction 1 as [|s steps c w e c1 w1 entries c3 w3 Hit _ IH]; intros Hstep; simpl.
  - econstructor; [exact Hstep | constructor].
  - econstructor; [exact Hit | exact (IH Hstep)].
Qed.

(** A step whose executor throws ends the run: the error is logged and
    recorded, and the loop returns with failure. *)
Lemma iteration_thrown (step : Step) (c : ExecContext) (w : World)
    (e : thrown) (c1 : ExecContext) (w1 : World) :
  dispatch step c w = (Throw e, c1, w1) ->
  iteration step c w
  = (Normal (Return false {| stepId := step_id step; output := None;
                             error := Some (error_message e);
                             timestamp := fst (now_iso w1) |}),
     {| results := results c1;
        logs := logs c1 ++ ["[" +:+ step_type step +:+ "] Error: "
                            +:+ error_message e] |},
     snd (now_iso w1)).
Proof.
  intros Hd. unfold iteration, try_catch. unfold bind at 1. rewrite Hd.
  unfold bind, push_log, now, ret. destruct (now_iso w1). reflexivity.
Qed.

Lemma executeSteps_failure (pre : list Step) (step : Step) (post : list Step)
    (c : ExecContext) (w : World) entries c1 w1 entry c2 w2 :
  proceeds pre c w entries c1 w1 ->
  iteration step c1 w1 = (Normal (Return false entry), c2, w2) ->
  executeSteps (pre ++ step :: post) c w
  = (Normal {| success := false; stepResults := entries ++ [entry] |}, c2, w2).
Proof.
  intros Hp Hit. unfold executeSteps.
  rewrite (executeSteps_from_proceeds _ _ _ _ _ _ _ _ Hp).
  simpl. unfold bind. now rewrite Hit.
Qed.

(** ** Fetch steps *)

(** X5. A fetch step whose request is answered goes on to the next step
    whatever the status of the answer, 404 and 500 included: the captured
    [{ status, headers, body }] is assigned to the results under the id of
    the step, where it is read afterwards (under the id [__proto__] as the
    prototype that it has become), it is the output of the result of the
    step, and one line is logged. *)
Theorem answered_fetch_is_stored_whatever_its_status
    (pre : list Step) (f : FetchStep)
    (c : ExecContext) (w : World)
    (entries : list StepExecutionResult) (c1 : ExecContext) (w1 : World)
    (resp : Response) (w2 : World) :
  proceeds pre c w entries c1 w1 ->
  http_fetch (fetch_request f) w1 = (Normal resp, w2) ->
  let entry := {| stepId := fetch_id f; output := Some (fetch_output resp);
                  error := None; timestamp := fst (now_iso w2) |} in
  let line := "[fetch:" +:+ fetch_id f +:+ "] "
              +:+ show_option method_name (fetch_method f) +:+ " "
              +:+ fetch_url f +:+ " -> " +:+ show_Z (status resp) in
  let stored := assign (fetch_id f) (fetch_output resp) (results c1) in
  proceeds (pre ++ [StepFetch f]) c w (entries ++ [entry])
    {| results := stored; logs := logs c1 ++ [line] |}
    (snd (now_iso w2))
  /\ read stored (fetch_id f) = fetch_output resp
  /\ (forall key, key <> fetch_id f -> stored !! key = results c1 !! key).
Proof.
  intros Hp Hf. cbv zeta. split; [|split].
  - eapply proceeds_app; [exact Hp|].
    unfold iteration, dispatch, executeFetch, store_output. unfold_monad.
    rewrite Hf. simpl. destruct (now_iso w2). reflexivity.
  - unfold fetch_output. rewrite DictFacts.assign_object.
    apply DictFacts.read_own; [apply lookup_insert_eq | reflexivity].
  - intros key Hkey. now apply DictFacts.assign_lookup_ne.
Qed.

(** ** Delay steps *)

(** X7. A delay step whose duration parses sets one timer, of the parsed
    number of milliseconds, and goes on.  One whose duration does not
    parse sets no timer: the run fails there with the error of the parse,
    and no later step is executed. *)
Theorem delay_waits_or_fails_the_run
    (pre : list Step) (duration : string) (post : list Step)
    (c : ExecContext) (w : World)
    (entries : list StepExecutionResult) (c1 : ExecContext) (w1 : World) :
  proceeds pre c w entries c1 w1 ->
  match parseDuration duration with
  | Normal ms =>
      proceeds (pre ++ [StepDelay duration]) c w
        (entries ++ [{| stepId := "delay"; output := Some (VBool true);
                        error := None;
                        timestamp := fst (now_iso (set_timeout ms w1)) |}])
        c1 (snd (now_iso (set_timeout ms w1)))
  | Throw e =>
      executeSteps (pre ++ StepDelay duration :: post) c w
      = (Normal {| success := false;
                   stepResults :=
                     entries ++ [{| stepId := "delay"; output := None;
                                    error := Some (error_message e);
                                    timestamp := fst (now_iso w1) |}] |},
         {| results := results c1;
            logs := logs c1 ++ ["[delay] Error: " +:+ error_message e] |},
         snd (now_iso w1))
  end.
Proof.
  intros Hp. destruct (parseDuration duration) as [ms|e] eqn:Hd.
  - eapply proceeds_app; [exact Hp|].
    unfold iteration, dispatch, executeDelay, store_output. unfold_monad.
    rewrite Hd. simpl. destruct (now_iso (set_timeout ms w1)).
    destruct c1. reflexivity.
  - eapply executeSteps_failure; [exact Hp|].
    rewrite (iteration_thrown (StepDelay duration) c1 w1 e c1 w1); [reflexivity|].
    unfold dispatch, executeDelay. unfold_monad. now rewrite Hd.
Qed.

(** ** Notify steps *)

(** The request of a notify step. *)
Lemma executeNotify_answered (n : NotifyStep) (c : ExecContext) (w : World)
    (payload : any) (resp : Response) (w1 : World) :
  notify_payload n c = Normal payload ->
  http_fetch {| req_url := notify_url n; req_method := "POST";
                req_headers := [("Content-Type", "application/json")];
                req_body := stringify payload; req_timeout := None |} w
  = (Normal resp, w1) ->
  executeNotify n c w
  = ((if ok resp then Normal true
      else Throw (Error ("Notify request failed (" +:+ show_Z (status resp)
                         +:+ "): " +:+ Str.take 100 (resp_text resp)))),
     {| results := results c;
        logs := logs c ++ ["[notify:" +:+ notify_name (notify_method n)
                           +:+ "] status=" +:+ show_Z (status resp)] |},
     w1).
Proof.
  intros Hp Hf. unfold executeNotify. unfold_monad. rewrite Hp, Hf.
  destruct (ok resp); reflexivity.
Qed.

(** X8. A notify step whose request is answered with a status outside
    200..299 fails the run: after the line with the status, the error
    [Notify request failed (<status>): <text>] is logged and recorded,
    with at most the first 100 characters of the answer, and no later
    step is executed. *)
Theorem refused_notification_fails_the_run
    (pre : list Step) (n : NotifyStep) (post : list Step)
    (c : ExecContext) (w : World)
    (entries : list StepExecutionResult) (c1 : ExecContext) (w1 : World)
    (payload : any) (resp : Response) (w2 : World) :
  proceeds pre c w entries c1 w1 ->
  notify_payload n c1 = Normal payload ->
  http_fetch {| req_url := notify_url n; req_method := "POST";
                req_headers := [("Content-Type", "application/json")];
                req_body := stringify payload; req_timeout := None |} w1
  = (Normal resp, w2) ->
  ok resp = false ->
  let message := "Notify request failed (" +:+ show_Z (status resp) +:+ "): "
                 +:+ Str.take 100 (resp_text resp) in
  executeSteps (pre ++ StepNotify n :: post) c w
  = (Normal {| success := false;
               stepResults :=
                 entries ++ [{| stepId := "notify"; output := None;
                                error := Some message;
                                timestamp := fst (now_iso w2) |}] |},
     {| results := results c1;
        logs := logs c1
                ++ ["[notify:" +:+ notify_name (notify_method n) +:+ "] status="
                    +:+ show_Z (status resp);
                    "[notify] Error: " +:+ message] |},
     snd (now_iso w2))
  /\ (String.length (Str.take 100 (resp_text resp)) <= 100)%nat.
Proof.
  intros Hp Hpay Hf Hok. cbv zeta. split.
  - eapply executeSteps_failure; [exact Hp|].
    erewrite iteration_thrown.
    2:{ unfold dispatch. unfold bind at 1.
        rewrite (executeNotify_answered n c1 w1 payload resp w2 Hpay Hf), Hok.
        reflexivity. }
    simpl. rewrite <- app_assoc. reflexivity.
  - generalize (resp_text resp). intros s.
    assert (Hgen : forall k t, (String.length (Str.take k t) <= k)%nat).
    { induction k as [|k IH]; intros [|a t]; simpl; try lia.
      specialize (IH t). lia. }
    apply Hgen.
Qed.

End Execution.

Lemma answered_fetch_is_stored_whatever_its_status_witness :
  let resp := {| status := 404; resp_headers := []; resp_text := "not found" |} in
  http_fetch (fetch_request Fixtures.missing_fetch) Sample.noon
  = (Normal resp, Sample.tick 20 Sample.noon)
  /\ proceeds ([] ++ [StepFetch Fixtures.missing_fetch]) Sample.fresh Sample.noon
       ([] ++ [{| stepId := "gone"; output := Some (fetch_output resp);
                  error := None;
                  timestamp := fst (now_iso (Sample.tick 20 Sample.noon)) |}])
       {| results := assign "gone" (fetch_output resp) ∅;
          logs := [] ++ ["[fetch:gone] GET https://api.example/missing -> 404"] |}
       (snd (now_iso (Sample.tick 20 Sample.noon)))
  /\ read (assign "gone" (fetch_output resp) ∅) "gone" = fetch_output resp.
Proof.
  assert (Hfetch : http_fetch (fetch_request Fixtures.missing_fetch) Sample.noon
                   = (Normal {| status := 404; resp_headers := [];
                                resp_text := "not found" |},
                      Sample.tick 20 Sample.noon))
    by (vm_compute; reflexivity).
  split; [exact Hfetch|].
  destruct (answered_fetch_is_stored_whatever_its_status
              [] Fixtures.missing_fetch Sample.fresh Sample.noon
              [] Sample.fresh Sample.noon
              {| status := 404; resp_headers := []; resp_text := "not found" |}
              (Sample.tick 20 Sample.noon) (proceeds_nil _ _) Hfetch)
    as (Hgoes & Hread & _).
  split; [exact Hgoes | exact Hread].
Defined.

Lemma delay_waits_or_fails_the_run_witness :
  parseDuration "soon"
  = Throw (Error ("Invalid duration format " +:+ dquote +:+ "soon" +:+ dquote))
  /\ match parseDuration "soon" with
     | Normal ms =>
         proceeds ([] ++ [StepDelay "soon"]) Sample.fresh Sample.noon
           ([] ++ [{| stepId := "delay"; output := Some (VBool true);
                      error := None;
                      timestamp := fst (now_iso (set_timeout ms Sample.noon)) |}])
           Sample.fresh (snd (now_iso (set_timeout ms Sample.noon)))
     | Throw e =>
         executeSteps ([] ++ StepDelay "soon" :: [Sample.shout_step])
           Sample.fresh Sample.noon
         = (Normal {| success := false;
                      stepResults :=
                        [] ++ [{| stepId := "delay"; output := None;
                                  error := Some (error_message e);
                                  timestamp := fst (now_iso Sample.noon) |}] |},
            {| results := results Sample.fresh;
               logs := logs Sample.fresh
                       ++ ["[delay] Error: " +:+ error_message e] |},
            snd (now_iso Sample.noon))
     end.
Proof.
  split; [vm_compute; reflexivity|].
  exact (delay_waits_or_fails_the_run [] "soon" [Sample.shout_step]
           Sample.fresh Sample.noon [] Sample.fresh Sample.noon
           (proceeds_nil Sample.fresh Sample.noon)).
Defined.

Lemma refused_notification_fails_the_run_witness :
  let resp := {| status := 404; resp_headers := []; resp_text := "not found" |} in
  let message := "Notify request failed (404): not found" in
  ok resp = false
  /\ executeSteps ([] ++ StepNotify Fixtures.hook :: [Sample.shout_step])
       Sample.fresh Sample.noon
     = (Normal {| success := false;
                  stepResults :=
                    [] ++ [{| stepId := "notify"; output := None;
                              error := Some message;
                              timestamp := fst (now_iso (Sample.tick 20 Sample.noon)) |}] |},
        {| results := ∅;
           logs := [] ++ ["[notify:slack] status=404";
                          "[notify] Error: " +:+ message] |},
        snd (now_iso (Sample.tick 20 Sample.noon))).
Proof.
  split; [reflexivity|].
  refine (proj1 (refused_notification_fails_the_run
            [] Fixtures.hook [Sample.shout_step] Sample.fresh Sample.noon
            [] Sample.fresh Sample.noon
            (VObj [("text", VStr "Price moved")])
            {| status := 404; resp_headers := []; resp_text := "not found" |}
            (Sample.tick 20 Sample.noon) _ _ _ _)).
  - constructor.
  - vm_compute. reflexivity.
  - vm_compute. reflexivity.
  - reflexivity.
Defined.

End KindFacts.

(* ===================================================================== *)
(** * Rules on missing values, and how the operators relate *)
(* ===================================================================== *)

Module RuleOrderFacts.
Import JS Platform Schema Steps Spec Props StepsFacts.

Section Rules.
Context `{Builtins}.

Lemma walk_undefined (parts : list string) : Template.walk VUndefined parts = VUndefined.
Proof. destruct parts; reflexivity. Qed.

Lemma getDeepValue_no_root (results : gmap string any) (path root : string) :
  head (Str.split "." path) = Some root ->
  read results root = VUndefined ->
  Template.getDeepValue results path = VUndefined.
Proof.
  unfold Template.getDeepValue. intros Hhead Hroot.
  destruct (negb (Str.truthy path)); [reflexivity|].
  destruct (Str.split "." path) as [|r parts]; [reflexivity|].
  injection Hhead as ->. rewrite Hroot. apply walk_undefined.
Qed.

(** X9. A rule whose input starts with a name that reads [undefined] from
    the results, being no id of a step that stored something and no
    member that the results inherit, does not throw: its value is
    [undefined], so [=] is false and [!=] is true whatever the target, and
    the four ordering operators compare the text [undefined] with the text
    of the target, even when the target is a number. *)
Theorem rule_on_a_missing_result_compares_the_text_undefined
    (rule : ConditionRule) (context : ExecContext) (root : string) :
  head (Str.split "." (input rule)) = Some root ->
  read (results context) root = VUndefined ->
  let target := to_string (scalar_value (Schema.value rule)) in
  evaluateRule rule context
  = match operator rule with
    | OpEq => false
    | OpNe => true
    | OpLt => String.ltb "undefined" target
    | OpGt => String.ltb target "undefined"
    | OpLe => String.leb "undefined" target
    | OpGe => String.leb target "undefined"
    end.
Proof.
  intros Hhead Hroot. cbv zeta. unfold evaluateRule.
  rewrite (getDeepValue_no_root _ _ _ Hhead Hroot).
  destruct (operator rule); reflexivity.
Qed.

Lemma dec_compare_antisym (m1 e1 m2 e2 : Z) :
  dec_compare m2 e2 m1 e1 = CompOpp (dec_compare m1 e1 m2 e2).
Proof.
  unfold dec_compare. rewrite (Z.min_comm e2 e1). apply Z.compare_antisym.
Qed.

Lemma num_geb_ltb (a b : number) :
  isNaN a = false -> isNaN b = false -> num_geb a b = negb (num_ltb a b).
Proof.
  unfold num_geb, num_leb. intros -> ->. reflexivity.
Qed.

Lemma string_leb_ltb (a b : string) : String.leb b a = negb (String.ltb a b).
Proof.
  unfold String.leb, String.ltb. rewrite (String.compare_antisym a b).
  destruct (String.compare b a); reflexivity.
Qed.

(** X10. The ordering operators of a rule are consistent with each other in
    every context, for numbers, texts and missing values alike: [>=]
    holds exactly when [<] does not, and [<=] exactly when [>] does not;
    [!=] holds exactly when [=] does not. *)
Theorem rule_operators_are_complementary
    (rule : ConditionRule) (context : ExecContext) :
  evaluateRule (with_operator rule OpGe) context
  = negb (evaluateRule (with_operator rule OpLt) context)
  /\ evaluateRule (with_operator rule OpLe) context
     = negb (evaluateRule (with_operator rule OpGt) context)
  /\ evaluateRule (with_operator rule OpNe) context
     = negb (evaluateRule (with_operator rule OpEq) context).
Proof.
  unfold evaluateRule, with_operator. simpl.
  destruct (isNaN (to_number (Template.getDeepValue (results context) (input rule)))) eqn:Ha;
    destruct (isNaN (to_number (scalar_value (Schema.value rule)))) eqn:Hb; simpl;
    repeat split; auto using string_leb_ltb.
  - now apply num_geb_ltb.
  - unfold num_gtb. unfold num_leb. now rewrite Ha, Hb.
Qed.

End Rules.

Section Execution.
Context {World : Type} `{Runtime World} `{Host}.

Lemma iteration_true (step : Step) (c : ExecContext) (w : World) :
  verdict step c = Some true ->
  exists line,
    iteration step c w
    = (Normal (Next {| stepId := step_type step; output := Some (VBool true);
                       error := None; timestamp := fst (now_iso w) |}),
       {| results := results c; logs := logs c ++ [line] |},
       snd (now_iso w)).
Proof.
  destruct step as [f|r|l|d|l|n]; try discriminate; simpl; intros Hv.
  - injection Hv as Hr.
    unfold iteration, dispatch, executeCondition, store_output. unfold_monad. simpl.
    rewrite Hr. simpl. destruct (now_iso w) as [t w1]. simpl. eauto.
  - assert (Hr : match logic_mode l with
                 | AND => forallb (fun b => b)
                            (List.map (fun condition => evaluateRule condition c)
                               (logic_conditions l))
                 | OR => existsb (fun b => b)
                           (List.map (fun condition => evaluateRule condition c)
                              (logic_conditions l))
                 end = true).
    { rewrite forallb_map_id, existsb_map_id. destruct (logic_mode l); congruence. }
    unfold iteration, dispatch, executeLogic, store_output. unfold_monad. simpl.
    rewrite Hr. simpl. destruct (now_iso w) as [t w1]. simpl. eauto.
Qed.

(** X11. A condition or logic step that evaluates to true goes on to the
    next step: its result has the type of the step as id and [true] as
    output, one line is logged and the results are not touched.  A logic
    step evaluates to true when all its conditions hold ([AND]) or one of
    them does ([OR]); with no condition at all, [AND] goes on and [OR]
    stops the run. *)
Theorem true_condition_goes_on
    (pre : list Step) (step : Step)
    (c : ExecContext) (w : World)
    (entries : list StepExecutionResult) (c1 : ExecContext) (w1 : World) :
  proceeds pre c w entries c1 w1 ->
  verdict step c1 = Some true ->
  (exists line,
     proceeds (pre ++ [step]) c w
       (entries ++ [{| stepId := step_type step; output := Some (VBool true);
                       error := None; timestamp := fst (now_iso w1) |}])
       {| results := results c1; logs := logs c1 ++ [line] |}
       (snd (now_iso w1)))
  /\ verdict (StepLogic {| logic_mode := AND; logic_conditions := [] |}) c1
     = Some true
  /\ verdict (StepLogic {| logic_mode := OR; logic_conditions := [] |}) c1
     = Some false.
Proof.
  intros Hp Hv. split; [|split; reflexivity].
  destruct (iteration_true step c1 w1 Hv) as (line & Hit).
  exists line. exact (KindFacts.proceeds_app _ _ _ _ _ _ _ _ _ _ Hp Hit).
Qed.

End Execution.

Lemma rule_on_a_missing_result_compares_the_text_undefined_witness :
  head (Str.split "." (input Fixtures.below_zebra)) = Some "gone"
  /\ read (results Sample.fresh) "gone" = VUndefined
  /\ evaluateRule Fixtures.below_zebra Sample.fresh = String.ltb "undefined" "zebra"
  /\ String.ltb "undefined" "zebra" = true.
Proof.
  split; [reflexivity|]. split; [reflexivity|]. split; [|reflexivity].
  exact (rule_on_a_missing_result_compares_the_text_undefined
           Fixtures.below_zebra Sample.fresh "gone" eq_refl eq_refl).
Defined.

Lemma true_condition_goes_on_witness :
  let always := StepLogic {| logic_mode := AND; logic_conditions := [] |} in
  verdict always Sample.fresh = Some true
  /\ exists line,
       proceeds ([] ++ [always]) Sample.fresh Sample.noon
         ([] ++ [{| stepId := "logic"; output := Some (VBool true);
                    error := None; timestamp := fst (now_iso Sample.noon) |}])
         {| results := ∅; logs := [] ++ [line] |}
         (snd (now_iso Sample.noon)).
Proof.
  split; [reflexivity|].
  exact (proj1 (true_condition_goes_on
                  [] (StepLogic {| logic_mode := AND; logic_conditions := [] |})
                  Sample.fresh Sample.noon [] Sample.fresh Sample.noon
                  (proceeds_nil Sample.fresh Sample.noon) eq_refl)).
Defined.

End RuleOrderFacts.

(* ===================================================================== *)
(** * Interpolation: plain text and resolved placeholders *)
(* ===================================================================== *)

Module PlainTextFacts.
Import JS Template Spec Props TemplateFacts.

Lemma no_close_drop_while (s : string) :
  has_close s = false -> Str.drop_while not_close s = "".
Proof.
  induction s as [|c r IH]; simpl; [reflexivity|].
  unfold not_close at 1. destruct (Ascii.eqb c "}"); simpl; [discriminate|].
  exact IH.
Qed.

Lemma has_close_tail (c : ascii) (s : string) :
  has_close (String c s) = false -> has_close s = false.
Proof. simpl. now destruct (Ascii.eqb c "}"), (has_close s). Qed.

Lemma placeholder_at_plain (s : string) :
  has_open s = false \/ has_close s = false -> placeholder_at s = None.
Proof.
  rewrite placeholder_at_cases.
  destruct s as [|c [|d t]]; try reflexivity.
  destruct (Ascii.eqb c "$" && Ascii.eqb d "{") eqn:Hcd; [|reflexivity].
  intros [Ho|Hc].
  - simpl in Ho. rewrite Hcd in Ho. discriminate.
  - apply has_close_tail, has_close_tail in Hc.
    now rewrite (no_close_drop_while _ Hc).
Qed.

Lemma plain_tail (c : ascii) (s : string) :
  has_open (String c s) = false \/ has_close (String c s) = false ->
  has_open s = false \/ has_close s = false.
Proof.
  intros [Ho|Hc]; [left | right; exact (has_close_tail _ _ Hc)].
  destruct s as [|d t]; [reflexivity|].
  simpl in Ho. apply orb_false_iff in Ho as [_ Ho]. exact Ho.
Qed.

Lemma replace_placeholders_plain (f : string -> string) (s : string) :
  has_open s = false \/ has_close s = false ->
  replace_placeholders f s = s.
Proof.
  induction s as [|c r IH]; intros Hs; [now simp replace_placeholders|].
  rewrite replace_placeholders_step, (placeholder_at_plain _ Hs).
  now rewrite (IH (plain_tail _ _ Hs)).
Qed.

Section Interpolation.
Context `{Builtins}.

(** X12. A text that holds no ["${"], or no ["}"], comes out of the
    interpolation as it went in, whatever the results: a dollar sign or a
    brace alone, and a placeholder that is never closed, are left as they
    are. *)
Theorem text_without_placeholders_is_unchanged
    (text : string) (results : gmap string any) :
  has_open text = false \/ has_close text = false ->
  interpolateTemplate (Some text) results = text
  /\ interpolateJsonPayload text results = text.
Proof.
  intros Hplain. unfold interpolateJsonPayload.
  rewrite interpolateTemplate_some.
  now rewrite (replace_placeholders_plain _ _ Hplain).
Qed.

(** X13. A placeholder [${expr}] whose trimmed path resolves to a value
    other than [undefined] and [null] is replaced by that value: as JSON
    when it is an object or an array, by its [String] form otherwise.
    The inserted text is not scanned again, so a placeholder inside a
    value stays as it is; the text before and the text after are
    interpolated on their own. *)
Theorem interpolation_inserts_resolved_values
    (results : gmap string any) (pre expr post : string) (v : any) :
  self_contained pre = true ->
  expr <> "" ->
  Str.forallb not_close expr = true ->
  getDeepValue results (Str.trim expr) = v ->
  is_nullish v = false ->
  interpolateTemplate (Some (pre +:+ "${" +:+ expr +:+ "}" +:+ post)) results
  = interpolateTemplate (Some pre) results
    +:+ (if typeof_object v
         then match stringify v with Some json => json | None => "undefined" end
         else to_string v)
    +:+ interpolateTemplate (Some post) results.
Proof.
  intros Hpre Hne Hex Hv Hnn.
  rewrite !interpolateTemplate_some.
  rewrite replace_placeholders_split
    by (assumption || now apply self_contained_closes).
  unfold render. rewrite Hv, Hnn. reflexivity.
Qed.

End Interpolation.

#[local] Existing Instance Sample.builtins.

Lemma text_without_placeholders_is_unchanged_witness :
  (has_open "Cost: $5 {approx}" = false \/ has_close "Cost: $5 {approx}" = false)
  /\ interpolateTemplate (Some "Cost: $5 {approx}") Sample.mockResults
     = "Cost: $5 {approx}".
Proof.
  split; [left; reflexivity|].
  exact (proj1 (text_without_placeholders_is_unchanged
                  "Cost: $5 {approx}" Sample.mockResults (or_introl eq_refl))).
Defined.

Lemma interpolation_inserts_resolved_values_witness :
  getDeepValue Sample.mockResults (Str.trim " priceFetch.body.price ")
  = VNum (Dec 420005 (-1))
  /\ interpolateTemplate
       (Some ("Price: " +:+ "${" +:+ " priceFetch.body.price " +:+ "}" +:+ " USD"))
       Sample.mockResults
     = interpolateTemplate (Some "Price: ") Sample.mockResults
       +:+ "42000.5"
       +:+ interpolateTemplate (Some " USD") Sample.mockResults.
Proof.
  split; [vm_compute; reflexivity|].
  refine (interpolation_inserts_resolved_values Sample.mockResults
            "Price: " " priceFetch.body.price " " USD" (VNum (Dec 420005 (-1)))
            _ _ _ _ _).
  - reflexivity.
  - discriminate.
  - reflexivity.
  - vm_compute. reflexivity.
  - reflexivity.
Defined.

End PlainTextFacts.

(* ===================================================================== *)
(** * What the flow schema accepts *)
(* ===================================================================== *)

Module SchemaFacts.
Import JS Platform Schema Props.

Section Parse.
Context `{Host}.

Lemma steps_issues_from_nil (index : nat) (steps : list Step) :
  steps_issues_from index steps = [] <->
  forallb (fun step => match step with
                       | StepFetch f => Str.truthy (fetch_id f)
                       | StepNotify n => is_url (notify_url n)
                       | _ => true
                       end) steps = true.
Proof.
  revert index. induction steps as [|step steps IH]; intros index; simpl; [tauto|].
  rewrite andb_true_iff, <- (IH (S index)). split.
  - intros Happ. apply app_eq_nil in Happ as [Hs Hrest]. split; [|exact Hrest].
    destruct step as [f| | | | |n]; simpl in Hs; try reflexivity.
    + now destruct (Str.truthy (fetch_id f)).
    + now destruct (is_url (notify_url n)).
  - intros [Hs ->]. rewrite app_nil_r.
    destruct step as [f| | | | |n]; simpl; try reflexivity; now rewrite Hs.
Qed.

Lemma validateNotifySteps_from_nil (index : nat) (seen : gset string)
    (steps : list Step) :
  validateNotifySteps_from index seen steps = [] <->
  NoDup (fetch_ids steps)
  /\ (forall x, x ∈ fetch_ids steps -> x ∉ seen)
  /\ forallb (fun step => match step with
                          | StepNotify n => notify_complete n
                          | _ => true
                          end) steps = true.
Proof.
  revert index seen. induction steps as [|step steps IH]; intros index seen.
  - simpl. split; [|reflexivity]. intros _. split; [constructor|].
    split; [|reflexivity]. intros x Hx. now apply not_elem_of_nil in Hx.
  - destruct step as [f|r|l|d|l|n];
      try (simpl; rewrite IH; reflexivity).
    + simpl validateNotifySteps_from.
      change (fetch_ids (StepFetch f :: steps)) with (fetch_id f :: fetch_ids steps).
      destruct (decide (fetch_id f ∈ seen)) as [Hin|Hnin].
      * split; [discriminate|]. intros (_ & Hdisj & _).
        exfalso. apply (Hdisj (fetch_id f)); [apply list_elem_of_here | exact Hin].
      * rewrite IH. rewrite NoDup_cons. simpl. split.
        -- intros (Hnd & Hdisj & Hall). split; [split; [|exact Hnd]|split; [|exact Hall]].
           ++ intros Hdup. apply (Hdisj _ Hdup).
              apply elem_of_union_l, elem_of_singleton_2. reflexivity.
           ++ intros x Hx. apply elem_of_cons in Hx as [->|Hx]; [exact Hnin|].
              intros Hs. apply (Hdisj x Hx), elem_of_union_r, Hs.
        -- intros ([Hfresh Hnd] & Hdisj & Hall). split; [exact Hnd|]. split; [|exact Hall].
           intros x Hx [Hx1|Hx2]%elem_of_union.
           ++ apply elem_of_singleton in Hx1. subst x. contradiction.
           ++ apply (Hdisj x); [now apply list_elem_of_further | exact Hx2].
    + simpl validateNotifySteps_from.
      change (fetch_ids (StepNotify n :: steps)) with (fetch_ids steps).
      unfold notify_complete at 1. simpl forallb.
      destruct (notify_method n);
        match goal with |- context [negb ?b] => destruct b end; simpl;
        try (rewrite IH; reflexivity);
        (split; [discriminate | intros (_ & _ & ?); discriminate]).
Qed.

Lemma forallb_and {A : Type} (p q : A -> bool) (l : list A) :
  forallb (fun x => p x && q x) l = forallb p l && forallb q l.
Proof.
  induction l as [|x l IH]; simpl; [reflexivity|]. rewrite IH.
  destruct (p x), (q x), (forallb p l), (forallb q l); reflexivity.
Qed.

Lemma acceptable_split (steps : list Step) :
  forallb step_acceptable steps
  = forallb (fun step => match step with
                         | StepFetch f => Str.truthy (fetch_id f)
                         | StepNotify n => is_url (notify_url n)
                         | _ => true
                         end) steps
    && forallb (fun step => match step with
                            | StepNotify n => notify_complete n
                            | _ => true
                            end) steps.
Proof.
  rewrite <- forallb_and.
  induction steps as [|[f| | | | |n] steps IH]; simpl; rewrite ?IH;
    try reflexivity. now rewrite andb_true_r.
Qed.

Lemma issues_nil (steps : list Step) :
  steps_issues_from 0 steps ++ validateNotifySteps steps = [] <->
  forallb step_acceptable steps = true /\ NoDup (fetch_ids steps).
Proof.
  rewrite acceptable_split, andb_true_iff.
  rewrite <- (steps_issues_from_nil 0).
  unfold validateNotifySteps. split.
  - intros Happ. apply app_eq_nil in Happ as [Hs Hv].
    apply validateNotifySteps_from_nil in Hv as (Hnd & _ & Hall). auto.
  - intros [[-> Hall] Hnd]. simpl. apply validateNotifySteps_from_nil.
    split; [exact Hnd|]. split; [|exact Hall]. intros x _.
    apply not_elem_of_empty.
Qed.

Lemma fetch_ids_defaults (steps : list Step) :
  fetch_ids (List.map step_defaults steps) = fetch_ids steps.
Proof.
  induction steps as [|step steps IH]; [reflexivity|].
  destruct step; simpl; try exact IH.
  unfold fetch_ids in *. simpl. now rewrite IH.
Qed.

Lemma acceptable_defaults (steps : list Step) :
  forallb step_acceptable (List.map step_defaults steps)
  = forallb step_acceptable steps.
Proof.
  induction steps as [|[f| | | | |n] steps IH]; simpl; now rewrite ?IH.
Qed.

Lemma step_defaults_idempotent (step : Step) :
  step_defaults (step_defaults step) = step_defaults step.
Proof. destruct step; reflexivity. Qed.

(** X14. [FlowConfigSchema] accepts a configuration exactly when every
    fetch step has a non-empty id, no two fetch steps share an id, every
    notify step has a valid url and the text its method needs (the raw
    payload for a webhook, the message otherwise; blank does not count).
    An accepted configuration comes back with [enabled] defaulted to
    true and the method of each fetch step defaulted to [GET], and is
    accepted unchanged when parsed again. *)
Theorem FlowConfigSchema_accepts_well_formed_steps (payload : FlowConfig) :
  ((exists config, FlowConfigSchema_parse payload = Normal config)
   <-> forallb step_acceptable (steps payload) = true
       /\ NoDup (fetch_ids (steps payload)))
  /\ forall config,
       FlowConfigSchema_parse payload = Normal config ->
       config = {| name := name payload; schedule := schedule payload;
                   enabled := Some (default true (enabled payload));
                   steps := List.map step_defaults (steps payload) |}
       /\ FlowConfigSchema_parse config = Normal config.
Proof.
  unfold FlowConfigSchema_parse at 1 2.
  pose proof (issues_nil (steps payload)) as Hnil.
  destruct (steps_issues_from 0 (steps payload) ++ validateNotifySteps (steps payload))
    as [|issue issues] eqn:Hissues.
  - split.
    + split; [intros _; now apply Hnil | eauto].
    + intros config [= <-]. split; [reflexivity|].
      unfold FlowConfigSchema_parse. simpl.
      assert (Hagain : steps_issues_from 0 (List.map step_defaults (steps payload))
                       ++ validateNotifySteps (List.map step_defaults (steps payload))
                       = []).
      { apply issues_nil. rewrite acceptable_defaults, fetch_ids_defaults.
        now apply Hnil. }
      rewrite Hagain. f_equal. f_equal.
      rewrite List.map_map. apply List.map_ext. apply step_defaults_idempotent.
  - split.
    + split; [intros [config Hc]; discriminate|].
      intros Hok. apply Hnil in Hok. discriminate.
    + intros config Hc. discriminate.
Qed.

End Parse.
End SchemaFacts.

(* ===================================================================== *)
(** * Run records of the interpreter, and ids of ids *)
(* ===================================================================== *)

Module RecordFacts.
Import JS Platform Schema Steps Runs Utils Spec Props.

Section Orchestrator.
Context {World : Type} `{Runtime World} `{Host}.

(** X15. The record [runFlowNow] returns with the interpreter of the
    repository: its log starts with the line [[system] Triggered by
    <trigger> at <startedAt>]; its steps are the results of the first
    steps of the flow, in order and under their ids, so the synthetic
    [execution] step of the [catch] never shows; its status is success
    exactly when no step result carries an error; and it names the flow
    it was started with. *)
Theorem run_record_reports_the_steps_of_the_flow
    (flow : FlowRecord) (options : RunOptions) (w : World) :
  let record := fst (runFlowNow flow options w) in
  let trigger := default manual (opt_trigger options) in
  (exists rest,
     run_logs record
     = ("[system] Triggered by " +:+ trigger_name trigger +:+ " at "
        +:+ fst (now_iso w)) :: rest)
  /\ List.map stepId (run_steps record)
     = List.map step_id (take (length (run_steps record)) (flow_steps flow))
  /\ (status record = Success <-> forallb no_error (run_steps record) = true)
  /\ flowId record = id flow
  /\ run_name record = flow_name flow
  /\ Runs.flow record = SnapRecord flow.
Proof.
  cbv zeta.
  set (trigger := default manual (opt_trigger options)).
  set (c := initial_context trigger (fst (now_iso w))).
  destruct (ReportFacts.executeSteps_from_report (flow_steps flow) [] c (snd (now_iso w)))
    as (ok & new & c' & w' & Hrun & Hids & _ & Hok & _).
  simpl in Hrun.
  pose proof (RunFacts.executeSteps_from_grows (flow_steps flow) [] c
                (snd (now_iso w)) _ _ _ Hrun) as [_ [added Hlogs]].
  unfold runFlowNow.
  rewrite (OrchestratorFacts.runFlowNow_with_normal executeSteps flow options w
             _ c' w' Hrun).
  fold trigger.
  pose proof (OrchestratorFacts.run_record_fields flow trigger (fst (now_iso w))
                {| success := ok; stepResults := new |} c' w') as Hfields.
  cbv zeta in Hfields.
  destruct Hfields as (_ & Hid & _ & Hstatus & Hsteps & Hrlogs & _).
  rewrite Hrlogs, Hsteps, Hstatus, Hid, Hlogs. simpl.
  split; [now exists added|]. split; [exact Hids|].
  split; [|split; [reflexivity|]].
  - rewrite <- Hok. destruct ok; split; congruence.
  - unfold run_record. destruct (randomUUID w') as [uuid w1].
    destruct (now_iso w1). split; reflexivity.
Qed.

End Orchestrator.
End RecordFacts.

Module SlugFacts.
Import JS Utils Spec UtilsFacts.

Lemma to_lower_char_idempotent (c : ascii) :
  Str.to_lower_char (Str.to_lower_char c) = Str.to_lower_char c.
Proof. destruct c as [[] [] [] [] [] [] [] []]; reflexivity. Qed.

Lemma toLowerCase_idempotent (s : string) :
  Str.toLowerCase (Str.toLowerCase s) = Str.toLowerCase s.
Proof.
  induction s as [|c r IH]; [reflexivity|].
  unfold Str.toLowerCase in *. simpl. now rewrite to_lower_char_idempotent, IH.
Qed.

(** X16. A text that already has the shape of a flow id is its own id, so
    deriving the id of an id changes nothing; and the id does not depend
    on the case of the letters of the name. *)
Theorem flow_id_of_a_slug_is_the_slug :
  (forall s, is_slug s = true -> generateFlowId s = s)
  /\ (forall name, generateFlowId (generateFlowId name) = generateFlowId name)
  /\ (forall name, generateFlowId (Str.toLowerCase name) = generateFlowId name).
Proof.
  split; [exact generateFlowId_slug|].
  split; [intros name; apply generateFlowId_slug, generateFlowId_is_slug|].
  intros name. unfold generateFlowId. now rewrite toLowerCase_idempotent.
Qed.

End SlugFacts.
(* ===================================================================== *)
(** * The store stays consistent *)
(* ===================================================================== *)

Module StoreFacts.
Import JS Platform Schema Utils Manager Router StoreProps.

Lemma keyed_insert (s : gmap string FlowRecord) (key : string) (f : FlowRecord)
    (h : gmap string (list Runs.RunRecord)) :
  id f = key ->
  keyed {| flows := s; history := h |} ->
  keyed {| flows := <[key := f]> s; history := h |}.
Proof.
  intros Hid Hk k g. simpl. destruct (decide (k = key)) as [->|Hne].
  - rewrite lookup_insert_eq. now intros [= <-].
  - rewrite lookup_insert_ne by congruence. apply Hk.
Qed.

Lemma appended_keyed (state : NexFlowState) (record : Runs.RunRecord) :
  keyed state -> keyed (appended state record).
Proof.
  intros Hk. unfold appended. simpl.
  destruct (flows state !! Runs.flowId record) as [flow|] eqn:Hflow.
  - apply keyed_insert; [|intros k g; apply Hk].
    simpl. exact (Hk _ _ Hflow).
  - intros k g. apply Hk.
Qed.

Lemma appended_consistent (state : NexFlowState) (record : Runs.RunRecord) :
  keyed state /\ bounded state ->
  keyed (appended state record) /\ bounded (appended state record).
Proof.
  intros [Hk Hb]. split; [now apply appended_keyed|].
  exact (ManagerFacts.appended_bounded state record Hb).
Qed.

(** The flow a route comes with is the one stored under its id. *)
Lemma route_stored `{Builtins} (s : NexFlowState) (method pathname id : string)
    (f : FlowRecord) :
  route s method pathname = GetFlow id f
  \/ route s method pathname = UpdateFlow id f
  \/ route s method pathname = DeleteFlow id f
  \/ route s method pathname = SetEnabled id f
  \/ route s method pathname = GetLogs id f
  \/ route s method pathname = RunFlow id f ->
  flows s !! id = Some f.
Proof.
  unfold route. cbv zeta.
  assert (Hruns : forall segs m g,
            route_runs segs m <> GetFlow id g /\ route_runs segs m <> UpdateFlow id g
            /\ route_runs segs m <> DeleteFlow id g /\ route_runs segs m <> SetEnabled id g
            /\ route_runs segs m <> GetLogs id g /\ route_runs segs m <> RunFlow id g).
  { intros [|first segs] m g; simpl; [repeat split; discriminate|].
    destruct (String.eqb first "runs" && String.eqb m "POST");
      repeat split; discriminate. }
  assert (Hno : forall r : Route,
            (r = ListFlows \/ r = CreateFlow \/ r = FlowNotFound
             \/ (exists segs m, r = route_runs segs m)
             \/ exists key member, r = BuiltinFlow key member) ->
            r = GetFlow id f \/ r = UpdateFlow id f \/ r = DeleteFlow id f
            \/ r = SetEnabled id f \/ r = GetLogs id f \/ r = RunFlow id f ->
            flows s !! id = Some f).
  { intros r [->|[->|[->|[(segs & m & ->)|(key & member & ->)]]]] Hr;
      try (destruct Hr as [Hr|[Hr|[Hr|[Hr|[Hr|Hr]]]]]; discriminate).
    destruct (Hruns segs m f) as (H1 & H2 & H3 & H4 & H5 & H6).
    destruct Hr as [Hr|[Hr|[Hr|[Hr|[Hr|Hr]]]]]; congruence. }
  destruct (segments pathname) as [|first [|second sub]]; cbv match beta.
  - apply Hno. right. right. right. left. eauto.
  - apply Hno. destruct (String.eqb first "flows"); [|right; right; right; left; eauto].
    destruct (String.eqb (toUpperCase method) "GET"); [now left|].
    destruct (String.eqb (toUpperCase method) "POST"); [right; now left|].
    right. right. right. left. eauto.
  - destruct (String.eqb first "flows"); [|apply Hno; right; right; right; left; eauto].
    destruct (property (flows s) second) as [g|member|] eqn:Hp.
    + apply DictFacts.property_is_own in Hp.
      destruct (flow_branch sub (toUpperCase method)) as [branch|] eqn:Hb;
        [|apply Hno; right; right; right; left; eauto].
      assert (Hbranch : branch = GetFlow \/ branch = UpdateFlow \/ branch = DeleteFlow
                        \/ branch = SetEnabled \/ branch = GetLogs \/ branch = RunFlow).
      { unfold flow_branch in Hb. destruct sub as [|third sub].
        - destruct (String.eqb _ "GET"); [injection Hb as <-; auto|].
          destruct (String.eqb _ "PUT"); [injection Hb as <-; auto|].
          destruct (String.eqb _ "DELETE"); [injection Hb as <-; auto|discriminate].
        - destruct (String.eqb third "enabled" && _); [injection Hb as <-; auto 10|].
          destruct (String.eqb third "logs" && _); [injection Hb as <-; auto 10|].
          destruct (String.eqb third "run" && _); [injection Hb as <-; auto 10|discriminate]. }
      intros Hr.
      destruct Hbranch as [-> | [-> | [-> | [-> | [-> | ->]]]]];
        destruct Hr as [Hr|[Hr|[Hr|[Hr|[Hr|Hr]]]]]; try discriminate;
        injection Hr as <- <-; exact Hp.
    + apply Hno. destruct (flow_branch sub (toUpperCase method));
        [right; right; right; right; eauto | right; right; right; left; eauto].
    + apply Hno. right. right. now left.
Qed.

Section Handlers.
Context {World : Type} `{Runtime World} `{Host} `{ObjectOrder}.

Lemma persistRun_consistent (state s : NexFlowState) (record : Runs.RunRecord) :
  keyed state /\ bounded state ->
  persistRun state record = Some (Normal s) ->
  keyed s /\ bounded s.
Proof.
  intros Hc Hp. apply ManagerFacts.persistRun_stored in Hp. subst s.
  now apply appended_consistent.
Qed.

Lemma create_consistent (storage : NexFlowState) (body : FlowConfig) (w : World)
    (h : Handled) (w' : World) (s : NexFlowState) :
  keyed storage /\ bounded storage ->
  create storage body w = (Normal h, w') -> saved h = Some s ->
  keyed s /\ bounded s.
Proof.
  intros [Hk Hb]. unfold create.
  destruct (FlowConfigSchema_parse body) as [payload|e]; [|discriminate].
  destruct (property (flows storage) (generateFlowId (name payload)));
    try (intros [= <- _]; discriminate).
  destruct (now_iso w) as [now w1]. intros [= <- _] [= <-]. split.
  - apply keyed_insert; [reflexivity | intros k g; apply Hk].
  - exact Hb.
Qed.

Lemma update_consistent (storage : NexFlowState) (id : string) (f : FlowRecord)
    (body : FlowConfig) (w : World) (a : Answer) (w' : World) (s : NexFlowState) :
  keyed storage /\ bounded storage ->
  update storage id f body w = (Normal a, w') -> answer_saved a = Some s ->
  keyed s /\ bounded s.
Proof.
  intros [Hk Hb]. unfold update.
  destruct (FlowConfigSchema_parse body) as [payload|e]; [|discriminate].
  destruct (now_iso w) as [now w1]. intros [= <- _] [= <-]. split.
  - apply keyed_insert; [reflexivity | intros k g; apply Hk].
  - exact Hb.
Qed.

Lemma remove_consistent (storage : NexFlowState) (id : string) (s : NexFlowState) :
  keyed storage /\ bounded storage ->
  answer_saved (remove storage id) = Some s ->
  keyed s /\ bounded s.
Proof.
  intros [Hk Hb]. unfold remove. intros [= <-]. split.
  - intros k g. simpl. intros Hl. apply lookup_delete_Some in Hl as [_ Hl].
    exact (Hk _ _ Hl).
  - intros k l. simpl. intros Hl. apply lookup_delete_Some in Hl as [_ Hl].
    exact (Hb _ _ Hl).
Qed.

Lemma setEnabled_consistent (storage : NexFlowState) (id : string) (f : FlowRecord)
    (enabled : bool) (w : World) (s : NexFlowState) :
  keyed storage /\ bounded storage ->
  flows storage !! id = Some f ->
  answer_saved (fst (setEnabled storage id f enabled w)) = Some s ->
  keyed s /\ bounded s.
Proof.
  intros [Hk Hb] Hf. unfold setEnabled.
  destruct (now_iso w) as [now w1]. intros [= <-]. split.
  - apply keyed_insert; [exact (Hk _ _ Hf) | intros k g; apply Hk].
  - exact Hb.
Qed.

Lemma run_consistent (storage : NexFlowState) (f : FlowRecord)
    (trigger : option Runs.Trigger) (w : World)
    (h : Handled) (w' : World) (s : NexFlowState) :
  keyed storage /\ bounded storage ->
  run storage f trigger w = Some (Normal h, w') -> saved h = Some s ->
  keyed s /\ bounded s.
Proof.
  intros Hc. unfold run.
  destruct (runFlowNow _ _ w) as [record w1].
  destruct (persistRun storage record) as [[state|e]|] eqn:Hp; try discriminate.
  intros [= <- _] [= <-]. exact (persistRun_consistent _ _ _ Hc Hp).
Qed.

Lemma log_run_consistent (storage : NexFlowState) (body : Runs.RunRecord)
    (h : Handled) (s : NexFlowState) :
  keyed storage /\ bounded storage ->
  log_run storage body = Some (Normal h) -> saved h = Some s ->
  keyed s /\ bounded s.
Proof.
  intros Hc. unfold log_run.
  destruct (Runs.RunRecordSchema_parse body) as [parsed|e]; [|discriminate].
  destruct (persistRun storage parsed) as [[state|e]|] eqn:Hp; try discriminate.
  intros [= <-] [= <-]. exact (persistRun_consistent _ _ _ Hc Hp).
Qed.

(** ** Migration *)

(** The runs the migration takes over are runs of the state. *)
Lemma either_history_own (state : NexFlowState) (first second : string)
    (runs : list Runs.RunRecord) :
  either_history state first second = Own runs ->
  history state !! first = Some runs \/ history state !! second = Some runs.
Proof.
  unfold either_history.
  destruct (property (history state) first) as [l|member|] eqn:Hp.
  - intros [= <-]. left. now apply DictFacts.property_is_own.
  - discriminate.
  - intros Hs. right. now apply DictFacts.property_is_own.
Qed.

Lemma mapped_runs_length (found : Found (list Runs.RunRecord))
    (g : Runs.RunRecord -> Runs.RunRecord) (callee : string)
    (runs : list Runs.RunRecord) :
  (forall l, found = Own l -> length l <= 50)%nat ->
  mapped_runs found g callee = Some (Normal runs) ->
  (length runs <= 50)%nat.
Proof.
  intros Hlen. destruct found as [l|member|]; simpl.
  - intros [= <-]. rewrite length_map. now apply Hlen.
  - destruct (call_on _ _ _); discriminate.
  - intros [= <-]. simpl. lia.
Qed.

Lemma migrate_loop_consistent (state : NexFlowState) (stored : list FlowRecord)
    (acc m : Migration) (w w' : World) :
  bounded state ->
  keyed {| flows := new_flows acc; history := new_history acc |}
  /\ bounded {| flows := new_flows acc; history := new_history acc |} ->
  migrate_loop state stored acc w = Some (Normal m, w') ->
  keyed {| flows := new_flows m; history := new_history m |}
  /\ bounded {| flows := new_flows m; history := new_history m |}.
Proof.
  intros Hb. revert acc w.
  induction stored as [|f rest IH]; intros acc w Hacc; simpl migrate_loop.
  { now intros [= <- _]. }
  destruct Hacc as [Hk Hbn].
  assert (Hins : forall key runs,
            (length runs <= 50)%nat ->
            bounded {| flows := new_flows acc;
                       history := <[key := runs]> (new_history acc) |}).
  { intros key runs Hlen k l. simpl. destruct (decide (k = key)) as [->|Hne].
    - rewrite lookup_insert_eq. now intros [= <-].
    - rewrite lookup_insert_ne by congruence. apply Hbn. }
  destruct (Str.truthy (id f)).
  - destruct (String.eqb _ proto); [discriminate|].
    destruct (mapped_runs _ _ _) as [[runs|e]|] eqn:Hruns; try discriminate.
    apply IH. simpl. split.
    + apply keyed_insert; [reflexivity | exact Hk].
    + intros k l. apply (Hins (id f) runs).
      apply (mapped_runs_length _ _ _ _) in Hruns; [exact Hruns|].
      intros l' Hl'. apply either_history_own in Hl' as [Hl'|Hl']; exact (Hb _ _ Hl').
  - destruct (now_iso w) as [now w1].
    destruct (mapped_runs _ _ _) as [[runs|e]|] eqn:Hruns; try discriminate.
    apply IH. simpl. split.
    + apply keyed_insert; [reflexivity | exact Hk].
    + intros k l. apply (Hins (generateFlowId (flow_name f)) runs).
      apply (mapped_runs_length _ _ _ _) in Hruns; [exact Hruns|].
      intros l' Hl'. apply DictFacts.property_is_own in Hl'. exact (Hb _ _ Hl').
Qed.

Lemma migrateLegacyState_consistent (state storage : NexFlowState)
    (migrated : option NexFlowState) (w w' : World) :
  keyed state /\ bounded state ->
  migrateLegacyState state w = Some (Normal (storage, migrated), w') ->
  (keyed storage /\ bounded storage)
  /\ match migrated with
     | Some s => keyed s /\ bounded s
     | None => True
     end.
Proof.
  intros [Hk Hb]. unfold migrateLegacyState.
  destruct (migrate_loop state _ _ w) as [[[m|e] w1]|] eqn:Hloop; try discriminate.
  assert (Hnew : keyed {| flows := new_flows m; history := new_history m |}
                 /\ bounded {| flows := new_flows m; history := new_history m |}).
  { apply (migrate_loop_consistent _ _ _ _ _ _ Hb) in Hloop; [exact Hloop|].
    split; intros k x; simpl; rewrite lookup_empty; discriminate. }
  destruct (mutated m); intros [= <- <- _]; auto.
Qed.

Lemma answered_consistent (durable durable' : option NexFlowState)
    (r r' : completion Answer) (w w' : World) :
  consistent durable ->
  (forall a s, r = Normal a -> answer_saved a = Some s -> keyed s /\ bounded s) ->
  answered durable r w = Some (r', durable', w') ->
  consistent durable'.
Proof.
  intros Hd Hs. unfold answered. intros [= _ <- _].
  destruct r as [a|e]; [|exact Hd].
  destruct (answer_saved a) as [s|] eqn:Hsaved; [|exact Hd].
  exact (Hs a s eq_refl Hsaved).
Qed.

(** Whatever the request and however it ends, what the durable storage
    holds after it is consistent when it was so before. *)
Lemma fetch_consistent
    (durable : option NexFlowState) (method pathname : string)
    (body : RequestBody) (w : World)
    (r : completion Answer) (durable' : option NexFlowState) (w' : World) :
  consistent durable ->
  fetch durable method pathname body w = Some (r, durable', w') ->
  consistent durable'.
Proof.
  intros Hd. unfold fetch.
  assert (Hstart : keyed (default empty_state durable)
                   /\ bounded (default empty_state durable)).
  { destruct durable as [s|]; [exact Hd|].
    split; intros k x; simpl; rewrite lookup_empty; discriminate. }
  destruct (migrateLegacyState (default empty_state durable) w)
    as [[[[storage migrated]|e] w1]|] eqn:Hmig; [| |discriminate].
  2: { now intros [= _ <- _]. }
  destruct (migrateLegacyState_consistent _ _ _ _ _ Hstart Hmig)
    as [Hstorage Hmigrated].
  assert (Hd1 : consistent match migrated with Some s => Some s | None => durable end).
  { destruct migrated; [exact Hmigrated | exact Hd]. }
  set (durable1 := match migrated with Some s => Some s | None => durable end) in *.
  unfold serve.
  destruct (route storage method pathname)
    as [| | |id f|id f|id f|id f|id f|id f|id member| |] eqn:Hroute.
  - apply answered_consistent; [exact Hd1|]. intros a s [= <-]. discriminate.
  - destruct body as [|config| | |]; try discriminate.
    destruct (create storage config w1) as [c w2] eqn:Hc.
    apply answered_consistent; [exact Hd1|].
    intros a s Hr. destruct c as [h|e]; [|discriminate]. injection Hr as <-.
    simpl. exact (create_consistent _ _ _ _ _ _ Hstorage Hc).
  - apply answered_consistent; [exact Hd1|]. intros a s [= <-]. discriminate.
  - apply answered_consistent; [exact Hd1|]. intros a s [= <-]. discriminate.
  - destruct body as [|config| | |]; try discriminate.
    destruct (update storage id f config w1) as [u w2] eqn:Hu.
    apply answered_consistent; [exact Hd1|].
    intros a s ->. exact (update_consistent _ _ _ _ _ _ _ _ Hstorage Hu).
  - apply answered_consistent; [exact Hd1|]. intros a s [= <-].
    exact (remove_consistent _ _ _ Hstorage).
  - destruct body as [| |enabled| |]; try discriminate.
    destruct (setEnabled storage id f enabled w1) as [a w2] eqn:He.
    apply answered_consistent; [exact Hd1|]. intros a' s [= <-].
    pose proof (setEnabled_consistent storage id f enabled w1 s Hstorage) as Hs.
    rewrite He in Hs. apply Hs.
    apply (route_stored storage method pathname). auto.
  - destruct (logs_of storage id) as [a|] eqn:Hl; [|discriminate].
    apply answered_consistent; [exact Hd1|]. intros a' s [= <-].
    unfold logs_of in Hl. destruct (property (history storage) id);
      try discriminate; injection Hl as <-; discriminate.
  - destruct (run storage f (requested_trigger body) w1) as [[c w2]|] eqn:Hr;
      [|discriminate].
    apply answered_consistent; [exact Hd1|].
    intros a s Ha. destruct c as [h|e]; [|discriminate]. injection Ha as <-.
    simpl. exact (run_consistent _ _ _ _ _ _ _ Hstorage Hr).
  - discriminate.
  - destruct body as [| | | |record]; try discriminate.
    destruct (log_run storage record) as [c|] eqn:Hl; [|discriminate].
    apply answered_consistent; [exact Hd1|].
    intros a s Ha. destruct c as [h|e]; [|discriminate].
    injection Ha as <-. simpl. exact (log_run_consistent _ _ _ _ Hstorage Hl).
  - apply answered_consistent; [exact Hd1|]. intros a s [= <-]. discriminate.
Qed.

End Handlers.
End StoreFacts.

(* ===================================================================== *)
(** * Paths, and the migration of legacy flows *)
(* ===================================================================== *)

Module PathFacts.
Import JS Platform Schema Utils Manager Router StoreProps.

Lemma split_no_sep (s : string) :
  no_slash s = true -> Str.split "/" s = [s].
Proof.
  induction s as [|c r IH]; simpl; [reflexivity|].
  intros Hs. apply andb_prop in Hs as [Hc Hr].
  destruct (Ascii.eqb c "/"); [discriminate|]. now rewrite (IH Hr).
Qed.

Lemma split_app (s t : string) :
  no_slash s = true ->
  Str.split "/" (s +:+ String "/" t) = s :: Str.split "/" t.
Proof.
  induction s as [|c r IH]; simpl; [reflexivity|].
  intros Hs. apply andb_prop in Hs as [Hc Hr].
  destruct (Ascii.eqb c "/"); [discriminate|]. now rewrite (IH Hr).
Qed.

Lemma segments_flow (id : string) :
  no_slash id = true -> id <> "" ->
  segments ("/flows/" +:+ id) = ["flows"; id].
Proof.
  intros Hs Hne. unfold segments.
  change ("/flows/" +:+ id) with ("" +:+ String "/" ("flows" +:+ String "/" id)).
  rewrite !split_app by reflexivity. rewrite (split_no_sep _ Hs).
  simpl. destruct id; [congruence | reflexivity].
Qed.

Lemma segments_flow_sub (id sub : string) :
  no_slash id = true -> id <> "" -> no_slash sub = true -> sub <> "" ->
  segments ("/flows/" +:+ id +:+ String "/" sub) = ["flows"; id; sub].
Proof.
  intros Hs Hne Hsub Hsne. unfold segments.
  change ("/flows/" +:+ id +:+ String "/" sub)
    with ("" +:+ String "/" ("flows" +:+ String "/" (id +:+ String "/" sub))).
  rewrite !split_app by (reflexivity || assumption). rewrite (split_no_sep _ Hsub).
  simpl. destruct id; [congruence|]. destruct sub; [congruence | reflexivity].
Qed.

End PathFacts.

Module MigrationFacts.
Import JS Platform Schema Utils Manager Router StoreProps.

Section Migration.
Context {World : Type} `{Runtime World} `{Host} `{ObjectOrder}.

Lemma truthy_ne (s : string) : Str.truthy s = true <-> s <> "".
Proof. destruct s; simpl; split; congruence. Qed.

(** Under plain names the history of a flow is an entry of the state, or
    nothing. *)
Lemma either_history_plain (state : NexFlowState) (first second : string) :
  plain first = true -> plain second = true ->
  either_history state first second
  = match history state !! first with
    | Some runs => Own runs
    | None =>
        match history state !! second with
        | Some runs => Own runs
        | None => Absent
        end
    end.
Proof.
  intros Hf Hs. unfold either_history.
  rewrite !DictFacts.property_plain by assumption.
  destruct (history state !! first); reflexivity.
Qed.

Lemma migrate_loop_identified (state : NexFlowState) (stored : list FlowRecord)
    (acc : Migration) (w : World) :
  (forall f, In f stored ->
     id f <> "" /\ plain (id f) = true /\ plain (flow_name f) = true) ->
  exists m,
    migrate_loop state stored acc w = Some (Normal m, w)
    /\ mutated m = mutated acc.
Proof.
  revert acc. induction stored as [|f rest IH]; intros acc Hall; [now exists acc|].
  simpl migrate_loop.
  destruct (Hall f (or_introl eq_refl)) as (Hne & Hid & Hname).
  assert (Hf : Str.truthy (id f) = true) by now apply truthy_ne.
  rewrite Hf.
  destruct (String.eqb_spec (id f) proto) as [Hproto|_].
  { now apply DictFacts.plain_not_proto in Hid. }
  rewrite (either_history_plain state _ _ Hid Hname).
  match goal with
  | |- context [mapped_runs ?found ?g ?callee] =>
      assert (Hruns : exists runs, mapped_runs found g callee = Some (Normal runs))
  end.
  { destruct (history state !! id f); [simpl; eauto|].
    destruct (history state !! flow_name f); simpl; eauto. }
  destruct Hruns as [runs ->].
  match goal with |- context [migrate_loop state rest ?a w] =>
    destruct (IH a (fun g Hg => Hall g (or_intror Hg))) as (m & Hm & Hmut)
  end.
  exists m. split; [exact Hm | exact Hmut].
Qed.

Lemma migrate_loop_keyed (state : NexFlowState) (stored : list FlowRecord)
    (acc m : Migration) (w w' : World) :
  keyed {| flows := new_flows acc; history := new_history acc |} ->
  migrate_loop state stored acc w = Some (Normal m, w') ->
  keyed {| flows := new_flows m; history := new_history m |}.
Proof.
  revert acc w. induction stored as [|f rest IH]; intros acc w Hacc;
    simpl migrate_loop; [now intros [= <- _]|].
  destruct (Str.truthy (id f)).
  - destruct (String.eqb _ proto); [discriminate|].
    destruct (mapped_runs _ _ _) as [[runs|e]|]; try discriminate.
    apply IH. intros k g.
    apply (StoreFacts.keyed_insert _ _ _ (new_history acc)); [reflexivity | exact Hacc].
  - destruct (now_iso w) as [now w1].
    destruct (mapped_runs _ _ _) as [[runs|e]|]; try discriminate.
    apply IH. intros k g.
    apply (StoreFacts.keyed_insert _ _ _ (new_history acc)); [reflexivity | exact Hacc].
Qed.

Lemma migrateLegacyState_identity (state : NexFlowState) (w : World) :
  enumerates -> identified state -> plainly_named state ->
  migrateLegacyState state w = Some (Normal (state, None), w).
Proof.
  intros Henum Hid Hplain. unfold migrateLegacyState.
  destruct (migrate_loop_identified state (Object_values (flows state))
              {| mutated := false; new_flows := ∅; new_history := ∅ |} w)
    as (m & -> & Hmut).
  - intros f Hf. destruct (Henum _ _ Hf) as [key Hkey].
    destruct (Hplain _ _ Hkey) as [Hi Hn]. split; [exact (Hid _ _ Hkey)|]. now split.
  - simpl in Hmut. now rewrite Hmut.
Qed.

Lemma identified_insert (s : gmap string FlowRecord) (key : string) (f : FlowRecord)
    (h : gmap string (list Runs.RunRecord)) :
  id f <> "" ->
  identified {| flows := s; history := h |} ->
  identified {| flows := <[key := f]> s; history := h |}.
Proof.
  intros Hid Hk k g. simpl. destruct (decide (k = key)) as [->|Hne].
  - rewrite lookup_insert_eq. now intros [= <-].
  - rewrite lookup_insert_ne by congruence. apply Hk.
Qed.

Lemma plainly_named_insert (s : gmap string FlowRecord) (key : string)
    (f : FlowRecord) (h h' : gmap string (list Runs.RunRecord)) :
  plain (id f) = true -> plain (flow_name f) = true ->
  plainly_named {| flows := s; history := h |} ->
  plainly_named {| flows := <[key := f]> s; history := h' |}.
Proof.
  intros Hid Hname Hk k g. simpl. destruct (decide (k = key)) as [->|Hne].
  - rewrite lookup_insert_eq. now intros [= <-].
  - rewrite lookup_insert_ne by congruence. apply Hk.
Qed.

Lemma migrate_loop_heals (state : NexFlowState) (stored : list FlowRecord)
    (acc m : Migration) (w w' : World) :
  (forall f, In f stored -> id f = "" -> generateFlowId (flow_name f) <> "") ->
  identified {| flows := new_flows acc; history := new_history acc |} ->
  migrate_loop state stored acc w = Some (Normal m, w') ->
  identified {| flows := new_flows m; history := new_history m |}.
Proof.
  revert acc w. induction stored as [|f rest IH]; intros acc w Hall Hacc;
    simpl migrate_loop; [now intros [= <- _]|].
  destruct (Str.truthy (id f)) eqn:Hf.
  - destruct (String.eqb _ proto); [discriminate|].
    destruct (mapped_runs _ _ _) as [[runs|e]|]; try discriminate.
    apply IH; [intros g Hg; apply Hall; now right|].
    intros k g. apply (identified_insert _ _ _ (new_history acc)); [|exact Hacc].
    simpl. now apply truthy_ne.
  - destruct (now_iso w) as [now w1].
    destruct (mapped_runs _ _ _) as [[runs|e]|]; try discriminate.
    apply IH; [intros g Hg; apply Hall; now right|].
    intros k g. apply (identified_insert _ _ _ (new_history acc)); [|exact Hacc].
    simpl. apply Hall; [now left|]. now destruct (id f).
Qed.

(** A flow that never ran and whose name every object inherits a member
    under stops the migration: the member is taken for its history, and
    has no [map]. *)
Lemma migrate_loop_inherited_name (state : NexFlowState) (f : FlowRecord)
    (rest : list FlowRecord) (acc : Migration) (w : World) :
  id f <> "" -> plain (id f) = true ->
  history state !! id f = None ->
  history state !! flow_name f = None ->
  plain (flow_name f) = false ->
  migrate_loop state (f :: rest) acc w
  = match call_on (inherited OfObject (flow_name f)) "map"
            "(state.history[flow.id] || state.history[flow.name] || []).map" with
    | Some e => Some (Throw e, w)
    | None => None
    end.
Proof.
  intros Hne Hid Hh Hn Hname. simpl migrate_loop.
  assert (Hf : Str.truthy (id f) = true) by now apply truthy_ne.
  rewrite Hf.
  destruct (String.eqb_spec (id f) proto) as [Hproto|_].
  { now apply DictFacts.plain_not_proto in Hid. }
  unfold either_history. simpl id. simpl flow_name.
  rewrite (DictFacts.property_plain _ _ Hid), Hh.
  unfold property. rewrite Hn. unfold plain in Hname.
  apply negb_false_iff in Hname. rewrite Hname. simpl.
  destruct (call_on _ _ _); reflexivity.
Qed.

(** X19. [migrateLegacyState] leaves a state alone when every stored flow
    has an id and no id or name of a stored flow is one under which
    objects inherit a member: it returns the state it was given, saves
    nothing and does not read the clock.  When it does rewrite the state,
    every flow of the new state is stored under its own id; and if every
    flow without an id has a name with a letter or a digit in it, the new
    state holds no flow without an id, so that, its names being plain,
    migrating it again leaves it alone.  A stored flow that never ran and
    whose name is, like [toString], the name of an inherited member has
    that member taken for its history: the migration ends with the
    exception of the call of its [map]. *)
Theorem migration_settles (state : NexFlowState) (w : World) :
  enumerates ->
  (identified state -> plainly_named state ->
   migrateLegacyState state w = Some (Normal (state, None), w))
  /\ (forall next saved w',
        migrateLegacyState state w = Some (Normal (next, Some saved), w') ->
        saved = next
        /\ keyed next
        /\ ((forall f, In f (Object_values (flows state)) -> id f = "" ->
               generateFlowId (flow_name f) <> "") ->
            identified next
            /\ (plainly_named next ->
                forall w'', migrateLegacyState next w''
                            = Some (Normal (next, None), w''))))
  /\ (forall f rest e,
        Object_values (flows state) = f :: rest ->
        id f <> "" -> plain (id f) = true ->
        history state !! id f = None ->
        history state !! flow_name f = None ->
        plain (flow_name f) = false ->
        call_on (inherited OfObject (flow_name f)) "map"
          "(state.history[flow.id] || state.history[flow.name] || []).map" = Some e ->
        migrateLegacyState state w = Some (Throw e, w)).
Proof.
  intros Henum. split; [now apply migrateLegacyState_identity|]. split.
  - intros next saved w'. unfold migrateLegacyState at 1.
    destruct (migrate_loop state _ _ w) as [[[m|e] w1]|] eqn:Hloop; try discriminate.
    assert (Hk0 : keyed {| flows := ∅; history := ∅ |})
      by (intros k g; simpl; rewrite lookup_empty; discriminate).
    assert (Hi0 : identified {| flows := ∅; history := ∅ |})
      by (intros k g; simpl; rewrite lookup_empty; discriminate).
    pose proof (migrate_loop_keyed state _
                  {| mutated := false; new_flows := ∅; new_history := ∅ |}
                  m w w1 Hk0 Hloop) as Hk.
    pose proof (fun Hnames =>
                  migrate_loop_heals state _
                    {| mutated := false; new_flows := ∅; new_history := ∅ |}
                    m w w1 Hnames Hi0 Hloop) as Hh.
    destruct (mutated m); [|discriminate].
    intros [= <- <- _]. split; [reflexivity|]. split; [exact Hk|].
    intros Hnames. split; [now apply Hh|].
    intros Hplain w''. apply migrateLegacyState_identity; auto.
  - intros f rest e Hvalues Hne Hid Hh Hn Hname Hcall.
    unfold migrateLegacyState. rewrite Hvalues.
    rewrite (migrate_loop_inherited_name _ _ _ _ _ Hne Hid Hh Hn Hname), Hcall.
    reflexivity.
Qed.

End Migration.
End MigrationFacts.
(* ===================================================================== *)
(** * Requests, one after the other *)
(* ===================================================================== *)

Module RequestFacts.
Import JS Platform Schema Utils Manager Router StoreProps PathFacts MigrationFacts.

Section Requests.
Context {World : Type} `{Runtime World} `{Host} `{ObjectOrder}.

(** A request on a store without legacy flows, and with plain names, is
    handled on what the durable storage holds. *)
Lemma fetch_settled (durable : option NexFlowState) (method pathname : string)
    (body : RequestBody) (w : World) :
  enumerates ->
  identified (default empty_state durable) ->
  plainly_named (default empty_state durable) ->
  fetch durable method pathname body w
  = serve (default empty_state durable) durable method pathname body w.
Proof.
  intros Henum Hid Hplain. unfold fetch.
  now rewrite (migrateLegacyState_identity _ w Henum Hid Hplain).
Qed.

Lemma fetch_identified (s : NexFlowState) (method pathname : string)
    (body : RequestBody) (w : World) :
  enumerates -> identified s -> plainly_named s ->
  fetch (Some s) method pathname body w
  = serve s (Some s) method pathname body w.
Proof. apply (fetch_settled (Some s)). Qed.

Lemma RunRecordSchema_parse_flowId (record parsed : Runs.RunRecord) :
  Runs.RunRecordSchema_parse record = Normal parsed ->
  Runs.flowId parsed = Runs.flowId record.
Proof.
  unfold Runs.RunRecordSchema_parse.
  destruct (FlowConfigSchema_parse _); [|discriminate]. now intros [= <-].
Qed.

Lemma runFlowNow_flowId (flow : FlowRecord) (options : RunOptions) (w : World) :
  Runs.flowId (fst (runFlowNow flow options w)) = id flow.
Proof.
  unfold runFlowNow, runFlowNow_with.
  destruct (now_iso w) as [startedAt w0].
  destruct (Steps.executeSteps _ _ w0) as [[[outcome|e] c] w1].
  - unfold run_record. destruct (randomUUID w1) as [uuid w2].
    now destruct (now_iso w2).
  - destruct (now_iso w1) as [t w2]. unfold run_record.
    destruct (randomUUID w2) as [uuid w3]. now destruct (now_iso w3).
Qed.

(** On a store with plain ids, a request that fits its route has an
    answer. *)
Lemma serve_answers (s : NexFlowState) (durable : option NexFlowState)
    (method pathname : string) (body : RequestBody) (w : World) :
  keyed s -> plainly_named s ->
  fits (route s method pathname) body ->
  is_Some (serve s durable method pathname body w).
Proof.
  intros Hk Hplain. unfold serve.
  pose proof (StoreFacts.route_stored s method pathname) as Hstored.
  destruct (route s method pathname)
    as [| | |id f|id f|id f|id f|id f|id f|id member| |]; simpl fits;
    intros Hfits; unfold answered; try (now eauto).
  - destruct body as [|config| | |]; try contradiction.
    destruct (create s config w). eauto.
  - destruct body as [|config| | |]; try contradiction.
    destruct (update s id f config w). eauto.
  - destruct body as [| |on| |]; try contradiction.
    destruct (setEnabled s id f on w). eauto.
  - assert (Hf : flows s !! id = Some f) by (apply Hstored; auto 10).
    assert (Hp : plain id = true).
    { destruct (Hplain _ _ Hf) as [Hp _]. now rewrite (Hk _ _ Hf) in Hp. }
    unfold logs_of. rewrite (DictFacts.property_plain _ _ Hp).
    destruct (history s !! id); eauto.
  - assert (Hf : flows s !! id = Some f) by (apply Hstored; auto 10).
    unfold run.
    pose proof (runFlowNow_flowId (withDefaults f)
                  {| opt_trigger := Some (default Runs.manual (requested_trigger body)) |}
                  w) as Hflow.
    destruct (runFlowNow _ _ w) as [record w1]. simpl in Hflow.
    rewrite ManagerFacts.persistRun_plain; [eauto|].
    rewrite Hflow. exact (proj1 (Hplain _ _ Hf)).
  - destruct body as [| | | |record]; try contradiction. unfold log_run.
    destruct (Runs.RunRecordSchema_parse record) as [parsed|e] eqn:Hparse; [|eauto].
    rewrite ManagerFacts.persistRun_plain; [eauto|].
    now rewrite (RunRecordSchema_parse_flowId _ _ Hparse).
Qed.

Lemma route_unknown (s : NexFlowState) (method pathname id : string)
    (rest : list string) :
  segments pathname = "flows" :: id :: rest ->
  flows s !! id = None -> plain id = true ->
  route s method pathname = FlowNotFound.
Proof.
  intros Hseg Hnone Hplain. unfold route.
  now rewrite Hseg, (DictFacts.property_plain _ _ Hplain), Hnone.
Qed.

Lemma route_flow (s : NexFlowState) (id : string) (f : FlowRecord) :
  flows s !! id = Some f -> no_slash id = true -> id <> "" ->
  route s "GET" ("/flows/" +:+ id) = GetFlow id f
  /\ route s "PUT" ("/flows/" +:+ id) = UpdateFlow id f
  /\ route s "DELETE" ("/flows/" +:+ id) = DeleteFlow id f
  /\ route s "PATCH" ("/flows/" +:+ id +:+ "/enabled") = SetEnabled id f
  /\ route s "GET" ("/flows/" +:+ id +:+ "/logs") = GetLogs id f
  /\ route s "POST" ("/flows/" +:+ id +:+ "/run") = RunFlow id f.
Proof.
  intros Hf Hslash Hne. unfold route.
  rewrite (segments_flow id Hslash Hne).
  rewrite (segments_flow_sub id "enabled" Hslash Hne eq_refl ltac:(discriminate)).
  rewrite (segments_flow_sub id "logs" Hslash Hne eq_refl ltac:(discriminate)).
  rewrite (segments_flow_sub id "run" Hslash Hne eq_refl ltac:(discriminate)).
  cbn [String.eqb Ascii.eqb Bool.eqb]. rewrite (DictFacts.property_own _ _ _ Hf).
  repeat split.
Qed.

Lemma identified_delete (s : NexFlowState) (id : string) :
  identified s ->
  identified {| flows := delete id (flows s); history := delete id (history s) |}.
Proof.
  intros Hid k f. simpl. intros Hl. apply lookup_delete_Some in Hl as [_ Hl].
  exact (Hid _ _ Hl).
Qed.

Lemma plainly_named_delete (s : NexFlowState) (id : string) :
  plainly_named s ->
  plainly_named {| flows := delete id (flows s); history := delete id (history s) |}.
Proof.
  intros Hp k f. simpl. intros Hl. apply lookup_delete_Some in Hl as [_ Hl].
  exact (Hp _ _ Hl).
Qed.

(** X24. Deleting a flow deletes its history with it and touches nothing
    else.  On a store whose flows all have ids, and plain ids and names,
    [DELETE /flows/<id>] for a stored flow is answered 204 with no body,
    and what the durable storage holds afterwards is the store without the
    flow and without its history, every other flow and history being as
    before.  From then on, when objects inherit no member under the id,
    every request under [/flows/<id>], whatever its method and the rest of
    its path, is answered 404 [Flow not found], and changes nothing. *)
Theorem deleted_flow_is_gone_with_its_history
    (s : NexFlowState) (id : string) (f : FlowRecord) (w : World) :
  enumerates -> identified s -> plainly_named s ->
  flows s !! id = Some f ->
  no_slash id = true -> id <> "" ->
  let s' := {| flows := delete id (flows s); history := delete id (history s) |} in
  fetch (Some s) "DELETE" ("/flows/" +:+ id) NoDocument w
  = Some (Normal {| answer_status := 204; answer_body := Nothing;
                    answer_saved := Some s' |}, Some s', w)
  /\ flows s' !! id = None /\ history s' !! id = None
  /\ (forall other, other <> id ->
        flows s' !! other = flows s !! other
        /\ history s' !! other = history s !! other)
  /\ (plain id = true ->
      forall method pathname rest body w',
        segments pathname = "flows" :: id :: rest ->
        fetch (Some s') method pathname body w'
        = Some (Normal flow_not_found, Some s', w')).
Proof.
  intros Henum Hid Hplain Hf Hslash Hne. cbv zeta.
  split; [|split; [|split; [|split]]].
  - rewrite (fetch_identified _ _ _ _ _ Henum Hid Hplain). unfold serve.
    destruct (route_flow s id f Hf Hslash Hne) as (_ & _ & -> & _).
    reflexivity.
  - apply lookup_delete_eq.
  - apply lookup_delete_eq.
  - intros other Hother. simpl. now rewrite !lookup_delete_ne by congruence.
  - intros Hpid method pathname rest body w' Hseg.
    rewrite (fetch_identified _ _ _ _ _ Henum (identified_delete s id Hid)
               (plainly_named_delete s id Hplain)).
    unfold serve. rewrite (route_unknown _ _ _ _ _ Hseg); [reflexivity| |exact Hpid].
    apply lookup_delete_eq.
Qed.

Lemma appended_identified (s : NexFlowState) (record : Runs.RunRecord) :
  identified s -> identified (appended s record).
Proof.
  intros Hid. unfold appended. simpl.
  destruct (flows s !! Runs.flowId record) as [flow|] eqn:Hflow; [|exact Hid].
  intros k g. simpl. destruct (decide (k = Runs.flowId record)) as [->|Hne].
  - rewrite lookup_insert_eq. intros [= <-]. simpl. exact (Hid _ _ Hflow).
  - rewrite lookup_insert_ne by congruence. apply Hid.
Qed.

Lemma appended_plainly_named (s : NexFlowState) (record : Runs.RunRecord) :
  plainly_named s -> plainly_named (appended s record).
Proof.
  intros Hp. unfold appended. simpl.
  destruct (flows s !! Runs.flowId record) as [flow|] eqn:Hflow; [|exact Hp].
  intros k g. simpl. destruct (decide (k = Runs.flowId record)) as [->|Hne].
  - rewrite lookup_insert_eq. intros [= <-]. simpl. exact (Hp _ _ Hflow).
  - rewrite lookup_insert_ne by congruence. apply Hp.
Qed.

(** X25. A run is stored before it is answered, and shows first in the
    logs.  On a consistent store with plain ids and names,
    [POST /flows/<id>/run] for a stored flow runs the flow with the
    trigger of the request ([manual] when it names none) and answers 200
    with the record of the run; the storage then holds the record,
    normalized, at the head of the history of the flow, cut to 50 runs,
    and the flow with its [lastRunAt] set to the end of the run.  The
    next [GET /flows/<id>/logs] answers that history and the next
    [GET /flows/<id>] that flow. *)
Theorem run_is_stored_and_shows_first_in_the_logs
    (s : NexFlowState) (id : string) (f : FlowRecord) (body : RequestBody)
    (w : World) :
  enumerates -> identified s -> plainly_named s -> keyed s ->
  flows s !! id = Some f ->
  no_slash id = true -> id <> "" ->
  let trigger := default Runs.manual (requested_trigger body) in
  let ran := runFlowNow (withDefaults f) {| opt_trigger := Some trigger |} w in
  let record := fst ran in
  let s' := appended s record in
  fetch (Some s) "POST" ("/flows/" +:+ id +:+ "/run") body w
  = Some (Normal {| answer_status := 200; answer_body := OneRun record;
                    answer_saved := Some s' |}, Some s', snd ran)
  /\ Runs.flowId record = id
  /\ history s' !! id
     = Some (take 50 (normalizeRun record :: default [] (history s !! id)))
  /\ fetch (Some s') "GET" ("/flows/" +:+ id +:+ "/logs") NoDocument (snd ran)
     = Some (Normal {| answer_status := 200;
                       answer_body :=
                         RunList (take 50 (normalizeRun record
                                           :: default [] (history s !! id)));
                       answer_saved := None |}, Some s', snd ran)
  /\ fetch (Some s') "GET" ("/flows/" +:+ id) NoDocument (snd ran)
     = Some (Normal {| answer_status := 200;
                       answer_body :=
                         OneFlow (withDefaults
                                    (with_lastRunAt f (Runs.finishedAt record)));
                       answer_saved := None |}, Some s', snd ran).
Proof.
  intros Henum Hid Hplain Hk Hf Hslash Hne. cbv zeta.
  set (trigger := default Runs.manual (requested_trigger body)).
  assert (Hflow : Runs.flowId
                    (fst (runFlowNow (withDefaults f)
                            {| opt_trigger := Some trigger |} w)) = id).
  { rewrite runFlowNow_flowId. simpl. exact (Hk _ _ Hf). }
  assert (Hpid : plain id = true).
  { destruct (Hplain _ _ Hf) as [Hp _]. now rewrite (Hk _ _ Hf) in Hp. }
  destruct (runFlowNow (withDefaults f) {| opt_trigger := Some trigger |} w)
    as [record w1] eqn:Hrun.
  simpl fst in *. simpl snd.
  assert (Hs' : identified (appended s record)) by now apply appended_identified.
  assert (Hp' : plainly_named (appended s record)) by now apply appended_plainly_named.
  assert (Hflows' : flows (appended s record) !! id
                    = Some (with_lastRunAt f (Runs.finishedAt record))).
  { unfold appended. simpl. rewrite Hflow, Hf. simpl. apply lookup_insert_eq. }
  assert (Hhistory : history (appended s record) !! id
                     = Some (take 50 (normalizeRun record
                                      :: default [] (history s !! id)))).
  { pose proof (ManagerFacts.appended_history s record) as Hh.
    now rewrite Hflow in Hh. }
  split; [|split; [exact Hflow|split; [exact Hhistory|split]]].
  - rewrite (fetch_identified _ _ _ _ _ Henum Hid Hplain). unfold serve.
    destruct (route_flow s id f Hf Hslash Hne) as (_ & _ & _ & _ & _ & ->).
    unfold run. fold trigger. rewrite Hrun.
    rewrite ManagerFacts.persistRun_plain by now rewrite Hflow.
    reflexivity.
  - rewrite (fetch_identified _ _ _ _ _ Henum Hs' Hp'). unfold serve.
    destruct (route_flow _ id _ Hflows' Hslash Hne) as (_ & _ & _ & _ & -> & _).
    unfold logs_of. rewrite (DictFacts.property_own _ _ _ Hhistory). reflexivity.
  - rewrite (fetch_identified _ _ _ _ _ Henum Hs' Hp'). unfold serve.
    destruct (route_flow _ id _ Hflows' Hslash Hne) as (-> & _).
    reflexivity.
Qed.

(** X22. An update keeps what identifies a flow.  On a store whose flows
    all have ids, and plain ids and names, [PUT /flows/<id>] with a
    configuration the schema accepts answers 200 with the stored flow:
    the name, schedule and steps are those of the configuration,
    [enabled] is the one given and true when none is given, the update
    time is the clock's, and the id, the creation time and the last run
    are those the flow had, even when the name changes; the histories and
    the other flows are as before.  With a configuration the schema
    refuses, the request throws the error of the schema and nothing is
    saved. *)
Theorem update_keeps_id_creation_and_last_run
    (s : NexFlowState) (id : string) (f : FlowRecord) (config : FlowConfig)
    (w : World) :
  enumerates -> identified s -> plainly_named s ->
  flows s !! id = Some f ->
  no_slash id = true -> id <> "" ->
  match FlowConfigSchema_parse config with
  | Normal payload =>
      let updated :=
        {| flow_name := name config; flow_schedule := schedule config;
           flow_enabled := Some (default true (enabled config));
           flow_steps := steps payload;
           Schema.id := id; createdAt := createdAt f;
           updatedAt := fst (now_iso w); lastRunAt := lastRunAt f |} in
      let s' := {| flows := <[id := updated]> (flows s); history := history s |} in
      fetch (Some s) "PUT" ("/flows/" +:+ id) (FlowDocument config) w
      = Some (Normal {| answer_status := 200; answer_body := OneFlow updated;
                        answer_saved := Some s' |}, Some s', snd (now_iso w))
      /\ forall other, other <> id -> flows s' !! other = flows s !! other
  | Throw e =>
      fetch (Some s) "PUT" ("/flows/" +:+ id) (FlowDocument config) w
      = Some (Throw e, Some s, w)
  end.
Proof.
  intros Henum Hid Hplain Hf Hslash Hne.
  rewrite (fetch_identified _ _ _ _ _ Henum Hid Hplain). unfold serve.
  destruct (route_flow s id f Hf Hslash Hne) as (_ & -> & _).
  unfold update.
  destruct (FlowConfigSchema_parse config) as [payload|e] eqn:Hparse; [|reflexivity].
  assert (Hpayload : name payload = name config /\ schedule payload = schedule config
                     /\ enabled payload = Some (default true (enabled config))).
  { unfold FlowConfigSchema_parse in Hparse.
    destruct (_ ++ _); [|discriminate]. injection Hparse as <-. now repeat split. }
  destruct Hpayload as (Hn & Hs & He).
  cbv zeta. destruct (now_iso w) as [now w1]. simpl fst. simpl snd.
  rewrite Hn, Hs, He. split; [reflexivity|].
  intros other Hother. simpl. now rewrite lookup_insert_ne by congruence.
Qed.

(** X23. Switching a flow off or on changes nothing else.  On a store whose
    flows all have ids, and plain ids and names,
    [PATCH /flows/<id>/enabled] answers 200 with the flow as it is stored
    from then on: [enabled] is the one asked for, the update time is the
    clock's, and every other field is as it was; the histories and the
    other flows are as before, and the next [GET /flows/<id>] answers the
    same flow. *)
Theorem toggle_changes_enabled_and_update_time_only
    (s : NexFlowState) (id : string) (f : FlowRecord) (enabled : bool)
    (w : World) :
  enumerates -> identified s -> plainly_named s ->
  flows s !! id = Some f ->
  no_slash id = true -> id <> "" ->
  let updated :=
    {| flow_name := flow_name f; flow_schedule := flow_schedule f;
       flow_enabled := Some enabled; flow_steps := flow_steps f;
       Schema.id := Schema.id f; createdAt := createdAt f;
       updatedAt := fst (now_iso w); lastRunAt := lastRunAt f |} in
  let s' := {| flows := <[id := updated]> (flows s); history := history s |} in
  let w1 := snd (now_iso w) in
  fetch (Some s) "PATCH" ("/flows/" +:+ id +:+ "/enabled") (ToggleDocument enabled) w
  = Some (Normal {| answer_status := 200; answer_body := OneFlow updated;
                    answer_saved := Some s' |}, Some s', w1)
  /\ (forall other, other <> id -> flows s' !! other = flows s !! other)
  /\ fetch (Some s') "GET" ("/flows/" +:+ id) NoDocument w1
     = Some (Normal {| answer_status := 200; answer_body := OneFlow updated;
                       answer_saved := None |}, Some s', w1).
Proof.
  intros Henum Hid Hplain Hf Hslash Hne. cbv zeta.
  set (updated := {| flow_name := flow_name f; flow_schedule := flow_schedule f;
                     flow_enabled := Some enabled; flow_steps := flow_steps f;
                     Schema.id := Schema.id f; createdAt := createdAt f;
                     updatedAt := fst (now_iso w); lastRunAt := lastRunAt f |}).
  assert (Hs' : identified {| flows := <[id := updated]> (flows s);
                              history := history s |}).
  { apply identified_insert; [exact (Hid _ _ Hf) | intros k g; apply Hid]. }
  assert (Hp' : plainly_named {| flows := <[id := updated]> (flows s);
                                 history := history s |}).
  { destruct (Hplain _ _ Hf) as [Hpi Hpn].
    apply (plainly_named_insert _ _ _ (history s)); [exact Hpi | exact Hpn|].
    intros k g; apply Hplain. }
  assert (Hf' : flows {| flows := <[id := updated]> (flows s);
                         history := history s |} !! id = Some updated)
    by apply lookup_insert_eq.
  split; [|split].
  - rewrite (fetch_identified _ _ _ _ _ Henum Hid Hplain). unfold serve.
    destruct (route_flow s id f Hf Hslash Hne) as (_ & _ & _ & -> & _).
    unfold setEnabled. subst updated.
    destruct (now_iso w) as [now w1]. reflexivity.
  - intros other Hother. simpl. now rewrite lookup_insert_ne by congruence.
  - rewrite (fetch_identified _ _ _ _ _ Henum Hs' Hp'). unfold serve.
    destruct (route_flow _ id _ Hf' Hslash Hne) as (-> & _).
    reflexivity.
Qed.

(** X18. A request that is answered keeps the store consistent: if each
    stored flow is stored under its own id and no history holds more than
    50 runs, the same is true of what the durable storage holds after the
    request, however it ends, by a response or by an exception, the
    migration of flows of the legacy format included.  Left out are the
    requests for which [fetch] has no answer here: those that find, under
    the id of their path or the flow id of their run, a member that
    objects inherit and no entry, such as [PATCH /flows/constructor/enabled]
    on a store without such a flow, which stores a record that is no
    flow.  Every other request is answered: it is when the stored flows
    have ids, and plain ids and names, and the request fits its route. *)
Theorem answered_requests_keep_the_store_consistent
    (durable : option NexFlowState) (method pathname : string)
    (body : RequestBody) (w : World) :
  consistent durable ->
  (forall r durable' w',
     fetch durable method pathname body w = Some (r, durable', w') ->
     consistent durable')
  /\ (enumerates ->
      identified (default empty_state durable) ->
      plainly_named (default empty_state durable) ->
      fits (route (default empty_state durable) method pathname) body ->
      is_Some (fetch durable method pathname body w)).
Proof.
  intros Hd. split.
  - intros r durable' w'. now apply StoreFacts.fetch_consistent.
  - intros Henum Hid Hplain Hfits.
    rewrite (fetch_settled _ _ _ _ _ Henum Hid Hplain).
    apply serve_answers; [|exact Hplain|exact Hfits].
    destruct durable as [s|]; [exact (proj1 Hd)|].
    intros k f. simpl. rewrite lookup_empty. discriminate.
Qed.

End Requests.
End RequestFacts.

(* ===================================================================== *)
(** * The sample store, and requests on it *)
(* ===================================================================== *)

Module StoreFixtureFacts.
Import JS Platform Schema Utils Manager Router Scheduler StoreProps.

(** The sample enumeration gives stored flows only, and the sample store
    holds one flow, which has an id. *)
Lemma key_order_enumerates : enumerates.
Proof.
  intros m f Hin. simpl in Hin. apply list_elem_of_In in Hin.
  apply list_elem_of_fmap in Hin as ([key g] & -> & Hin).
  apply elem_of_map_to_list in Hin. now exists key.
Qed.

Lemma store_identified : identified StoreFixtures.store.
Proof.
  intros key f Hl. unfold StoreFixtures.store in Hl. simpl in Hl.
  apply lookup_singleton_Some in Hl as [_ <-]. discriminate.
Qed.

Lemma store_plainly_named : plainly_named StoreFixtures.store.
Proof.
  intros key f Hl. unfold StoreFixtures.store in Hl. simpl in Hl.
  apply lookup_singleton_Some in Hl as [_ <-]. split; reflexivity.
Qed.

Lemma store_keyed : keyed StoreFixtures.store.
Proof.
  intros key f Hl. unfold StoreFixtures.store in Hl. simpl in Hl.
  now apply lookup_singleton_Some in Hl as [<- <-].
Qed.

Lemma key_order_lists_all : lists_all.
Proof.
  intros m key f Hl. simpl. apply list_elem_of_In.
  apply list_elem_of_fmap. exists (key, f). split; [reflexivity|].
  now apply elem_of_map_to_list.
Qed.

Lemma store_addressed (key : string) (f : FlowRecord) :
  flows StoreFixtures.store !! key = Some f ->
  no_slash key = true /\ addressed ("/flows/" +:+ key +:+ "/run").
Proof.
  intros Hl. unfold StoreFixtures.store in Hl. simpl in Hl.
  apply lookup_singleton_Some in Hl as [<- _]. split; reflexivity.
Qed.

End StoreFixtureFacts.

Module RequestWitnesses.
Import JS Platform Schema Utils Manager Router StoreProps RequestFacts
  StoreFixtureFacts.

Lemma deleted_flow_is_gone_with_its_history_witness :
  let s' := {| flows := delete "my-flow" (flows StoreFixtures.store);
               history := delete "my-flow" (history StoreFixtures.store) |} in
  fetch (Some StoreFixtures.store) "DELETE" ("/flows/" +:+ "my-flow") NoDocument
    Sample.noon
  = Some (Normal {| answer_status := 204; answer_body := Nothing;
                    answer_saved := Some s' |}, Some s', Sample.noon)
  /\ fetch (Some s') "GET" "/flows/my-flow/logs" NoDocument Sample.noon
     = Some (Normal flow_not_found, Some s', Sample.noon).
Proof.
  pose proof (deleted_flow_is_gone_with_its_history
                StoreFixtures.store "my-flow" Sample.my_flow Sample.noon
                key_order_enumerates store_identified store_plainly_named
                eq_refl eq_refl ltac:(discriminate)) as Hgone.
  cbv zeta in Hgone. destruct Hgone as (Hdelete & _ & _ & _ & Hafter).
  split; [exact Hdelete|].
  exact (Hafter eq_refl "GET" "/flows/my-flow/logs" ["logs"] NoDocument
           Sample.noon eq_refl).
Defined.

Lemma run_is_stored_and_shows_first_in_the_logs_witness :
  let ran := runFlowNow (withDefaults Sample.my_flow)
               {| opt_trigger := Some Runs.cron |} Sample.noon in
  let s' := appended StoreFixtures.store (fst ran) in
  fetch (Some StoreFixtures.store) "POST" ("/flows/" +:+ "my-flow" +:+ "/run")
    (TriggerDocument (Some Runs.cron)) Sample.noon
  = Some (Normal {| answer_status := 200; answer_body := OneRun (fst ran);
                    answer_saved := Some s' |}, Some s', snd ran)
  /\ fetch (Some s') "GET" ("/flows/" +:+ "my-flow" +:+ "/logs") NoDocument (snd ran)
     = Some (Normal {| answer_status := 200;
                       answer_body :=
                         RunList (take 50 (normalizeRun (fst ran)
                                           :: default [] (history StoreFixtures.store
                                                          !! "my-flow")));
                       answer_saved := None |}, Some s', snd ran).
Proof.
  pose proof (run_is_stored_and_shows_first_in_the_logs
                StoreFixtures.store "my-flow" Sample.my_flow
                (TriggerDocument (Some Runs.cron)) Sample.noon
                key_order_enumerates store_identified store_plainly_named
                store_keyed eq_refl eq_refl ltac:(discriminate)) as Hrun.
  cbv zeta in Hrun. destruct Hrun as (Hpost & _ & _ & Hlogs & _).
  split; [exact Hpost | exact Hlogs].
Defined.

Lemma update_keeps_id_creation_and_last_run_witness :
  let updated :=
    {| flow_name := "my  FLOW"; flow_schedule := "0 9 * * *";
       flow_enabled := Some true; flow_steps := [Sample.shout_step];
       Schema.id := "my-flow"; createdAt := "2025-01-01T00:00:00.000Z";
       updatedAt := fst (now_iso Sample.noon); lastRunAt := None |} in
  let s' := {| flows := <["my-flow" := updated]> (flows StoreFixtures.store);
               history := history StoreFixtures.store |} in
  fetch (Some StoreFixtures.store) "PUT" ("/flows/" +:+ "my-flow")
    (FlowDocument Sample.my_flow_again) Sample.noon
  = Some (Normal {| answer_status := 200; answer_body := OneFlow updated;
                    answer_saved := Some s' |}, Some s', snd (now_iso Sample.noon)).
Proof.
  pose proof (update_keeps_id_creation_and_last_run
                StoreFixtures.store "my-flow" Sample.my_flow Sample.my_flow_again
                Sample.noon key_order_enumerates store_identified
                store_plainly_named eq_refl eq_refl ltac:(discriminate)) as Hput.
  assert (Hparse : FlowConfigSchema_parse Sample.my_flow_again
                   = Normal {| name := "my  FLOW"; schedule := "0 9 * * *";
                               enabled := Some true;
                               steps := [Sample.shout_step] |})
    by (vm_compute; reflexivity).
  rewrite Hparse in Hput. exact (proj1 Hput).
Defined.

Lemma toggle_changes_enabled_and_update_time_only_witness :
  let updated :=
    {| flow_name := "My Flow!"; flow_schedule := "*/5 * * * *";
       flow_enabled := Some false;
       flow_steps := flow_steps Sample.my_flow;
       Schema.id := "my-flow"; createdAt := "2025-01-01T00:00:00.000Z";
       updatedAt := fst (now_iso Sample.noon); lastRunAt := None |} in
  (fun r => fst (fst r))
    <$> fetch (Some StoreFixtures.store) "PATCH"
          ("/flows/" +:+ "my-flow" +:+ "/enabled") (ToggleDocument false)
          Sample.noon
  = Some (Normal {| answer_status := 200; answer_body := OneFlow updated;
                    answer_saved :=
                      Some {| flows := <["my-flow" := updated]>
                                         (flows StoreFixtures.store);
                              history := history StoreFixtures.store |} |}).
Proof.
  pose proof (toggle_changes_enabled_and_update_time_only
                StoreFixtures.store "my-flow" Sample.my_flow false Sample.noon
                key_order_enumerates store_identified store_plainly_named
                eq_refl eq_refl ltac:(discriminate)) as Hpatch.
  cbv zeta in Hpatch. destruct Hpatch as (Hpatch & _).
  cbv zeta. rewrite Hpatch. reflexivity.
Defined.

End RequestWitnesses.

(* ===================================================================== *)
(** * A tick of the scheduler *)
(* ===================================================================== *)

Module TickFacts.
Import JS Platform Schema Utils Manager Router Scheduler StoreProps PathFacts
  MigrationFacts RequestFacts.

Section Tick.
Context {World : Type} `{Runtime World} `{Host} `{ObjectOrder} `{Cron.CronParser}.

Lemma runFlowNow_trigger (flow : FlowRecord) (t : Runs.Trigger) (w : World) :
  Runs.trigger (fst (runFlowNow flow {| opt_trigger := Some t |} w)) = Some t.
Proof.
  unfold runFlowNow, runFlowNow_with.
  destruct (now_iso w) as [startedAt w0].
  destruct (Steps.executeSteps _ _ w0) as [[[outcome|e] c] w1].
  - unfold run_record. destruct (randomUUID w1) as [uuid w2].
    now destruct (now_iso w2).
  - destruct (now_iso w1) as [t' w2]. unfold run_record.
    destruct (randomUUID w2) as [uuid w3]. now destruct (now_iso w3).
Qed.

Lemma request_addressed (durable : option NexFlowState) (method path : string)
    (body : RequestBody) (w : World) :
  addressed path ->
  request durable method path body w = fetch durable method path body w.
Proof. intros Hpath. unfold request. now rewrite Hpath. Qed.

(** One run asked for by the scheduler. *)
Lemma run_by_cron_step (s : NexFlowState) (k : string) (g : FlowRecord) (w : World) :
  enumerates -> identified s -> plainly_named s -> keyed s ->
  flows s !! k = Some g ->
  no_slash k = true -> addressed ("/flows/" +:+ k +:+ "/run") ->
  exists s' w',
    run_by_cron k (Some s) w = Some (Some s', w')
    /\ identified s' /\ plainly_named s' /\ keyed s'
    /\ (forall other, other <> k ->
          flows s' !! other = flows s !! other
          /\ history s' !! other = history s !! other)
    /\ last_run_by_cron s' k
    /\ (forall other, is_Some (flows s !! other) -> is_Some (flows s' !! other)).
Proof.
  intros Henum Hid Hplain Hk Hg Hslash Hpath. unfold run_by_cron.
  assert (Hne : k <> "").
  { rewrite <- (Hk _ _ Hg). exact (Hid _ _ Hg). }
  pose proof (runFlowNow_flowId (withDefaults g)
                {| opt_trigger := Some Runs.cron |} w) as Hflow.
  pose proof (runFlowNow_trigger (withDefaults g) Runs.cron w) as Htrig.
  simpl in Hflow. rewrite (Hk _ _ Hg) in Hflow.
  assert (Hpk : plain k = true).
  { destruct (Hplain _ _ Hg) as [Hp _]. now rewrite (Hk _ _ Hg) in Hp. }
  rewrite (request_addressed _ _ _ _ _ Hpath).
  rewrite (fetch_identified _ _ _ _ _ Henum Hid Hplain). unfold serve.
  destruct (route_flow s k g Hg Hslash Hne) as (_ & _ & _ & _ & _ & ->).
  unfold run. simpl requested_trigger. simpl default.
  destruct (runFlowNow (withDefaults g) {| opt_trigger := Some Runs.cron |} w)
    as [record w1]. simpl fst in *.
  rewrite ManagerFacts.persistRun_plain by now rewrite Hflow.
  unfold answered. simpl.
  assert (Hflows' : flows (appended s record) !! k
                    = Some (with_lastRunAt g (Runs.finishedAt record))).
  { unfold appended. simpl. rewrite Hflow, Hg. simpl. apply lookup_insert_eq. }
  exists (appended s record), w1.
  split; [reflexivity|].
  split; [now apply appended_identified|].
  split; [now apply appended_plainly_named|].
  split; [now apply StoreFacts.appended_keyed|].
  split; [|split].
  - intros other Hother. split.
    + unfold appended. simpl. rewrite Hflow, Hg.
      simpl. now rewrite lookup_insert_ne by congruence.
    + rewrite ManagerFacts.appended_history_other; [reflexivity|].
      rewrite Hflow. exact Hother.
  - unfold last_run_by_cron.
    exists (normalizeRun record),
      (take 49 (default [] (history s !! k))),
      (with_lastRunAt g (Runs.finishedAt record)).
    split; [|split; [|split; [|split]]].
    + pose proof (ManagerFacts.appended_history s record) as Hh.
      rewrite Hflow in Hh. rewrite Hh. reflexivity.
    + simpl. now rewrite Htrig.
    + exact Hflow.
    + exact Hflows'.
    + reflexivity.
  - intros other Hsome. destruct (decide (other = k)) as [->|Hother].
    + rewrite Hflows'. eauto.
    + unfold appended. simpl. rewrite Hflow, Hg. simpl.
      now rewrite lookup_insert_ne by congruence.
Qed.

Lemma last_run_by_cron_frame (s s' : NexFlowState) (id : string) :
  flows s' !! id = flows s !! id -> history s' !! id = history s !! id ->
  last_run_by_cron s id -> last_run_by_cron s' id.
Proof.
  intros Hf Hh (record & rest & f & Ha & Hb & Hc & Hd & He).
  exists record, rest, f. rewrite Hf, Hh. auto.
Qed.

(** The loop of a tick, from a store [s] that has all the flows of the
    list. *)
Lemma run_due_spec (now : Cron.Date) (stored : list FlowRecord) :
  enumerates ->
  forall (s : NexFlowState) (w : World),
    identified s -> plainly_named s -> keyed s ->
    (forall g, In g stored ->
       is_Some (flows s !! id g) /\ no_slash (id g) = true
       /\ addressed ("/flows/" +:+ id g +:+ "/run")) ->
    exists s' w',
      run_due now (List.map withDefaults stored) (Some s) w = Some (Some s', w')
      /\ (forall key,
            (forall g, In g stored -> id g = key ->
               shouldRun (withDefaults g) now = false) ->
            flows s' !! key = flows s !! key
            /\ history s' !! key = history s !! key)
      /\ (forall key, last_run_by_cron s key -> last_run_by_cron s' key)
      /\ (forall g, In g stored -> shouldRun (withDefaults g) now = true ->
            last_run_by_cron s' (id g)).
Proof.
  intros Henum. induction stored as [|g rest IH]; intros s w Hid Hplain Hk Hall.
  - exists s, w. simpl. repeat split; auto. intros g [].
  - simpl List.map. simpl run_due.
    assert (Hrest : forall s1, (forall other, is_Some (flows s !! other) ->
                                  is_Some (flows s1 !! other)) ->
                    forall g0, In g0 rest ->
                      is_Some (flows s1 !! id g0) /\ no_slash (id g0) = true
                      /\ addressed ("/flows/" +:+ id g0 +:+ "/run")).
    { intros s1 Hdom g0 Hg0. destruct (Hall g0 (or_intror Hg0)) as (Hs & Hn & He).
      auto. }
    destruct (shouldRun (withDefaults g) now) eqn:Hdue; simpl negb; cbv iota.
    + destruct (Hall g (or_introl eq_refl)) as ([g' Hg'] & Hslash & Hpath).
      change (id (withDefaults g)) with (id g).
      destruct (run_by_cron_step s (id g) g' w Henum Hid Hplain Hk Hg' Hslash Hpath)
        as (s1 & w1 & -> & Hid1 & Hplain1 & Hk1 & Hframe & Hran & Hdom).
      destruct (IH s1 w1 Hid1 Hplain1 Hk1 (Hrest s1 Hdom))
        as (s' & w' & Hrun & Hkeep & Hlast & Hdone).
      exists s', w'. split; [exact Hrun|]. split; [|split].
      * intros key Hkey. destruct (Hkeep key) as [Hf Hh].
        { intros g0 Hg0. apply Hkey. now right. }
        assert (Hother : key <> id g).
        { intros ->. specialize (Hkey g (or_introl eq_refl) eq_refl). congruence. }
        destruct (Hframe key Hother) as [Hf1 Hh1]. split; congruence.
      * intros key Hkey. apply Hlast.
        destruct (decide (key = id g)) as [->|Hother].
        -- exact Hran.
        -- destruct (Hframe key Hother) as [Hf1 Hh1].
           exact (last_run_by_cron_frame s s1 key Hf1 Hh1 Hkey).
      * intros g0 [<-|Hg0] Hdue0; [apply Hlast, Hran | now apply Hdone].
    + destruct (IH s w Hid Hplain Hk (Hrest s (fun _ Hs => Hs)))
        as (s' & w' & Hrun & Hkeep & Hlast & Hdone).
      exists s', w'. split; [exact Hrun|]. split; [|split].
      * intros key Hkey. apply Hkeep. intros g0 Hg0. apply Hkey. now right.
      * exact Hlast.
      * intros g0 [<-|Hg0] Hdue0; [congruence | now apply Hdone].
Qed.

(** X27. A tick of the scheduler runs the flows that should run, and leaves
    the others alone.  Take a consistent store whose flows have ids, plain
    ids and names, and ids without a slash, and a host on which the urls
    of the scheduler, for the list of the flows and for the run of each
    stored flow, parse to the paths the scheduler wrote.  A tick that
    finds no other tick running lists the flows and asks the manager to
    run, with the trigger [cron], each of them that is not disabled, has a
    schedule that is not blank and is due: after the tick the latest run
    of such a flow is one started by the scheduler, and its end is the
    last run of the flow.  Every other stored flow, and its history, are
    after the tick what they were before.  A tick that finds another one
    running does nothing, and neither does a tick whose url for the list
    does not parse. *)
Theorem tick_runs_the_flows_that_should_run_and_no_other
    (now : Cron.Date) (s : NexFlowState) (w : World) :
  enumerates -> lists_all ->
  identified s -> plainly_named s -> keyed s ->
  (forall key f, flows s !! key = Some f ->
     no_slash key = true /\ addressed ("/flows/" +:+ key +:+ "/run")) ->
  (forall durable w0, tick true now durable w0 = Some (durable, w0))
  /\ (forall e durable w0,
        URL_pathname (manager_url "/flows") = Throw e ->
        tick false now durable w0 = Some (durable, w0))
  /\ (addressed "/flows" ->
      exists s' w',
        tick false now (Some s) w = Some (Some s', w')
        /\ forall key f,
             flows s !! key = Some f ->
             if shouldRun (withDefaults f) now
             then last_run_by_cron s' key
             else flows s' !! key = Some f
                  /\ history s' !! key = history s !! key).
Proof.
  intros Henum Hall Hid Hplain Hk Hkeys. split; [reflexivity|]. split.
  { intros e durable w0 He. unfold tick, request. now rewrite He. }
  intros Hlist.
  unfold tick. rewrite (request_addressed _ _ _ _ _ Hlist).
  rewrite (fetch_identified _ _ _ _ _ Henum Hid Hplain). unfold serve.
  change (route s "GET" "/flows") with ListFlows. unfold answered. simpl.
  assert (Hstored : forall g, In g (Object_values (flows s)) ->
            flows s !! id g = Some g).
  { intros g Hg. destruct (Henum _ _ Hg) as [key Hkey].
    now rewrite (Hk _ _ Hkey). }
  destruct (run_due_spec now (Object_values (flows s)) Henum s w Hid Hplain Hk)
    as (s' & w' & Hrun & Hkeep & _ & Hdone).
  { intros g Hg. pose proof (Hstored g Hg) as Hs. split; [eauto|].
    exact (Hkeys _ _ Hs). }
  destruct (List.map withDefaults (Object_values (flows s))) as [|first others] eqn:Hlist'.
  - exists s, w. split; [reflexivity|]. intros key f Hf.
    apply Hall in Hf. destruct (Object_values (flows s)); [destruct Hf | discriminate].
  - exists s', w'. split; [exact Hrun|]. intros key f Hf.
    destruct (shouldRun (withDefaults f) now) eqn:Hdue.
    + rewrite <- (Hk _ _ Hf). apply Hdone; [exact (Hall _ _ _ Hf) | exact Hdue].
    + destruct (Hkeep key) as [Hf' Hh'].
      { intros g Hg Hkey. pose proof (Hstored g Hg) as Hs. rewrite Hkey, Hf in Hs.
        now injection Hs as <-. }
      split; congruence.
Qed.

End Tick.
End TickFacts.

Module TickWitnesses.
Import JS Platform Schema Utils Manager Router Scheduler StoreProps TickFacts
  StoreFixtureFacts.

Lemma tick_runs_the_flows_that_should_run_and_no_other_witness :
  shouldRun (withDefaults Sample.my_flow) (Some 1735733100000) = true
  /\ exists s' w',
       tick false (Some 1735733100000) (Some StoreFixtures.store) Sample.noon
       = Some (Some s', w')
       /\ last_run_by_cron s' "my-flow".
Proof.
  assert (Hdue : shouldRun (withDefaults Sample.my_flow) (Some 1735733100000) = true)
    by (vm_compute; reflexivity).
  split; [exact Hdue|].
  destruct (tick_runs_the_flows_that_should_run_and_no_other
              (Some 1735733100000) StoreFixtures.store Sample.noon
              key_order_enumerates key_order_lists_all store_identified
              store_plainly_named store_keyed store_addressed)
    as (_ & _ & Hlist).
  destruct (Hlist eq_refl) as (s' & w' & Htick & Hflows).
  exists s', w'. split; [exact Htick|].
  specialize (Hflows "my-flow" Sample.my_flow eq_refl).
  rewrite Hdue in Hflows. exact Hflows.
Defined.

End TickWitnesses.

(* ===================================================================== *)
(** * Routes and the creation of flows *)
(* ===================================================================== *)

Module RouteFacts.
Import JS Platform Schema Utils Manager Router StoreProps PathFacts MigrationFacts
  RequestFacts Spec.

Lemma split_pieces (s : string) :
  Forall (fun piece => no_slash piece = true) (Str.split "/" s).
Proof.
  induction s as [|c r IH]; simpl.
  - apply Forall_cons_2; [reflexivity | apply Forall_nil_2].
  - destruct (Ascii.eqb c "/") eqn:Hc.
    + apply Forall_cons_2; [reflexivity | exact IH].
    + destruct (Str.split "/" r) as [|p ps].
      * apply Forall_cons_2; [|apply Forall_nil_2].
        unfold no_slash. cbn [Str.forallb]. now rewrite Hc.
      * apply Forall_cons_1 in IH as [Hp Hps].
        apply Forall_cons_2; [|exact Hps].
        unfold no_slash in *. cbn [Str.forallb]. now rewrite Hc.
Qed.

Lemma segments_pieces (pathname : string) :
  Forall (fun piece => no_slash piece = true /\ piece <> "") (segments pathname).
Proof.
  unfold segments. pose proof (split_pieces pathname) as Hall.
  induction Hall as [|p ps Hp _ IH]; simpl; [apply Forall_nil_2|].
  destruct p as [|c r]; simpl; [exact IH|].
  apply Forall_cons_2; [split; [exact Hp | discriminate] | exact IH].
Qed.

Lemma replace_runs_all (p : ascii -> bool) (s : string) :
  Str.forallb p s = true ->
  replace_runs p "-" s = if Str.truthy s then "-" else "".
Proof.
  induction s as [|c r IH]; [reflexivity|]. simpl. intros Hall.
  apply andb_prop in Hall as [Hc Hr]. rewrite Hc.
  destruct r as [|d t]; [reflexivity|].
  simpl in Hr. apply andb_prop in Hr as [Hd Ht]. rewrite Hd.
  apply IH. simpl. now rewrite Hd, Ht.
Qed.

Lemma generateFlowId_no_alnum (name : string) :
  Str.forallb not_alnum (Str.toLowerCase name) = true ->
  generateFlowId name = "".
Proof.
  intros Hall. unfold generateFlowId. rewrite (replace_runs_all _ _ Hall).
  now destruct (Str.truthy (Str.toLowerCase name)).
Qed.

Lemma route_runs_names_no_flow (segs : list string) (m : string) :
  route_id (route_runs segs m) = None
  /\ route_runs segs m <> FlowNotFound
  /\ forall id member, route_runs segs m <> BuiltinFlow id member.
Proof.
  destruct segs as [|first segs]; simpl; [now repeat split|].
  now destruct (String.eqb first "runs" && String.eqb m "POST").
Qed.

Lemma flow_branch_names_the_flow (sub : list string) (m : string)
    (branch : string -> FlowRecord -> Route) (id : string) (f : FlowRecord) :
  flow_branch sub m = Some branch ->
  route_id (branch id f) = Some id
  /\ branch id f <> FlowNotFound
  /\ forall id' member, branch id f <> BuiltinFlow id' member.
Proof.
  unfold flow_branch. destruct sub as [|third sub].
  - destruct (String.eqb m "GET"); [now intros [= <-]|].
    destruct (String.eqb m "PUT"); [now intros [= <-]|].
    destruct (String.eqb m "DELETE"); [now intros [= <-]|discriminate].
  - destruct (String.eqb third "enabled" && _); [now intros [= <-]|].
    destruct (String.eqb third "logs" && _); [now intros [= <-]|].
    destruct (String.eqb third "run" && _); [now intros [= <-]|discriminate].
Qed.

Section Routes.
Context `{Builtins}.

(** X20. The id a request is routed to a flow with is a stored one, is not
    empty and has no slash: no request reaches a flow stored under the
    empty id, which is the id of a name without a letter or a digit.  A
    request under [/flows/<id>] ends in [Flow not found], before its
    method is looked at, exactly when no flow is stored under the id and
    objects inherit no member under it; where only an inherited member is
    found under the id, which then is neither stored nor empty, the
    request goes on with that member in the place of the flow. *)
Theorem routed_ids_are_stored_and_not_empty
    (s : NexFlowState) (method pathname : string) :
  (forall id,
     route_id (route s method pathname) = Some id ->
     is_Some (flows s !! id) /\ id <> "" /\ no_slash id = true)
  /\ (forall id rest,
        segments pathname = "flows" :: id :: rest ->
        route s method pathname = FlowNotFound
        <-> flows s !! id = None /\ plain id = true)
  /\ (forall id member,
        route s method pathname = BuiltinFlow id member ->
        flows s !! id = None /\ plain id = false
        /\ member = inherited OfObject id /\ id <> "" /\ no_slash id = true)
  /\ (forall name,
        Str.forallb not_alnum (Str.toLowerCase name) = true ->
        generateFlowId name = "").
Proof.
  split; [|split; [|split; [|exact generateFlowId_no_alnum]]].
  - intros id. unfold route. cbv zeta.
    pose proof (segments_pieces pathname) as Hall.
    destruct (segments pathname) as [|first [|second sub]]; cbv match beta.
    + now rewrite (proj1 (route_runs_names_no_flow _ _)).
    + destruct (String.eqb first "flows");
        [|now rewrite (proj1 (route_runs_names_no_flow _ _))].
      destruct (String.eqb (toUpperCase method) "GET"); [discriminate|].
      destruct (String.eqb (toUpperCase method) "POST"); [discriminate|].
      now rewrite (proj1 (route_runs_names_no_flow _ _)).
    + destruct (String.eqb first "flows");
        [|now rewrite (proj1 (route_runs_names_no_flow _ _))].
      apply Forall_cons_1 in Hall as [_ Hrest].
      apply Forall_cons_1 in Hrest as [[Hslash Hne] _].
      destruct (property (flows s) second) as [f|member|] eqn:Hf; [| |discriminate].
      * apply DictFacts.property_is_own in Hf.
        destruct (flow_branch sub (toUpperCase method)) as [branch|] eqn:Hb;
          [|now rewrite (proj1 (route_runs_names_no_flow _ _))].
        rewrite (proj1 (flow_branch_names_the_flow _ _ _ second f Hb)).
        intros [= <-]. rewrite Hf. eauto.
      * destruct (flow_branch sub (toUpperCase method)); [discriminate|].
        now rewrite (proj1 (route_runs_names_no_flow _ _)).
  - intros id rest Hseg. unfold route. rewrite Hseg. cbn [String.eqb Ascii.eqb Bool.eqb].
    cbv zeta match beta. split.
    + destruct (property (flows s) id) as [f|member|] eqn:Hf.
      * destruct (flow_branch rest (toUpperCase method)) as [branch|] eqn:Hb.
        -- intros Hr.
           now destruct (proj1 (proj2 (flow_branch_names_the_flow _ _ _ id f Hb))).
        -- intros Hr. now destruct (proj1 (proj2 (route_runs_names_no_flow _ _)) Hr).
      * destruct (flow_branch rest (toUpperCase method)); [discriminate|].
        intros Hr. now destruct (proj1 (proj2 (route_runs_names_no_flow _ _)) Hr).
      * intros _. now apply DictFacts.property_absent.
    + intros [Hnone Hplain]. now rewrite (DictFacts.property_plain _ _ Hplain), Hnone.
  - intros id member. unfold route. cbv zeta.
    pose proof (segments_pieces pathname) as Hall.
    destruct (segments pathname) as [|first [|second sub]]; cbv match beta.
    + intros Hr. now destruct (proj2 (proj2 (route_runs_names_no_flow _ _)) _ _ Hr).
    + destruct (String.eqb first "flows");
        [|intros Hr; now destruct (proj2 (proj2 (route_runs_names_no_flow _ _)) _ _ Hr)].
      destruct (String.eqb (toUpperCase method) "GET"); [discriminate|].
      destruct (String.eqb (toUpperCase method) "POST"); [discriminate|].
      intros Hr. now destruct (proj2 (proj2 (route_runs_names_no_flow _ _)) _ _ Hr).
    + destruct (String.eqb first "flows");
        [|intros Hr; now destruct (proj2 (proj2 (route_runs_names_no_flow _ _)) _ _ Hr)].
      apply Forall_cons_1 in Hall as [_ Hrest].
      apply Forall_cons_1 in Hrest as [[Hslash Hne] _].
      destruct (property (flows s) second) as [f|found|] eqn:Hf; [| |discriminate].
      * destruct (flow_branch sub (toUpperCase method)) as [branch|] eqn:Hb.
        -- intros Hr.
           now destruct (proj2 (proj2 (flow_branch_names_the_flow _ _ _ second f Hb))
                           _ _ Hr).
        -- intros Hr. now destruct (proj2 (proj2 (route_runs_names_no_flow _ _)) _ _ Hr).
      * destruct (flow_branch sub (toUpperCase method));
          [|intros Hr; now destruct (proj2 (proj2 (route_runs_names_no_flow _ _)) _ _ Hr)].
        intros [= <- <-].
        destruct (DictFacts.property_inherited _ _ _ Hf) as [Hnone Hplain].
        split; [exact Hnone|]. split; [exact Hplain|]. split; [|now split].
        unfold property in Hf. rewrite Hnone in Hf.
        destruct (truthy _); [now injection Hf as <- | discriminate].
Qed.

End Routes.

Lemma slug_char_no_slash (s : string) :
  Str.forallb slug_char s = true -> no_slash s = true.
Proof.
  unfold no_slash. induction s as [|c r IH]; [reflexivity|]. simpl.
  intros Hall. apply andb_prop in Hall as [Hc Hr]. rewrite (IH Hr), andb_true_r.
  destruct (Ascii.eqb_spec c "/") as [->|_]; [discriminate | reflexivity].
Qed.

Lemma generateFlowId_no_slash (name : string) :
  no_slash (generateFlowId name) = true.
Proof.
  pose proof (UtilsFacts.generateFlowId_is_slug name) as Hslug.
  unfold is_slug in Hslug.
  apply andb_prop in Hslug as [Hslug _]. apply andb_prop in Hslug as [Hslug _].
  apply andb_prop in Hslug as [Hchars _]. now apply slug_char_no_slash.
Qed.

Section Create.
Context {World : Type} `{Runtime World} `{Host} `{ObjectOrder}.

(** X21. A created flow can be read back, and its name is taken.  On a
    store whose flows all have ids, and plain ids and names, or on a
    durable storage that holds nothing yet, take [POST /flows] with a
    configuration the schema accepts, whose name gives an id that is not
    empty.  When no flow is stored under the id and objects inherit no
    member under it, the request answers 201 with the new flow, stored
    under that id with [enabled] defaulted to true, both times set to the
    clock and no last run, the histories and the other flows being as
    before; and when objects inherit no member under the name either, the
    next [GET /flows/<id>] answers the same flow, and the same
    [POST /flows] again is answered 409 [Flow already exists] and saves
    nothing.  When a flow is stored under the id, or a member is inherited
    under it, the request is answered 409 [Flow already exists] at once
    and saves nothing. *)
Theorem created_flow_can_be_read_back
    (durable : option NexFlowState) (config payload : FlowConfig) (w : World) :
  enumerates ->
  identified (default empty_state durable) ->
  plainly_named (default empty_state durable) ->
  FlowConfigSchema_parse config = Normal payload ->
  generateFlowId (name config) <> "" ->
  let id := generateFlowId (name config) in
  let storage := default empty_state durable in
  let record :=
    {| flow_name := name config; flow_schedule := schedule config;
       flow_enabled := Some (default true (enabled config));
       flow_steps := steps payload;
       Schema.id := id; createdAt := fst (now_iso w);
       updatedAt := fst (now_iso w); lastRunAt := None |} in
  let s' := {| flows := <[id := record]> (flows storage);
               history := history storage |} in
  let w1 := snd (now_iso w) in
  let taken := {| answer_status := 409;
                  answer_body := Plain "Flow already exists";
                  answer_saved := None |} in
  match property (flows storage) id with
  | Absent =>
      fetch durable "POST" "/flows" (FlowDocument config) w
      = Some (Normal {| answer_status := 201; answer_body := OneFlow record;
                        answer_saved := Some s' |}, Some s', w1)
      /\ (forall other, other <> id -> flows s' !! other = flows storage !! other)
      /\ (plain (name config) = true ->
          fetch (Some s') "GET" ("/flows/" +:+ id) NoDocument w1
          = Some (Normal {| answer_status := 200; answer_body := OneFlow record;
                            answer_saved := None |}, Some s', w1)
          /\ fetch (Some s') "POST" "/flows" (FlowDocument config) w1
             = Some (Normal taken, Some s', w1))
  | _ =>
      fetch durable "POST" "/flows" (FlowDocument config) w
      = Some (Normal taken, durable, w)
  end.
Proof.
  intros Henum Hid Hplain Hparse Hne. cbv zeta.
  assert (Hpayload : name payload = name config /\ schedule payload = schedule config
                     /\ enabled payload = Some (default true (enabled config))).
  { unfold FlowConfigSchema_parse in Hparse.
    destruct (_ ++ _); [|discriminate]. injection Hparse as <-. now repeat split. }
  destruct Hpayload as (Hn & Hs & He).
  set (id := generateFlowId (name config)) in *.
  set (storage := default empty_state durable) in *.
  set (record := {| flow_name := name config; flow_schedule := schedule config;
                    flow_enabled := Some (default true (enabled config));
                    flow_steps := steps payload;
                    Schema.id := id; createdAt := fst (now_iso w);
                    updatedAt := fst (now_iso w); lastRunAt := None |}).
  set (s' := {| flows := <[id := record]> (flows storage);
                history := history storage |}).
  assert (Hpost : fetch durable "POST" "/flows" (FlowDocument config) w
                  = let '(r, w0) := create storage config w in
                    answered durable (of_completion r) w0).
  { unfold fetch. fold storage.
    rewrite (migrateLegacyState_identity storage w Henum Hid Hplain).
    unfold serve. now change (route storage "POST" "/flows") with CreateFlow. }
  assert (Hcreate : property (flows storage) id <> Absent ->
            create storage config w
            = (Normal {| reply_status := 409; reply_body := Text "Flow already exists";
                         saved := None |}, w)).
  { intros Hfound. unfold create. rewrite Hparse, Hn. fold id.
    now destruct (property (flows storage) id). }
  destruct (property (flows storage) id) as [existing|member|] eqn:Hfree.
  - rewrite Hpost, Hcreate by discriminate. reflexivity.
  - rewrite Hpost, Hcreate by discriminate. reflexivity.
  - clear Hcreate. destruct (DictFacts.property_absent _ _ Hfree) as [Hnone Hpid].
    assert (Hs' : identified s').
    { apply identified_insert; [exact Hne | intros k g; apply Hid]. }
    assert (Hrecord : flows s' !! id = Some record) by apply lookup_insert_eq.
    split; [|split].
    + rewrite Hpost. unfold create. rewrite Hparse, Hn. fold id. rewrite Hfree.
      rewrite Hs, He. subst s' record. destruct (now_iso w) as [now w1]. reflexivity.
    + intros other Hother. simpl. now rewrite lookup_insert_ne by congruence.
    + intros Hpname.
      assert (Hp' : plainly_named s').
      { apply (plainly_named_insert _ _ _ (history storage));
          [exact Hpid | exact Hpname | intros k g; apply Hplain]. }
      split.
      * rewrite (fetch_identified _ _ _ _ _ Henum Hs' Hp'). unfold serve.
        destruct (route_flow s' id record Hrecord (generateFlowId_no_slash _) Hne)
          as (-> & _).
        reflexivity.
      * rewrite (fetch_identified _ _ _ _ _ Henum Hs' Hp'). unfold serve.
        change (route s' "POST" "/flows") with CreateFlow. cbv match beta.
        rewrite (ManagerFacts.create_duplicate s' config payload record
                   (snd (now_iso w)) Hparse Hrecord).
        reflexivity.
Qed.

End Create.
End RouteFacts.


Module StoreWitnesses.
Import JS Platform Schema Utils Manager Router StoreProps StoreFixtureFacts.

Lemma created_flow_can_be_read_back_witness :
  let record :=
    {| flow_name := "my  FLOW"; flow_schedule := "0 9 * * *";
       flow_enabled := Some true; flow_steps := [Sample.shout_step];
       Schema.id := "my-flow"; createdAt := fst (now_iso Sample.noon);
       updatedAt := fst (now_iso Sample.noon); lastRunAt := None |} in
  let s' := {| flows := <["my-flow" := record]> ∅; history := ∅ |} in
  fetch None "POST" "/flows" (FlowDocument Sample.my_flow_again) Sample.noon
  = Some (Normal {| answer_status := 201; answer_body := OneFlow record;
                    answer_saved := Some s' |}, Some s', snd (now_iso Sample.noon))
  /\ fetch (Some s') "GET" ("/flows/" +:+ "my-flow") NoDocument
       (snd (now_iso Sample.noon))
     = Some (Normal {| answer_status := 200; answer_body := OneFlow record;
                       answer_saved := None |}, Some s', snd (now_iso Sample.noon)).
Proof.
  assert (Hparse : FlowConfigSchema_parse Sample.my_flow_again
                   = Normal {| name := "my  FLOW"; schedule := "0 9 * * *";
                               enabled := Some true;
                               steps := [Sample.shout_step] |})
    by (vm_compute; reflexivity).
  assert (Hfresh : identified (default empty_state None)).
  { intros key f Hl. simpl in Hl. rewrite lookup_empty in Hl. discriminate. }
  assert (Hnames : plainly_named (default empty_state None)).
  { intros key f Hl. simpl in Hl. rewrite lookup_empty in Hl. discriminate. }
  assert (Hfree : property (flows (default empty_state None))
                    (generateFlowId (name Sample.my_flow_again)) = Absent)
    by (vm_compute; reflexivity).
  pose proof (RouteFacts.created_flow_can_be_read_back None Sample.my_flow_again _
                Sample.noon key_order_enumerates Hfresh Hnames Hparse
                ltac:(vm_compute; discriminate)) as Hcreated.
  cbv zeta in Hcreated. rewrite Hfree in Hcreated.
  destruct Hcreated as (Hpost & _ & Hnext).
  split; [exact Hpost | exact (proj1 (Hnext eq_refl))].
Defined.

(** The name [Constructor] is taken in every store: its id is
    [constructor], under which the dictionary of the flows inherits a
    member. *)
Example constructor_is_taken :
  generateFlowId "Constructor" = "constructor"
  /\ fetch None "POST" "/flows"
       (FlowDocument {| name := "Constructor"; schedule := "0 9 * * *";
                        enabled := None; steps := [Sample.shout_step] |})
       Sample.noon
     = Some (Normal {| answer_status := 409;
                       answer_body := Plain "Flow already exists";
                       answer_saved := None |}, None, Sample.noon).
Proof. split; vm_compute; reflexivity. Qed.

Lemma answered_requests_keep_the_store_consistent_witness :
  consistent (Some StoreFixtures.store)
  /\ (forall r durable' w',
        fetch (Some StoreFixtures.store) "POST" "/flows/my-flow/run" NoDocument
          Sample.noon = Some (r, durable', w') ->
        consistent durable')
  /\ is_Some (fetch (Some StoreFixtures.store) "POST" "/flows/my-flow/run"
                NoDocument Sample.noon).
Proof.
  assert (Hstore : consistent (Some StoreFixtures.store)).
  { split; [exact store_keyed|]. intros key runs Hl. simpl in Hl.
    rewrite lookup_empty in Hl. discriminate. }
  split; [exact Hstore|].
  destruct (RequestFacts.answered_requests_keep_the_store_consistent
              (Some StoreFixtures.store) "POST" "/flows/my-flow/run" NoDocument
              Sample.noon Hstore) as [Hkeeps Hanswers].
  split; [exact Hkeeps|].
  apply Hanswers;
    [exact key_order_enumerates | exact store_identified
    | exact store_plainly_named | exact I].
Defined.

Lemma migration_settles_witness :
  migrateLegacyState StoreFixtures.store Sample.noon
  = Some (Normal (StoreFixtures.store, None), Sample.noon).
Proof.
  exact (proj1 (MigrationFacts.migration_settles StoreFixtures.store Sample.noon
                  key_order_enumerates) store_identified store_plainly_named).
Defined.

(** The store of the legacy format, migrated: its flow and its runs are
    now under the id of its name. *)
Example legacy_store_is_rewritten :
  exists next,
    migrateLegacyState StoreFixtures.legacy Sample.noon
    = Some (Normal (next, Some next), snd (now_iso Sample.noon))
    /\ (id <$> flows next !! "my-flow") = Some "my-flow"
    /\ (List.map Runs.flowId <$> history next !! "my-flow") = Some ["my-flow"]
    /\ flows next !! "My Flow!" = None.
Proof.
  eexists. split; [vm_compute; reflexivity|].
  split; [vm_compute; reflexivity|]. split; vm_compute; reflexivity.
Qed.

(** A stored flow that never ran and is named [toString]: every request
    ends with the exception of the migration. *)
Example a_flow_named_toString_stops_every_request :
  let flow :=
    {| flow_name := "toString"; flow_schedule := "0 9 * * *";
       flow_enabled := Some true; flow_steps := [Sample.shout_step];
       id := "tostring"; createdAt := "2025-01-01T00:00:00.000Z";
       updatedAt := "2025-01-01T00:00:00.000Z"; lastRunAt := None |} in
  let s := {| flows := {[ "tostring" := flow ]}; history := ∅ |} in
  fetch (Some s) "GET" "/flows" NoDocument Sample.noon
  = Some (Throw (ErrorObject "TypeError"
                   "(state.history[flow.id] || state.history[flow.name] || []).map is not a function"),
          Some s, Sample.noon).
Proof. vm_compute. reflexivity. Qed.

End StoreWitnesses.

(* ===================================================================== *)
(** * A due flow on the sample calendar *)
(* ===================================================================== *)

Module CronWitness.
Import JS Cron Spec.

#[local] Existing Instance Sample.builtins.

Lemma due_is_after_reference_witness :
  due (isDue "*/5 * * * *" (Some "2025-01-01T12:00:00.000Z") (Some 1735733100000))
  = true
  /\ exists n, Some 1735733100000 = Some n /\ 1735732800000 < n.
Proof.
  split; [vm_compute; reflexivity|].
  refine (CronContract.due_is_after_reference CronContract.sample_next_is_later
            "*/5 * * * *" (Some "2025-01-01T12:00:00.000Z") (Some 1735733100000)
            1735732800000 _ _ _).
  - discriminate.
  - vm_compute. reflexivity.
  - vm_compute. reflexivity.
Defined.

End CronWitness.

(* ===================================================================== *)
(** * Posted runs; a run that stops early *)
(* ===================================================================== *)

Module PostedRunFacts.
Import JS Platform Schema Utils Manager Router StoreProps PathFacts MigrationFacts
  RequestFacts.

Section Posted.
Context {World : Type} `{Runtime World} `{Host} `{ObjectOrder}.

(** X26. A run posted for a flow that is not stored is kept all the same,
    and cannot be read.  On a store whose flows all have ids, and plain
    ids and names, take [POST /runs] with a record the schema accepts,
    for a flow id under which no flow is stored.  When objects inherit no
    member under the flow id, the request answers 200 with the parsed
    record and stores it at the head of the history kept under its flow
    id, cut to 50 runs; no flow is created or changed, and
    [GET /flows/<flowId>/logs] is answered 404 [Flow not found].  When
    the flow id is one under which the history has no entry and inherits a
    member, such as [constructor], the request ends with the exception of
    the call of [unshift] on that member, and nothing is stored. *)
Theorem posted_run_of_an_unknown_flow_is_kept_but_not_shown
    (s : NexFlowState) (record parsed : Runs.RunRecord) (w : World) :
  enumerates -> identified s -> plainly_named s ->
  Runs.RunRecordSchema_parse record = Normal parsed ->
  flows s !! Runs.flowId record = None ->
  (plain (Runs.flowId record) = true ->
   let s' := appended s parsed in
   fetch (Some s) "POST" "/runs" (RunDocument record) w
   = Some (Normal {| answer_status := 200; answer_body := OneRun parsed;
                     answer_saved := Some s' |}, Some s', w)
   /\ history s' !! Runs.flowId record
      = Some (take 50 (normalizeRun parsed
                       :: default [] (history s !! Runs.flowId record)))
   /\ flows s' = flows s
   /\ (no_slash (Runs.flowId record) = true -> Runs.flowId record <> "" ->
       forall w',
         fetch (Some s') "GET" ("/flows/" +:+ Runs.flowId record +:+ "/logs")
           NoDocument w'
         = Some (Normal flow_not_found, Some s', w')))
  /\ (forall e,
        plain (Runs.flowId record) = false ->
        history s !! Runs.flowId record = None ->
        call_on (inherited OfObject (Runs.flowId record)) "unshift"
          "state.history[flowId].unshift" = Some e ->
        fetch (Some s) "POST" "/runs" (RunDocument record) w
        = Some (Throw e, Some s, w)).
Proof.
  intros Henum Hid Hplain Hparse Hnone.
  pose proof (RunRecordSchema_parse_flowId _ _ Hparse) as Hflow.
  assert (Hpost : fetch (Some s) "POST" "/runs" (RunDocument record) w
                  = match persistRun s parsed with
                    | Some (Normal state) =>
                        answered (Some s)
                          (Normal {| answer_status := 200;
                                     answer_body := OneRun parsed;
                                     answer_saved := Some state |}) w
                    | Some (Throw e) => answered (Some s) (Throw e) w
                    | None => None
                    end).
  { rewrite (fetch_identified _ _ _ _ _ Henum Hid Hplain). unfold serve.
    change (route s "POST" "/runs") with LogRun. cbv match beta.
    unfold log_run. rewrite Hparse. now destruct (persistRun s parsed) as [[?|?]|]. }
  split.
  - intros Hp. cbv zeta.
    assert (Hflows : flows (appended s parsed) = flows s).
    { unfold appended. simpl. now rewrite Hflow, Hnone. }
    split; [|split; [|split; [exact Hflows|]]].
    + rewrite Hpost, ManagerFacts.persistRun_plain by now rewrite Hflow.
      reflexivity.
    + rewrite <- Hflow. apply ManagerFacts.appended_history.
    + intros Hslash Hne w'.
      rewrite (fetch_identified _ _ _ _ _ Henum (appended_identified s parsed Hid)
                 (appended_plainly_named s parsed Hplain)).
      unfold serve.
      rewrite (route_unknown _ "GET" _ (Runs.flowId record) ["logs"]);
        [reflexivity| | |exact Hp].
      * exact (segments_flow_sub _ "logs" Hslash Hne eq_refl ltac:(discriminate)).
      * now rewrite Hflows.
  - intros e Hp Hh Hcall. rewrite Hpost.
    rewrite ManagerFacts.persistRun_inherited by now rewrite Hflow.
    rewrite Hflow, Hcall. reflexivity.
Qed.

End Posted.
End PostedRunFacts.

Module PostedRunWitness.
Import JS Platform Schema Utils Manager Router StoreProps StoreFixtureFacts.

Lemma posted_run_of_an_unknown_flow_is_kept_but_not_shown_witness :
  exists parsed,
    Runs.RunRecordSchema_parse (Sample.my_run "run-9" "2025-01-01T12:00:01.000Z")
    = Normal parsed
    /\ fetch (Some empty_state) "POST" "/runs"
         (RunDocument (Sample.my_run "run-9" "2025-01-01T12:00:01.000Z")) Sample.noon
       = Some (Normal {| answer_status := 200; answer_body := OneRun parsed;
                         answer_saved := Some (appended empty_state parsed) |},
               Some (appended empty_state parsed), Sample.noon)
    /\ fetch (Some (appended empty_state parsed)) "GET"
         ("/flows/" +:+ "my-flow" +:+ "/logs") NoDocument Sample.noon
       = Some (Normal flow_not_found, Some (appended empty_state parsed),
               Sample.noon).
Proof.
  assert (Hparse : { parsed : Runs.RunRecord
                   | Runs.RunRecordSchema_parse
                       (Sample.my_run "run-9" "2025-01-01T12:00:01.000Z")
                     = Normal parsed }).
  { eexists. vm_compute. reflexivity. }
  destruct Hparse as [parsed Hparse]. exists parsed. split; [exact Hparse|].
  assert (Hempty : identified empty_state).
  { intros key f Hl. simpl in Hl. rewrite lookup_empty in Hl. discriminate. }
  assert (Hnames : plainly_named empty_state).
  { intros key f Hl. simpl in Hl. rewrite lookup_empty in Hl. discriminate. }
  pose proof (proj1 (PostedRunFacts.posted_run_of_an_unknown_flow_is_kept_but_not_shown
                       empty_state (Sample.my_run "run-9" "2025-01-01T12:00:01.000Z")
                       parsed Sample.noon key_order_enumerates Hempty Hnames Hparse
                       eq_refl) eq_refl) as Hposted.
  cbv zeta in Hposted. destruct Hposted as (Hpost & _ & _ & Hlogs).
  split; [exact Hpost | exact (Hlogs eq_refl ltac:(discriminate) Sample.noon)].
Defined.

End PostedRunWitness.

Module SuccessWitness.
Import JS Platform Schema Steps Spec StepsFacts.

Lemma success_is_completion_or_short_circuit_witness :
  exists entries c' w',
    executeSteps [Sample.price_step; Sample.cheap_step; Sample.shout_step]
      Sample.fresh Sample.noon
    = (Normal {| success := true; stepResults := entries |}, c', w')
    /\ (proceeds [Sample.price_step; Sample.cheap_step; Sample.shout_step]
          Sample.fresh Sample.noon entries c' w'
        \/ exists pre step post done c1 w1,
             [Sample.price_step; Sample.cheap_step; Sample.shout_step]
             = pre ++ step :: post
             /\ proceeds pre Sample.fresh Sample.noon done c1 w1
             /\ verdict step c1 = Some false
             /\ length entries = S (length pre)).
Proof.
  assert (Hrun : { r : list StepExecutionResult * ExecContext * Sample.World
                 | executeSteps [Sample.price_step; Sample.cheap_step; Sample.shout_step]
                     Sample.fresh Sample.noon
                   = (Normal {| success := true; stepResults := fst (fst r) |},
                      snd (fst r), snd r) }).
  { eexists (_, _, _). simpl. vm_compute. reflexivity. }
  destruct Hrun as [[[entries c'] w'] Hrun]. simpl in Hrun.
  exists entries, c', w'. split; [exact Hrun|].
  exact (success_is_completion_or_short_circuit _ _ _ _ _ _ Hrun).
Defined.

End SuccessWitness.

(* ===================================================================== *)
(** * Rejected requests and payloads that cannot be built *)
(* ===================================================================== *)

Module FailureFacts.
Import JS Platform Schema Steps Spec Props StepsFacts.

Section Execution.
Context {World : Type} `{Runtime World} `{Host}.

(** X28. A fetch step whose request is rejected for another reason than an
    abort fails the run with the message of the rejection: the error is
    logged and recorded under the id of the step, nothing is stored in the
    results, and no later step is executed. *)
Theorem rejected_fetch_fails_with_the_message_of_the_rejection
    (pre : list Step) (f : FetchStep) (post : list Step)
    (c : ExecContext) (w : World)
    (entries : list StepExecutionResult) (c1 : ExecContext) (w1 : World)
    (e : thrown) (w2 : World) :
  proceeds pre c w entries c1 w1 ->
  http_fetch (fetch_request f) w1 = (Throw e, w2) ->
  is_abort e = false ->
  executeSteps (pre ++ StepFetch f :: post) c w
  = (Normal {| success := false;
               stepResults :=
                 entries ++ [{| stepId := fetch_id f; output := None;
                                error := Some (error_message e);
                                timestamp := fst (now_iso w2) |}] |},
     {| results := results c1;
        logs := logs c1 ++ ["[fetch] Error: " +:+ error_message e] |},
     snd (now_iso w2)).
Proof.
  intros Hp Hf Ha.
  eapply KindFacts.executeSteps_failure; [exact Hp|].
  rewrite (iteration_fetch_rejected f c1 w1 e w2 Hf). now rewrite Ha.
Qed.



End Execution.
Lemma rejected_fetch_fails_with_the_message_of_the_rejection_witness :
  http_fetch (fetch_request Fixtures.down_fetch) Sample.noon
  = (Throw (ErrorObject "TypeError" "fetch failed"), Sample.tick 1 Sample.noon)
  /\ executeSteps ([] ++ StepFetch Fixtures.down_fetch :: [Sample.shout_step])
       Sample.fresh Sample.noon
     = (Normal {| success := false;
                  stepResults :=
                    [] ++ [{| stepId := "down"; output := None;
                              error := Some "fetch failed";
                              timestamp := fst (now_iso (Sample.tick 1 Sample.noon)) |}] |},
        {| results := ∅; logs := [] ++ ["[fetch] Error: fetch failed"] |},
        snd (now_iso (Sample.tick 1 Sample.noon))).
Proof.
  split; [vm_compute; reflexivity|].
  refine (rejected_fetch_fails_with_the_message_of_the_rejection
            [] Fixtures.down_fetch [Sample.shout_step] Sample.fresh Sample.noon
            [] Sample.fresh Sample.noon (ErrorObject "TypeError" "fetch failed")
            (Sample.tick 1 Sample.noon) _ _ _).
  - constructor.
  - vm_compute. reflexivity.
  - reflexivity.
Defined.


End FailureFacts.
